(** * LF record core: wire codec, value masking, selector chain, work cost

    A shallow embedding of [pkg/lf/record.go].  Go's fixed-width unsigned
    integers are integers of [Z] with their wrap-around written out, byte
    slices are lists of [byte], a reader is the list of bytes still to be
    read, and a writer is the list of bytes written so far. *)

From Stdlib Require Import ZArith NArith List Bool Lia.
From Stdlib Require Import Strings.Byte.
From Stdlib Require Import Sorting.Permutation Sorting.Sorted.
Import ListNotations.

Local Open Scope Z_scope.

(* ================================================================= *)
(** ** Machine integers *)

Definition u8 (x : Z) : Z := x mod 2 ^ 8.
Definition u32 (x : Z) : Z := x mod 2 ^ 32.
Definition u64 (x : Z) : Z := x mod 2 ^ 64.

(** Go's [uint] is 32 or 64 bits wide, depending on the platform. *)
Inductive UintWidth : Type := W32 | W64.

Definition uint_bits (w : UintWidth) : Z :=
  match w with W32 => 32 | W64 => 64 end.

Definition uint (w : UintWidth) (x : Z) : Z := x mod 2 ^ uint_bits w.

(* ================================================================= *)
(** ** Constants of record.go *)

Definition recordBodyFlagHasCertificate : Z := 0x01.
Definition RecordMaxSize : Z := 65536.
Definition RecordWorkAlgorithmNone : Z := 0.
Definition RecordWorkAlgorithmWharrgarbl : Z := 1.

(* ================================================================= *)
(** ** Work cost and score *)

(** Modelled from the spec: [integerSqrtRounded] is called by
    [RecordWharrgarblCost] but its body is not part of the sources at hand.
    The specification describes it as the integer square root with
    round-to-nearest: with [s] the floor of the square root, the root lies
    above [s + 1/2] exactly when [op > s*s + s]. *)
Definition integerSqrtRounded (op : Z) : Z :=
  let res := Z.sqrt op in
  if res <? op - res * res then res + 1 else res.

(** [func RecordWharrgarblCost(bytes uint) uint32] *)
Definition RecordWharrgarblCost (w : UintWidth) (bytes : Z) : Z :=
  if bytes <? 4 then u32 (u32 bytes + 1)
  else
    let bytes := if RecordMaxSize <? bytes then RecordMaxSize else bytes in
    let b := u64 (uint w (bytes * 3)) in
    let c := u64 (u64 (u64 (u64 (integerSqrtRounded (u32 b)) * b) * 3)
                  - u64 (b * 8)) in
    if 0xffffffff <? c then 0xffffffff else u32 c.

(** The cost curve in the words of the specification (section 4.5),
    over unbounded integers. *)
Definition cost_spec (n : Z) : Z :=
  if n <? 4 then n + 1
  else
    let n := Z.min n RecordMaxSize in
    let b := 3 * n in
    Z.min (integerSqrtRounded b * b * 3 - b * 8) 0xffffffff.

(** [func RecordWharrgarblScore(cost uint32) uint32] *)
Definition RecordWharrgarblScore (cost : Z) : Z :=
  if 0x0f7b0000 <? cost then 0xffffa8db
  else if cost <? 1 then 1
  else u32 (u32 (cost * 16) + u32 (u32 (cost / 10000) * 5369)).

(* ================================================================= *)
(** ** Bytes *)

Definition Z_of_byte (b : byte) : Z := Z.of_N (Byte.to_N b).

(** Conversion to [byte] keeps the low eight bits, as Go's [byte(x)]. *)
Definition byte_of_Z (z : Z) : byte :=
  match Byte.of_N (Z.to_N (u8 z)) with
  | Some b => b
  | None => x00
  end.

Definition byte_xor (a b : byte) : byte :=
  byte_of_Z (Z.lxor (Z_of_byte a) (Z_of_byte b)).

Definition len (A : Type) (l : list A) : Z := Z.of_nat (length l).
Arguments len {A} l.

Definition zeros (n : nat) : list byte := repeat x00 n.

(** [binary.BigEndian.PutUint64] and [binary.BigEndian.Uint32]. *)
Definition BigEndian_PutUint64 (v : Z) : list byte :=
  map (fun k => byte_of_Z (Z.shiftr v (8 * k))) [7; 6; 5; 4; 3; 2; 1; 0].

Definition BigEndian_Uint32 (b : list byte) : Z :=
  fold_left (fun acc x => Z.lor (Z.shiftl acc 8) (Z_of_byte x)) (firstn 4 b) 0.

(* ================================================================= *)
(** ** Errors and readers *)

Inductive Error : Type :=
| ErrorRecordInvalid
| ErrorRecordMarkedIgnore
| ErrorRecordUnsupportedAlgorithm
| ErrorRecordSelectorClaimCheckFailed
| ErrorRecordOwnerSignatureCheckFailed
| ErrorRecordInsufficientWork
| ErrorInvalidParameter
| EOF                 (* io.EOF *)
| ErrUnexpectedEOF    (* io.ErrUnexpectedEOF *)
| errOverflow         (* encoding/binary: varint overflows a 64-bit integer *)
| ErrorSelector (code : Z).   (* whatever Selector.UnmarshalFrom reports *)

(** A read on a stream returns Go's pair of a value and an error, and the
    bytes that are left. *)
Definition Read (A : Type) : Type :=
  list byte -> (A * option Error) * list byte.

(** Modelled from the spec: [byteAndArrayReader] is declared elsewhere in
    the package.  It is built as [byteAndArrayReader{r}] from a reader, so
    it holds nothing but that reader; its [ReadByte] takes the next byte of
    the stream and its [Read] is the reader's. *)
Definition ReadByte : Read byte :=
  fun rd =>
    match rd with
    | [] => ((x00, Some EOF), [])
    | b :: rd' => ((b, None), rd')
    end.

(** [io.ReadFull] into a zeroed buffer of [n] bytes: the result is the
    buffer afterwards. *)
Definition ReadFull (n : nat) : Read (list byte) :=
  fun rd =>
    match n with
    | O => (([], None), rd)
    | S _ =>
      match rd with
      | [] => ((zeros n, Some EOF), [])
      | _ :: _ =>
        if (length rd <? n)%nat
        then ((rd ++ zeros (n - length rd), Some ErrUnexpectedEOF), [])
        else ((firstn n rd, None), skipn n rd)
      end
    end.

(** [io.CopyN(ioutil.Discard, rd, n)]: up to [n] bytes are dropped. *)
Definition CopyN_Discard (n : Z) : Read unit :=
  fun rd => ((tt, None), skipn (Z.to_nat n) rd).

(** [binary.ReadUvarint]: [i] counts the bytes read, [x] is the value so
    far and [s] the shift of the next group of seven bits.  The loop ends
    with the first byte below [0x80] or with the stream; a tenth byte above
    1, or any byte after it, is an overflow.  This is the function as the
    library had it when the code was written (before Go 1.15); later
    releases return [io.ErrUnexpectedEOF] for a stream that ends inside a
    number and stop reading after ten bytes.  Reads that succeed are the
    same in both. *)
Fixpoint ReadUvarint_loop (i : nat) (x s : Z) (rd : list byte)
  : (Z * option Error) * list byte :=
  match rd with
  | [] => ((x, Some EOF), [])
  | c :: rd' =>
    let b := Z_of_byte c in
    if b <? 0x80 then
      if (9 <? i)%nat || ((i =? 9)%nat && (1 <? b))
      then ((x, Some errOverflow), rd')
      else ((Z.lor x (u64 (Z.shiftl b s)), None), rd')
    else
      ReadUvarint_loop (S i) (Z.lor x (u64 (Z.shiftl (Z.land b 0x7f) s)))
                       (s + 7) rd'
  end.

Definition ReadUvarint : Read Z := ReadUvarint_loop 0 0 0.

(** [binary.PutUvarint]; a 64-bit value takes at most nine rounds. *)
Fixpoint PutUvarint_loop (fuel : nat) (x : Z) : list byte :=
  match fuel with
  | O => [byte_of_Z x]
  | S fuel' =>
    if 0x80 <=? x
    then byte_of_Z (Z.lor (u8 x) 0x80) :: PutUvarint_loop fuel' (Z.shiftr x 7)
    else [byte_of_Z x]
  end.

(** Modelled from the spec: [writeUVarint] is a helper of the package that
    is not among the sources at hand; the specification has every varuint
    written as little-endian base 128 by the standard unsigned varint
    encoder, which is [binary.PutUvarint] on a ten-byte buffer. *)
Definition writeUVarint (v : Z) : list byte := PutUvarint_loop 9 (u64 v).

(* ================================================================= *)
(** ** A state and error monad for the decoder

    A method that decodes into a receiver threads the receiver and the
    stream, and stops at the first [return err]. *)

Inductive result (A : Type) : Type :=
| Ok (a : A)
| Err (e : Error).
Arguments Ok {A} a.
Arguments Err {A} e.

Definition M (S A : Type) : Type := S -> result A * S.

Definition ret {S A : Type} (a : A) : M S A := fun st => (Ok a, st).

Definition bind {S A B : Type} (m : M S A) (k : A -> M S B) : M S B :=
  fun st =>
    match m st with
    | (Ok a, st') => k a st'
    | (Err e, st') => (Err e, st')
    end.

Definition throw {S A : Type} (e : Error) : M S A := fun st => (Err e, st).

Declare Scope go_scope.
Delimit Scope go_scope with go.
Notation "x <- m ;; k" := (bind m (fun x => k))
  (at level 61, m at next level, right associativity) : go_scope.
Notation "' p <- m ;; k" := (bind m (fun p => k))
  (at level 61, p pattern, m at next level, right associativity) : go_scope.
Notation "m ;;; k" := (bind m (fun _ => k))
  (at level 61, right associativity) : go_scope.

(** Run a read on the stream half of the state. *)
Definition io {X A : Type} (f : Read A) : M (X * list byte) (A * option Error) :=
  fun st => let '(v, rd') := f (snd st) in (Ok v, (fst st, rd')).

(** [if err != nil { return err }] *)
Definition check {S : Type} (err : option Error) : M S unit :=
  match err with
  | Some e => throw e
  | None => ret tt
  end.

(** Assign to the receiver. *)
Definition upd {X : Type} (f : X -> X) : M (X * list byte) unit :=
  fun st => (Ok tt, (f (fst st), snd st)).

Definition receiver {X : Type} : M (X * list byte) X :=
  fun st => (Ok (fst st), st).

(** Replace element [i] of a slice ([i] is in range wherever it is used). *)
Fixpoint set_nth {A : Type} (i : nat) (v : A) (l : list A) : list A :=
  match l, i with
  | [], _ => []
  | _ :: l', O => v :: l'
  | a :: l', S i' => a :: set_nth i' v l'
  end.

(* ================================================================= *)
(** ** Record body *)

Record recordBody : Type := mkBody {
  MaskedValue : list byte;
  Owner : list byte;
  Certificate : list byte;
  Links : list byte;
  Timestamp : Z
}.

Definition set_MaskedValue (v : list byte) (rb : recordBody) : recordBody :=
  mkBody v (Owner rb) (Certificate rb) (Links rb) (Timestamp rb).
Definition set_Owner (v : list byte) (rb : recordBody) : recordBody :=
  mkBody (MaskedValue rb) v (Certificate rb) (Links rb) (Timestamp rb).
Definition set_Certificate (v : list byte) (rb : recordBody) : recordBody :=
  mkBody (MaskedValue rb) (Owner rb) v (Links rb) (Timestamp rb).
Definition set_Links (v : list byte) (rb : recordBody) : recordBody :=
  mkBody (MaskedValue rb) (Owner rb) (Certificate rb) v (Timestamp rb).
Definition set_Timestamp (v : Z) (rb : recordBody) : recordBody :=
  mkBody (MaskedValue rb) (Owner rb) (Certificate rb) (Links rb) v.

(** The zero value of the struct. *)
Definition recordBody_zero : recordBody := mkBody [] [] [] [] 0.

Local Open Scope go_scope.

(** [func (rb *recordBody) unmarshalFrom(r io.Reader) error].  The error of
    the flag read and the error of the read of the links are overwritten
    before they are looked at, as in the source. *)
Definition unmarshalFrom : M (recordBody * list byte) unit :=
  '(flags, _) <- io ReadByte ;;
  '(l, err) <- io ReadUvarint ;;
  check err ;;;
  (if 0 <? l then
     (if RecordMaxSize <? l then throw ErrorRecordInvalid else ret tt) ;;;
     '(buf, err) <- io (ReadFull (Z.to_nat l)) ;;
     upd (set_MaskedValue buf) ;;;
     check err
   else upd (set_MaskedValue [])) ;;;
  '(l, err) <- io ReadUvarint ;;
  check err ;;;
  (if 0 <? l then
     (if RecordMaxSize <? l then throw ErrorRecordInvalid else ret tt) ;;;
     '(buf, err) <- io (ReadFull (Z.to_nat l)) ;;
     upd (set_Owner buf) ;;;
     check err
   else upd (set_Owner [])) ;;;
  (if negb (Z.land (Z_of_byte flags) recordBodyFlagHasCertificate =? 0) then
     '(cert, err) <- io (ReadFull 32) ;;
     check err ;;;
     upd (set_Certificate cert)
   else upd (set_Certificate [])) ;;;
  '(l, err) <- io ReadUvarint ;;
  check err ;;;
  (if 0 <? l then
     let l := u64 (l * 32) in
     (if RecordMaxSize <? l then throw ErrorRecordInvalid else ret tt) ;;;
     '(buf, _) <- io (ReadFull (Z.to_nat l)) ;;
     upd (set_Links buf)
   else upd (set_Links [])) ;;;
  '(ts, err) <- io ReadUvarint ;;
  upd (set_Timestamp ts) ;;;
  check err.

(** [func (rb *recordBody) marshalTo(w io.Writer) error], for a writer that
    accepts everything (a [bytes.Buffer], a counting writer, a hash): the
    result is what gets written. *)
Definition marshalTo (rb : recordBody) : list byte :=
  let flags :=
    if (length (Certificate rb) =? 32)%nat
    then Z.lor 0 recordBodyFlagHasCertificate else 0 in
  [byte_of_Z flags]
  ++ writeUVarint (len (MaskedValue rb)) ++ MaskedValue rb
  ++ writeUVarint (len (Owner rb)) ++ Owner rb
  ++ (if (length (Certificate rb) =? 32)%nat then Certificate rb else [])
  ++ (if (32 <=? length (Links rb))%nat then
        let linkCount := (length (Links rb) / 32)%nat in
        writeUVarint (Z.of_nat linkCount)
        ++ firstn (linkCount * 32) (Links rb)
      else [x00])
  ++ writeUVarint (Timestamp rb).

(** Every field of the body is within the bounds the decoder checks. *)
Definition body_fits (rb : recordBody) : Prop :=
  len (MaskedValue rb) <= RecordMaxSize
  /\ len (Owner rb) <= RecordMaxSize
  /\ len (Links rb) <= RecordMaxSize
  /\ 0 <= Timestamp rb < 2 ^ 64.

(** [func (rb *recordBody) sizeBytes() uint] *)
Definition sizeBytes (rb : recordBody) : Z := len (marshalTo rb).

(** [func (rb *recordBody) LinkCount() uint] *)
Definition LinkCount (rb : recordBody) : Z := len (Links rb) / 32.

(** The body that is left of [rb] on the wire: a certificate that has not
    32 bytes is gone, and so are the bytes of the links after the last
    whole 32-byte link. *)
Definition on_the_wire (rb : recordBody) : recordBody :=
  mkBody (MaskedValue rb) (Owner rb)
         (if (length (Certificate rb) =? 32)%nat then Certificate rb else [])
         (firstn (length (Links rb) / 32 * 32) (Links rb))
         (Timestamp rb).

(* ================================================================= *)
(** ** Records *)

Definition RecordWorkAlgorithmNone_b : byte := byte_of_Z RecordWorkAlgorithmNone.
Definition RecordWorkAlgorithmWharrgarbl_b : byte :=
  byte_of_Z RecordWorkAlgorithmWharrgarbl.

Section Records.

(** The selector type, its codec and the size of a piece of Wharrgarbl work
    are declared in files of the package that are not at hand; the record
    code is embedded over them. *)
Variable Selector : Type.
Variable Selector_zero : Selector.
Variable Selector_MarshalTo : Selector -> list byte.
Variable Selector_UnmarshalFrom : Selector -> Read Selector.
Variable WharrgarblOutputSize : nat.

Record LFRecord : Type := mkRecord {
  body : recordBody;
  Selectors : list Selector;
  Work : list byte;
  WorkAlgorithm : byte;
  Signature : list byte;
  data : list byte;               (* cached raw data *)
  hash : option (list byte);      (* cached hash *)
  id : option (list byte)         (* cached ID *)
}.

Definition set_body (v : recordBody) (r : LFRecord) : LFRecord :=
  mkRecord v (Selectors r) (Work r) (WorkAlgorithm r) (Signature r)
           (data r) (hash r) (id r).
Definition set_Selectors (v : list Selector) (r : LFRecord) : LFRecord :=
  mkRecord (body r) v (Work r) (WorkAlgorithm r) (Signature r)
           (data r) (hash r) (id r).
Definition set_Work (v : list byte) (r : LFRecord) : LFRecord :=
  mkRecord (body r) (Selectors r) v (WorkAlgorithm r) (Signature r)
           (data r) (hash r) (id r).
Definition set_WorkAlgorithm (v : byte) (r : LFRecord) : LFRecord :=
  mkRecord (body r) (Selectors r) (Work r) v (Signature r)
           (data r) (hash r) (id r).
Definition set_Signature (v : list byte) (r : LFRecord) : LFRecord :=
  mkRecord (body r) (Selectors r) (Work r) (WorkAlgorithm r) v
           (data r) (hash r) (id r).
Definition clear_caches (r : LFRecord) : LFRecord :=
  mkRecord (body r) (Selectors r) (Work r) (WorkAlgorithm r) (Signature r)
           [] None None.

(** [new(Record)] *)
Definition Record_zero : LFRecord :=
  mkRecord recordBody_zero [] [] x00 [] [] None None.

(** A method of the embedded body, called on the record. *)
Definition onBody {A : Type} (m : M (recordBody * list byte) A)
  : M (LFRecord * list byte) A :=
  fun st =>
    let '(res, (rb, rd)) := m (body (fst st), snd st) in
    (res, (set_body rb (fst st), rd)).

(** The loop over [r.Selectors], of [n] rounds from index [i]. *)
Fixpoint unmarshalSelectors (n i : nat) : M (LFRecord * list byte) unit :=
  match n with
  | O => ret tt
  | S n' =>
    r <- receiver ;;
    '(sel, err) <- io (Selector_UnmarshalFrom (nth i (Selectors r) Selector_zero)) ;;
    upd (fun r => set_Selectors (set_nth i sel (Selectors r)) r) ;;;
    check err ;;;
    unmarshalSelectors n' (S i)
  end.

(** [func (r *Record) UnmarshalFrom(rdr io.Reader) error] *)
Definition UnmarshalFrom : M (LFRecord * list byte) unit :=
  '(hdrb, err) <- io ReadByte ;;
  check err ;;;
  if Byte.eqb hdrb xff then
    '(deadRecordLen, err) <- io (ReadFull 4) ;;
    check err ;;;
    let deadLen := BigEndian_Uint32 deadRecordLen in
    (if 5 <=? deadLen
     then _ <- io (CopyN_Discard (u32 (deadLen - 5))) ;; ret tt
     else ret tt) ;;;
    throw ErrorRecordMarkedIgnore
  else if negb (Byte.eqb hdrb x00) then
    throw ErrorRecordInvalid
  else
    onBody unmarshalFrom ;;;
    '(selCount, err) <- io ReadUvarint ;;
    check err ;;;
    (if RecordMaxSize / 64 <? selCount then throw ErrorRecordInvalid
     else ret tt) ;;;
    upd (set_Selectors (repeat Selector_zero (Z.to_nat selCount))) ;;;
    r <- receiver ;;
    unmarshalSelectors (length (Selectors r)) 0 ;;;
    '(walg, err) <- io ReadByte ;;
    check err ;;;
    (if Byte.eqb walg RecordWorkAlgorithmWharrgarbl_b then
       '(work, err) <- io (ReadFull WharrgarblOutputSize) ;;
       check err ;;;
       upd (set_Work work)
     else if negb (Byte.eqb walg RecordWorkAlgorithmNone_b) then
       throw ErrorRecordUnsupportedAlgorithm
     else ret tt) ;;;
    upd (set_WorkAlgorithm walg) ;;;
    '(siglen, err) <- io ReadUvarint ;;
    check err ;;;
    (if RecordMaxSize <? siglen then throw ErrorRecordInvalid else ret tt) ;;;
    '(sig, err) <- io (ReadFull (Z.to_nat siglen)) ;;
    upd (set_Signature sig) ;;;
    check err ;;;
    upd clear_caches.

(** What [MarshalTo] writes when there is no cached data. *)
Definition marshalFields (r : LFRecord) : list byte :=
  [x00]
  ++ marshalTo (body r)
  ++ writeUVarint (len (Selectors r))
  ++ concat (map Selector_MarshalTo (Selectors r))
  ++ [WorkAlgorithm r]
  ++ Work r
  ++ writeUVarint (len (Signature r))
  ++ Signature r.

(** [func (r *Record) MarshalTo(w io.Writer) error], for a writer that
    accepts everything. *)
Definition MarshalTo (r : LFRecord) : list byte :=
  if (0 <? length (data r))%nat then data r else marshalFields r.

(** [func (r *Record) Bytes() []byte]: the bytes, and the record with its
    cache filled. *)
Definition Bytes (r : LFRecord) : list byte * LFRecord :=
  if (length (data r) =? 0)%nat then
    let buf := MarshalTo r in
    (buf, mkRecord (body r) (Selectors r) (Work r) (WorkAlgorithm r)
                   (Signature r) buf (hash r) (id r))
  else (data r, r).

(** [func (r *Record) SizeBytes() uint] *)
Definition SizeBytes (r : LFRecord) : Z :=
  if (length (data r) =? 0)%nat then len (MarshalTo r) else len (data r).

(** [func NewRecordFromBytes(b []byte) (r *Record, err error)] *)
Definition NewRecordFromBytes (b : list byte) : result unit * LFRecord :=
  let '(res, (r, _)) := UnmarshalFrom (Record_zero, b) in (res, r).

(** *** Well-formed records and the round trip *)

(** Well-formedness in the words of the round-trip property: the links are
    a whole number of 32-byte hashes, the certificate is absent or has 32
    bytes, and the serialized record has at most [RecordMaxSize] bytes. *)
Definition well_formed (r : LFRecord) : Prop :=
  (length (Links (body r)) mod 32 = 0)%nat
  /\ (Certificate (body r) = [] \/ length (Certificate (body r)) = 32%nat)
  /\ len (MarshalTo r) <= RecordMaxSize.

(** The timestamp is a [uint64]. *)
Definition timestamp_typed (r : LFRecord) : Prop :=
  0 <= Timestamp (body r) < 2 ^ 64.

(** The work is as long as the work algorithm says. *)
Definition work_matches_algorithm (r : LFRecord) : Prop :=
  (WorkAlgorithm r = RecordWorkAlgorithmNone_b /\ Work r = [])
  \/ (WorkAlgorithm r = RecordWorkAlgorithmWharrgarbl_b
      /\ length (Work r) = WharrgarblOutputSize).

(** The cached data, when there is any, is the serialized record. *)
Definition cache_coherent (r : LFRecord) : Prop :=
  data r = [] \/ data r = marshalFields r.

(** Every selector of the list round-trips through the selector codec:
    decoding its encoding into a zero selector, whatever bytes come after
    it, gives the selector back and leaves these bytes.  Nothing is asked
    of the selectors that are not in the list. *)
Definition selectors_round_trip (sels : list Selector) : Prop :=
  Forall (fun s : Selector =>
            forall rest : list byte,
              Selector_UnmarshalFrom Selector_zero
                                     (Selector_MarshalTo s ++ rest)
              = ((s, None), rest))
         sels.

(** Decoding the bytes of [r] into a new record succeeds, uses up the
    bytes, gives back the body, selectors, work, work algorithm and
    signature of [r], and the result encodes to the same bytes. *)
Definition round_trips (r : LFRecord) : Prop :=
  exists r' : LFRecord,
    UnmarshalFrom (Record_zero, MarshalTo r) = (Ok tt, (r', []))
    /\ body r' = body r
    /\ Selectors r' = Selectors r
    /\ Work r' = Work r
    /\ WorkAlgorithm r' = WorkAlgorithm r
    /\ Signature r' = Signature r
    /\ MarshalTo r' = MarshalTo r.

End Records.

Arguments body {Selector}.
Arguments Selectors {Selector}.
Arguments Work {Selector}.
Arguments WorkAlgorithm {Selector}.
Arguments Signature {Selector}.
Arguments data {Selector}.
Arguments hash {Selector}.
Arguments id {Selector}.
Arguments mkRecord {Selector}.
Arguments Record_zero {Selector}.
Arguments MarshalTo {Selector}.
Arguments marshalFields {Selector}.
Arguments UnmarshalFrom {Selector}.
Arguments unmarshalSelectors {Selector}.
Arguments NewRecordFromBytes {Selector}.
Arguments SizeBytes {Selector}.
Arguments Bytes {Selector}.
Arguments onBody {Selector A}.
Arguments set_body {Selector}.
Arguments set_Selectors {Selector}.
Arguments set_Work {Selector}.
Arguments set_WorkAlgorithm {Selector}.
Arguments set_Signature {Selector}.
Arguments clear_caches {Selector}.
Arguments well_formed {Selector}.
Arguments timestamp_typed {Selector}.
Arguments work_matches_algorithm {Selector}.
Arguments cache_coherent {Selector}.
Arguments selectors_round_trip {Selector}.
Arguments round_trips {Selector}.

(* ================================================================= *)
(** ** Value masking, record assembly and validation *)

(** [copy(dst[off:], src)]: the bytes of [src] that fit overwrite [dst]
    from offset [off]. *)
Definition copy_into (dst : list byte) (off : nat) (src : list byte)
  : list byte :=
  firstn off dst
  ++ firstn (length dst - off) src
  ++ skipn (off + length src) dst.

(** The stream of [crypto/cipher]'s CFB mode, a byte at a time: [b] is the
    block cipher's [Encrypt], [next] the block that is encrypted next, [out]
    the current key stream block and [outUsed] the number of its bytes
    already used.  The block is refilled when all 16 bytes are used; the
    byte fed back into [next] is the ciphertext byte, which is the input
    when decrypting and the output when encrypting. *)
Fixpoint XORKeyStream (decrypt : bool) (b : list byte -> list byte)
         (next out : list byte) (outUsed : nat) (src : list byte)
  : list byte :=
  match src with
  | [] => []
  | s :: src' =>
    let out := if (outUsed =? 16)%nat then b next else out in
    let outUsed := if (outUsed =? 16)%nat then 0%nat else outUsed in
    let d := byte_xor s (nth outUsed out x00) in
    let next := set_nth outUsed (if decrypt then s else d) next in
    d :: XORKeyStream decrypt b next out (S outUsed) src'
  end.

(** [cipher.NewCFBEncrypter(c, iv).XORKeyStream(dst, src)] and the same for
    [cipher.NewCFBDecrypter]. *)
Definition CFBEncrypt (b : list byte -> list byte) (iv src : list byte)
  : list byte := XORKeyStream false b iv (zeros 16) 16 src.

Definition CFBDecrypt (b : list byte -> list byte) (iv src : list byte)
  : list byte := XORKeyStream true b iv (zeros 16) 16 src.

(** A call either returns or panics (an index out of range). *)
Inductive outcome (A : Type) : Type :=
| Return (a : A)
| Panic.
Arguments Return {A} a.
Arguments Panic {A}.

Section Assembly.

(** Hashes, the block cipher, the LZW codec, selectors, owners and the
    proof of work come from the standard library and from files of the
    package that are not at hand. *)
Variable Shandwich256 : list byte -> list byte.
Variable sha3_256 : list byte -> list byte.
Variable sha256 : list byte -> list byte.
(** [aes.NewCipher(key)] followed by [Encrypt] on one block. *)
Variable aes : list byte -> list byte -> list byte.
(** [lzw.NewWriter(buf, lzw.LSB, 8)], [Write(value)], [Close()]: the bytes
    that reach the buffer and whether [Write] reported an error. *)
Variable lzw_Write : list byte -> list byte * bool.
(** Reading all of [lzw.NewReader(rd, lzw.LSB, 8)]: the bytes decoded and
    the error that ended the decoding, if it was not the end of the data. *)
Variable lzw_Read : list byte -> list byte * option Error.

Variable Selector : Type.
Variable Selector_zero : Selector.
(** [s.Claim(name, ordinal, hash)] on the selector [s]. *)
Variable Selector_Claim : Selector -> list byte -> Z -> list byte -> Selector.
Variable Selector_Bytes : Selector -> list byte.
Variable Selector_VerifyClaim : Selector -> list byte -> bool.

Variable OwnerT : Type.
Variable NewOwnerFromBytes : list byte -> option OwnerT.
Variable Owner_Verify : OwnerT -> list byte -> list byte -> bool.
Variable WharrgarblVerify : list byte -> list byte -> Z.

(** The width of [uint] on the platform. *)
Variable w : UintWidth.

Local Abbreviation Rec := (LFRecord Selector).

(** [func (rb *recordBody) signingHash() (sum [32]byte)]: what is written
    to the hash, then its sum. *)
Definition signingHash (rb : recordBody) : list byte :=
  let vh := Shandwich256 (MaskedValue rb) in
  Shandwich256
    (vh ++ [x00]
     ++ Owner rb ++ [x00]
     ++ Certificate rb ++ [x00]
     ++ Links rb ++ [x00]
     ++ BigEndian_PutUint64 (Timestamp rb) ++ [x00]).

(** [func (rb *recordBody) GetValue(maskingKey []byte) []byte] *)
Definition GetValue (rb : recordBody) (maskingKey : list byte) : list byte :=
  if (length (MaskedValue rb) =? 0)%nat then []
  else
    let cfbIv := zeros 16 in
    let cfbIv := copy_into cfbIv 0 (BigEndian_PutUint64 (Timestamp rb)) in
    let cfbIv :=
      if (8 <=? length (Owner rb))%nat
      then copy_into cfbIv 8 (firstn 8 (Owner rb)) else cfbIv in
    let maskingKeyH := sha256 maskingKey in
    let unmaskedValue := CFBDecrypt (aes maskingKeyH) cfbIv (MaskedValue rb) in
    if negb (Z.land (Z_of_byte (hd x00 unmaskedValue)) 0x01 =? 0) then
      (* ioutil.ReadAll(io.LimitReader(lzw.NewReader(...), RecordMaxSize)) *)
      let '(decoded, err) := lzw_Read (tl unmaskedValue) in
      if RecordMaxSize <=? len decoded
      then firstn (Z.to_nat RecordMaxSize) decoded
      else match err with
           | Some _ => []
           | None => decoded
           end
    else tl unmaskedValue.

(** The state of the selector loops: the record, the billable bytes, what
    has been written to the work hasher, and the selector claim signing
    hash. *)
Definition loop_state : Type := (Rec * Z * list byte * list byte)%type.

(** The loop of [NewRecordStart] over the selector names, from index [i]. *)
Fixpoint claimLoop (names : list (list byte)) (i : nat)
         (selectorOrdinals : list Z) (st : loop_state) : outcome loop_state :=
  match names with
  | [] => Return st
  | name :: names' =>
    let '(r, workBillableBytes, workHasher, selectorClaimSigningHash) := st in
    match nth_error selectorOrdinals i with
    | None => Panic
    | Some ordinal =>
      let sel := Selector_Claim (nth i (Selectors r) Selector_zero)
                                name ordinal selectorClaimSigningHash in
      let r := set_Selectors (set_nth i sel (Selectors r)) r in
      let sb := Selector_Bytes sel in
      let workBillableBytes := uint w (workBillableBytes + uint w (len sb)) in
      let workHasher := workHasher ++ sb in
      let selectorClaimSigningHash :=
        sha3_256 (selectorClaimSigningHash ++ sb) in
      claimLoop names' (S i) selectorOrdinals
                (r, workBillableBytes, workHasher, selectorClaimSigningHash)
    end
  end.

(** [func NewRecordStart(...) (r *Record, workHash [32]byte,
    workBillableBytes uint, err error)] *)
Definition NewRecordStart (value : list byte) (links : list (list byte))
           (maskingKey : list byte)
           (plainTextSelectorNames : list (list byte))
           (selectorOrdinals : list Z)
           (ownerPublic certificateRecordHash : list byte) (ts : Z)
  : outcome (result (Rec * list byte * Z)) :=
  if RecordMaxSize <? len value then Return (Err ErrorInvalidParameter)
  else
    let rb := recordBody_zero in
    let rb :=
      if 0 <? len value then
        let valueMasked : list byte := [] in
        let valueMasked :=
          if 16 <=? len value then
            let '(compressed, lzwErr) := lzw_Write value in
            let valueMasked := x01 :: compressed in
            if lzwErr || (len value <? len valueMasked) then []
            else valueMasked
          else valueMasked in
        let valueMasked :=
          if len valueMasked =? 0 then x00 :: value else valueMasked in
        let cfbIv := zeros 16 in
        let cfbIv := copy_into cfbIv 0 (BigEndian_PutUint64 ts) in
        let cfbIv :=
          if (8 <=? length ownerPublic)%nat
          then copy_into cfbIv 8 (firstn 8 ownerPublic) else cfbIv in
        let maskingKeyH := sha256 maskingKey in
        let valueMasked := CFBEncrypt (aes maskingKeyH) cfbIv valueMasked in
        set_MaskedValue valueMasked rb
      else rb in
    let rb := set_Owner (Owner rb ++ ownerPublic) rb in
    let rb :=
      if (length certificateRecordHash =? 32)%nat
      then set_Certificate (copy_into (zeros 32) 0 certificateRecordHash) rb
      else rb in
    let rb :=
      if (0 <? length links)%nat then set_Links (concat links) rb else rb in
    let rb := set_Timestamp ts rb in
    let r : Rec := set_body rb Record_zero in
    let workBillableBytes := uint w (sizeBytes rb) in
    let selectorClaimSigningHash := signingHash rb in
    let workHasher := selectorClaimSigningHash in
    let st : loop_state :=
      (r, workBillableBytes, workHasher, selectorClaimSigningHash) in
    let looped :=
      if (0 <? length plainTextSelectorNames)%nat then
        let '(r, b, h, c) := st in
        claimLoop plainTextSelectorNames 0 selectorOrdinals
                  (set_Selectors
                     (repeat Selector_zero (length plainTextSelectorNames)) r,
                   b, h, c)
      else Return st in
    match looped with
    | Panic => Panic
    | Return (r, workBillableBytes, workHasher, _) =>
      Return (Ok (r, sha3_256 workHasher, workBillableBytes))
    end.

(** The loop of [Validate] over the selectors: [None] when a claim does not
    verify. *)
Fixpoint verifyLoop (sels : list Selector)
         (workBillableBytes : Z) (workHasher selectorClaimSigningHash : list byte)
  : option (Z * list byte * list byte) :=
  match sels with
  | [] => Some (workBillableBytes, workHasher, selectorClaimSigningHash)
  | sel :: sels' =>
    if negb (Selector_VerifyClaim sel selectorClaimSigningHash) then None
    else
      let sb := Selector_Bytes sel in
      verifyLoop sels'
                 (uint w (workBillableBytes + uint w (len sb)))
                 (workHasher ++ sb)
                 (sha3_256 (selectorClaimSigningHash ++ sb))
  end.

(** [func (r *Record) Validate() (err error)].  The functions it calls are
    total here, so the deferred [recover] has nothing to catch. *)
Definition Validate (r : Rec) : result unit :=
  if (length (Owner (body r)) =? 0)%nat
  then Err ErrorRecordOwnerSignatureCheckFailed
  else
    let selectorClaimSigningHash := signingHash (body r) in
    let workBillableBytes := uint w (sizeBytes (body r)) in
    let workHasher := selectorClaimSigningHash in
    match verifyLoop (Selectors r) workBillableBytes workHasher
                     selectorClaimSigningHash with
    | None => Err ErrorRecordSelectorClaimCheckFailed
    | Some (workBillableBytes, workHasher, _) =>
      let workHash := sha3_256 workHasher in
      let insufficient :=
        if Byte.eqb (WorkAlgorithm r) RecordWorkAlgorithmNone_b then false
        else if Byte.eqb (WorkAlgorithm r) RecordWorkAlgorithmWharrgarbl_b then
          u32 (WharrgarblVerify (Work r) workHash)
          <? RecordWharrgarblCost w workBillableBytes
        else true in
      if insufficient then Err ErrorRecordInsufficientWork
      else
        match NewOwnerFromBytes (Owner (body r)) with
        | None => Err ErrorRecordOwnerSignatureCheckFailed
        | Some owner =>
          let finalHash :=
            sha3_256 (workHash ++ Work r ++ [WorkAlgorithm r]) in
          if negb (Owner_Verify owner finalHash (Signature r))
          then Err ErrorRecordOwnerSignatureCheckFailed
          else Ok tt
        end
    end.

(** *** The selector claim chain, in the words of the specification *)

(** [hash_0 = h] and [hash_(i+1) = SHA3-256(hash_i ++ selectors[i].bytes())]:
    the list [hash_0, ..., hash_n] for [n] selectors. *)
Fixpoint claimChain (h : list byte) (sbs : list (list byte))
  : list (list byte) :=
  match sbs with
  | [] => [h]
  | sb :: sbs' => h :: claimChain (sha3_256 (h ++ sb)) sbs'
  end.

(** The chained hash that selector [i] of a record is bound to. *)
Definition chainedHash (r : Rec) (i : nat) : list byte :=
  nth i (claimChain (signingHash (body r)) (map Selector_Bytes (Selectors r)))
      [].

(** *** The masked value, in the words of the specification *)

(** The initialization vector as the code builds it: the timestamp, then
    the first eight owner bytes when there are eight, and zeros when there
    are not. *)
Definition maskingIV (ts : Z) (owner : list byte) : list byte :=
  BigEndian_PutUint64 ts
  ++ (if (8 <=? length owner)%nat then firstn 8 owner else zeros 8).

(** The initialization vector as the specification words it: the timestamp,
    then the first eight bytes of the owner, padded with zeros when the
    owner is shorter. *)
Definition maskingIV_padded (ts : Z) (owner : list byte) : list byte :=
  BigEndian_PutUint64 ts ++ firstn 8 (owner ++ zeros 8).

(** What is encrypted for a non-empty value, as the code chooses it: the
    compressed form behind [0x01] when the value has 16 bytes or more, the
    compression did not fail and flag and compressed bytes together are no
    longer than the value, and the value itself behind [0x00] otherwise. *)
Definition storedPlaintext (value : list byte) : list byte :=
  let '(compressed, lzwErr) := lzw_Write value in
  if (16 <=? len value) && negb lzwErr && (len compressed + 1 <=? len value)
  then x01 :: compressed
  else x00 :: value.

(** The same with the strict comparison of the specification. *)
Definition storedPlaintext_strict (value : list byte) : list byte :=
  let '(compressed, lzwErr) := lzw_Write value in
  if (16 <=? len value) && negb lzwErr && (len compressed + 1 <? len value)
  then x01 :: compressed
  else x00 :: value.

(** What [GetValue] makes of the bytes behind the mask: behind a flag byte
    with bit 0 set, the LZW decoding of the rest, cut at [RecordMaxSize]
    bytes, or nothing if the decoding fails earlier; otherwise the rest. *)
Definition unwrapValue (unmasked : list byte) : list byte :=
  if negb (Z.land (Z_of_byte (hd x00 unmasked)) 0x01 =? 0) then
    let '(decoded, err) := lzw_Read (tl unmasked) in
    if RecordMaxSize <=? len decoded
    then firstn (Z.to_nat RecordMaxSize) decoded
    else match err with
         | Some _ => []
         | None => decoded
         end
  else tl unmasked.

(** The bytes behind the mask: the first step of [GetValue]. *)
Definition unmaskedValue (rb : recordBody) (maskingKey : list byte)
  : list byte :=
  CFBDecrypt (aes (sha256 maskingKey))
             (maskingIV (Timestamp rb) (Owner rb)) (MaskedValue rb).

(** The body that [NewRecordStart] fills in. *)
Definition started_body (value : list byte) (links : list (list byte))
           (maskingKey ownerPublic certificateRecordHash : list byte) (ts : Z)
  : recordBody :=
  mkBody (if 0 <? len value
          then CFBEncrypt (aes (sha256 maskingKey)) (maskingIV ts ownerPublic)
                          (storedPlaintext value)
          else [])
         ownerPublic
         (if (length certificateRecordHash =? 32)%nat
          then copy_into (zeros 32) 0 certificateRecordHash else [])
         (if (0 <? length links)%nat then concat links else [])
         ts.

End Assembly.

Arguments claimLoop sha3_256 {Selector}.
Arguments NewRecordStart Shandwich256 sha3_256 sha256 aes lzw_Write {Selector}.
Arguments verifyLoop sha3_256 {Selector}.
Arguments Validate Shandwich256 sha3_256 {Selector} Selector_Bytes
          Selector_VerifyClaim {OwnerT}.
Arguments chainedHash Shandwich256 sha3_256 {Selector}.

(* ================================================================= *)
(** ** The LZW writer of the standard library

    [compress/lzw]'s encoder for [lzw.LSB] and a literal width of 8, used
    to run [NewRecordStart] on concrete values.  Codes start 9 bits wide
    and grow to 12; code 256 clears the table and code 257 ends the data.
    The table maps a code and the next literal to the code of the longer
    string. *)

Module Lzw.

Definition maxCode : Z := 4095.

Record encoder : Type := mkEncoder {
  bits : Z;               (* pending bits, a uint32 *)
  nBits : Z;
  width : Z;              (* current code width *)
  hi : Z;                 (* the last code handed out *)
  overflow : Z;           (* the code at which the width grows *)
  table : list (Z * Z);
  out : list byte
}.

(** [NewWriter(w, LSB, 8)] *)
Definition newEncoder : encoder := mkEncoder 0 0 9 257 512 [] [].

(** Whole bytes leave the pending bits; fewer than 8 + 12 bits are ever
    pending, so three rounds are enough. *)
Fixpoint flush (fuel : nat) (bits nBits : Z) (out : list byte)
  : Z * Z * list byte :=
  match fuel with
  | O => (bits, nBits, out)
  | S fuel' =>
    if 8 <=? nBits
    then flush fuel' (Z.shiftr bits 8) (nBits - 8) (out ++ [byte_of_Z bits])
    else (bits, nBits, out)
  end.

(** [func (e *encoder) writeLSB(c uint32) error] *)
Definition writeLSB (e : encoder) (c : Z) : encoder :=
  let bits := Z.lor (bits e) (u32 (Z.shiftl c (nBits e))) in
  let nBits := nBits e + width e in
  let '(bits, nBits, out) := flush 3 bits nBits (out e) in
  mkEncoder bits nBits (width e) (hi e) (overflow e) (table e) out.

(** [func (e *encoder) incHi() error]: the flag is [errOutOfCodes]. *)
Definition incHi (e : encoder) : encoder * bool :=
  let hi := hi e + 1 in
  let grow := hi =? overflow e in
  let e := mkEncoder (bits e) (nBits e)
                     (if grow then width e + 1 else width e) hi
                     (if grow then overflow e * 2 else overflow e)
                     (table e) (out e) in
  if hi =? maxCode then
    let e := writeLSB e 256 in
    (mkEncoder (bits e) (nBits e) 9 257 512 [] (out e), true)
  else (e, false).

Fixpoint lookup (key : Z) (t : list (Z * Z)) : option Z :=
  match t with
  | [] => None
  | (k, v) :: t' => if k =? key then Some v else lookup key t'
  end.

(** The loop of [Write] over the input, with the code of the string
    matched so far. *)
Fixpoint writeLoop (p : list byte) (code : Z) (e : encoder) : Z * encoder :=
  match p with
  | [] => (code, e)
  | x :: p' =>
    let literal := Z_of_byte x in
    let key := Z.lor (Z.shiftl code 8) literal in
    match lookup key (table e) with
    | Some c => writeLoop p' c e
    | None =>
      let e := writeLSB e code in
      let '(e, outOfCodes) := incHi e in
      let e :=
        if outOfCodes then e
        else mkEncoder (bits e) (nBits e) (width e) (hi e) (overflow e)
                       ((key, hi e) :: table e) (out e) in
      writeLoop p' literal e
    end
  end.

(** One [Write] of all of [p], then [Close], into an empty buffer.  The
    releases of the library of the time the record code was written start
    with the first literal; later releases send a clear code first
    ([clearFirst]). *)
Definition Write_Close (clearFirst : bool) (p : list byte) : list byte :=
  let '(saved, e) :=
    match p with
    | [] => (None, newEncoder)
    | x :: p' =>
      let e := if clearFirst then writeLSB newEncoder 256 else newEncoder in
      let '(code, e) := writeLoop p' (Z_of_byte x) e in
      (Some code, e)
    end in
  let e :=
    match saved with
    | Some code => fst (incHi (writeLSB e code))
    | None => if clearFirst then writeLSB e 256 else e
    end in
  let e := writeLSB e 257 in
  if 0 <? nBits e then out e ++ [byte_of_Z (bits e)] else out e.

(** Writing into a [bytes.Buffer] reports no error. *)
Definition lzw_Write (clearFirst : bool) (value : list byte)
  : list byte * bool :=
  (Write_Close clearFirst value, false).

End Lzw.

(* ================================================================= *)
(** ** A concrete instance, for running the model *)

Module Demo.

(** A stand-in selector whose wire form is two bytes. *)
Definition Selector : Type := (byte * byte)%type.

Definition Selector_zero : Selector := (x00, x00).

Definition Selector_MarshalTo (s : Selector) : list byte := [fst s; snd s].

Definition Selector_UnmarshalFrom (s0 : Selector) : Read Selector :=
  fun rd =>
    match rd with
    | a :: b :: rd' => (((a, b), None), rd')
    | [a] => (((a, snd s0), Some ErrUnexpectedEOF), [])
    | [] => ((s0, Some EOF), [])
    end.

Definition WharrgarblOutputSize : nat := 20.

Definition decode : M (LFRecord Selector * list byte) unit :=
  UnmarshalFrom Selector_zero Selector_UnmarshalFrom WharrgarblOutputSize.

(** A record with a certificate, one link, two selectors and Wharrgarbl
    work. *)
Definition sample : LFRecord Selector :=
  mkRecord (mkBody [x01; x02; x03] [x0a; x0b] (repeat x07 32) (repeat x09 32)
                   1000000)
           [(x11, x12); (x21, x22)]
           (repeat x05 20) x01 [xaa; xbb] [] None None.

(** A record of work algorithm 2, otherwise empty. *)
Definition unknown_algorithm : LFRecord Selector :=
  mkRecord recordBody_zero [] [] x02 [] [] None None.

(** Stand-ins for the hashes: 32 copies of a one-byte checksum of the
    input, started from a tag. *)
Definition digest (tag : byte) (l : list byte) : list byte :=
  repeat (fold_left (fun acc b => byte_of_Z (3 * Z_of_byte acc + Z_of_byte b + 1))
                    l tag) 32.

Definition Shandwich256 : list byte -> list byte := digest x05.
Definition sha3_256 : list byte -> list byte := digest x03.
Definition sha256 : list byte -> list byte := digest x02.

(** A stand-in for the block cipher: every byte of the block is combined
    with the first key byte and with its neighbour. *)
Definition aes (key block : list byte) : list byte :=
  map (fun p => byte_xor (hd x00 key) (byte_xor (fst p) (snd p)))
      (combine block (tl block ++ [x5a])).

(** A run-length codec as a stand-in for a lossless compressor: runs of up
    to 255 equal bytes become a count and the byte. *)
Fixpoint rle_encode (l : list byte) : list byte :=
  match l with
  | [] => []
  | x :: l' =>
    match rle_encode l' with
    | c :: y :: rest =>
      if Byte.eqb x y && (Z_of_byte c <? 255)
      then byte_of_Z (Z_of_byte c + 1) :: y :: rest
      else x01 :: x :: c :: y :: rest
    | _ => [x01; x]
    end
  end.

Fixpoint rle_decode (l : list byte) : list byte :=
  match l with
  | c :: y :: rest => repeat y (Z.to_nat (Z_of_byte c)) ++ rle_decode rest
  | _ => []
  end.

Definition rle_Write (value : list byte) : list byte * bool :=
  (rle_encode value, false).

Definition rle_Read (compressed : list byte) : list byte * option Error :=
  (rle_decode compressed, None).

(** A stand-in selector claim: the first byte of the name combined with the
    ordinal, and the first byte of the hash it is bound to. *)
Definition Selector_Claim (s : Selector) (name : list byte) (ordinal : Z)
           (h : list byte) : Selector :=
  (byte_xor (hd x00 name) (byte_of_Z ordinal), hd x00 h).

Definition Selector_Bytes : Selector -> list byte := Selector_MarshalTo.

Definition Selector_VerifyClaim (s : Selector) (h : list byte) : bool :=
  Byte.eqb (snd s) (hd x00 h).

Definition OwnerT : Type := list byte.
Definition NewOwnerFromBytes (b : list byte) : option OwnerT := Some b.
Definition Owner_Verify (o : OwnerT) (h sig : list byte) : bool := true.
Definition WharrgarblVerify (work h : list byte) : Z := 0.

Definition start :=
  NewRecordStart Shandwich256 sha3_256 sha256 aes rle_Write Selector_zero
                 Selector_Claim Selector_Bytes W64.

Definition getValue : recordBody -> list byte -> list byte :=
  GetValue sha256 aes rle_Read.

Definition validate : LFRecord Selector -> result unit :=
  Validate Shandwich256 sha3_256 Selector_Bytes Selector_VerifyClaim
           NewOwnerFromBytes Owner_Verify WharrgarblVerify W64.

(** The same with the LZW writer of the standard library. *)
Definition start_lzw (clearFirst : bool) :=
  NewRecordStart Shandwich256 sha3_256 sha256 aes (Lzw.lzw_Write clearFirst)
                 Selector_zero Selector_Claim Selector_Bytes W64.

(** What a call returned, or [d] if it did not return a result. *)
Definition returned {A : Type} (o : outcome (result A)) (d : A) : A :=
  match o with
  | Return (Ok a) => a
  | _ => d
  end.

(** The sixteen bytes of "abcdefghabcdefgh" and of "abcdefabcdefabcd". *)
Definition abcdefgh2 : list byte :=
  [x61; x62; x63; x64; x65; x66; x67; x68;
   x61; x62; x63; x64; x65; x66; x67; x68].

Definition abcdef3 : list byte :=
  [x61; x62; x63; x64; x65; x66; x61; x62;
   x63; x64; x65; x66; x61; x62; x63; x64].

(** Twenty bytes in four runs. *)
Definition runs : list byte :=
  repeat x61 6 ++ repeat x62 5 ++ repeat x63 5 ++ repeat x64 4.


End Demo.

(* ================================================================= *)
(** ** Hash, score and ID of a record *)

(** [bytes.Compare]: lexicographic comparison of byte strings, giving -1, 0
    or 1. *)
Fixpoint bytes_Compare (a b : list byte) : Z :=
  match a, b with
  | [], [] => 0
  | [], _ :: _ => -1
  | _ :: _, [] => 1
  | x :: a', y :: b' =>
    if Z_of_byte x <? Z_of_byte y then -1
    else if Z_of_byte y <? Z_of_byte x then 1
    else bytes_Compare a' b'
  end.

(** The [less] function that [ID] hands to [sort.Slice]. *)
Definition keyLess (a b : list byte) : bool := bytes_Compare a b <? 0.

Section Identity.

Variable Shandwich256 : list byte -> list byte.
Variable Selector : Type.
Variable Selector_MarshalTo : Selector -> list byte.
(** [func (s *Selector) Key() []byte], from a file that is not at hand. *)
Variable Selector_Key : Selector -> list byte.
(** [WharrgarblGetDifficulty], from a file that is not at hand. *)
Variable WharrgarblGetDifficulty : list byte -> Z.
(** [sort.Slice] on a slice of byte strings with a [less] function. *)
Variable sort_Slice :
  (list byte -> list byte -> bool) -> list (list byte) -> list (list byte).

Local Abbreviation Rec := (LFRecord Selector).

Definition set_hash (v : option (list byte)) (r : Rec) : Rec :=
  mkRecord (body r) (Selectors r) (Work r) (WorkAlgorithm r) (Signature r)
           (data r) v (id r).
Definition set_id (v : option (list byte)) (r : Rec) : Rec :=
  mkRecord (body r) (Selectors r) (Work r) (WorkAlgorithm r) (Signature r)
           (data r) (hash r) v.

(** [func (r *Record) Hash() *[32]byte]: the hash, and the record with its
    cache filled.  The record is marshalled into the hash, so cached data
    is what gets hashed when there is some. *)
Definition Hash (r : Rec) : list byte * Rec :=
  match hash r with
  | None =>
    let sum := Shandwich256 (MarshalTo Selector_MarshalTo r) in
    (sum, set_hash (Some sum) r)
  | Some h => (h, r)
  end.

(** [func (r *Record) Score() uint32] *)
Definition Score (r : Rec) : Z :=
  if Byte.eqb (WorkAlgorithm r) RecordWorkAlgorithmNone_b then 1
  else if Byte.eqb (WorkAlgorithm r) RecordWorkAlgorithmWharrgarbl_b
       then RecordWharrgarblScore (u32 (WharrgarblGetDifficulty (Work r)))
       else 0.

(** [func (r *Record) ID() *[32]byte]: the ID, and the record with its
    caches as the call leaves them.  Without selectors the ID is the hash
    and only the hash is cached. *)
Definition ID (r : Rec) : list byte * Rec :=
  match id r with
  | None =>
    if (length (Selectors r) =? 0)%nat then Hash r
    else
      let selectorKeys := map Selector_Key (Selectors r) in
      let selectorKeys := sort_Slice keyLess selectorKeys in
      let idv := Shandwich256 (concat selectorKeys) in
      (idv, set_id (Some idv) r)
  | Some i => (i, r)
  end.

End Identity.

Arguments set_hash {Selector}.
Arguments set_id {Selector}.
Arguments Hash Shandwich256 {Selector}.
Arguments Score {Selector}.
Arguments ID Shandwich256 {Selector}.

(* ================================================================= *)
(** ** The three phases of record creation *)

(** The errors of record creation that decoding and validation do not
    return. *)
Inductive BuildError : Type :=
| RecordError (e : Error)
| ErrorWharrgarblFailed
| ErrorRecordTooLarge.

Definition recordWharrgarblMemory : Z := 1024 * 1024 * 384.

Section Creation.

Variable Shandwich256 : list byte -> list byte.
Variable sha3_256 : list byte -> list byte.
Variable sha256 : list byte -> list byte.
Variable aes : list byte -> list byte -> list byte.
Variable lzw_Write : list byte -> list byte * bool.
Variable Selector : Type.
Variable Selector_zero : Selector.
Variable Selector_MarshalTo : Selector -> list byte.
Variable Selector_Claim : Selector -> list byte -> Z -> list byte -> Selector.
Variable Selector_Bytes : Selector -> list byte.
Variable OwnerT : Type.
(** [func (o *Owner) Bytes() []byte] and [func (o *Owner) Sign(hash []byte)
    ([]byte, error)], from a file that is not at hand. *)
Variable Owner_Bytes : OwnerT -> list byte.
Variable Owner_Sign : OwnerT -> list byte -> list byte * option Error.
(** [Wharrgarbl(hash, cost, memory)]: the work and the number of
    iterations, from a file that is not at hand. *)
Variable Wharrgarbl : list byte -> Z -> Z -> list byte * Z.
Variable w : UintWidth.

Local Abbreviation Rec := (LFRecord Selector).

(** [func NewRecordDoWork(workHash []byte, workBillableBytes uint,
    workAlgorithm byte) (work []byte, err error)] *)
Definition NewRecordDoWork (workHash : list byte) (workBillableBytes : Z)
           (workAlgorithm : byte) : list byte * option BuildError :=
  if negb (Byte.eqb workAlgorithm RecordWorkAlgorithmNone_b) then
    if Byte.eqb workAlgorithm RecordWorkAlgorithmWharrgarbl_b then
      let '(wk, iter) :=
        Wharrgarbl workHash (RecordWharrgarblCost w workBillableBytes)
                   recordWharrgarblMemory in
      if iter =? 0 then ([], Some ErrorWharrgarblFailed) else (wk, None)
    else ([], Some (RecordError ErrorInvalidParameter))
  else ([], None).

(** [func NewRecordAddWork(incompleteRecord *Record, workHash []byte,
    work []byte, workAlgorithm byte) (r *Record, signingHash [32]byte,
    err error)] *)
Definition NewRecordAddWork (incompleteRecord : Rec)
           (workHash work : list byte) (workAlgorithm : byte)
  : Rec * list byte * option BuildError :=
  let r := incompleteRecord in
  let r := set_Work work r in
  let r := set_WorkAlgorithm workAlgorithm r in
  let tmp := zeros (length workHash + length work + 1) in
  let tmp := copy_into tmp 0 workHash in
  let tmp := copy_into tmp (length workHash) work in
  let tmp := set_nth (length tmp - 1) workAlgorithm tmp in
  (r, sha3_256 tmp, None).

(** [func NewRecordComplete(incompleteRecord *Record, signingHash []byte,
    owner *Owner) (r *Record, err error)]: no record ([nil]) when it is too
    large. *)
Definition NewRecordComplete (incompleteRecord : Rec)
           (signingHash : list byte) (owner : OwnerT)
  : option Rec * option BuildError :=
  let r := incompleteRecord in
  let '(sig, err) := Owner_Sign owner signingHash in
  let r := set_Signature sig r in
  if RecordMaxSize <? uint w (SizeBytes Selector_MarshalTo r)
  then (None, Some ErrorRecordTooLarge)
  else (Some r, option_map RecordError err).

(** [func NewRecord(...) (r *Record, err error)].  When the work cannot be
    done the record of the first phase is returned with the error. *)
Definition NewRecord (value : list byte) (links : list (list byte))
           (maskingKey : list byte)
           (plainTextSelectorNames : list (list byte))
           (selectorOrdinals : list Z)
           (certificateRecordHash : list byte) (ts : Z)
           (workAlgorithm : byte) (owner : OwnerT)
  : outcome (option Rec * option BuildError) :=
  match NewRecordStart Shandwich256 sha3_256 sha256 aes lzw_Write
                       Selector_zero Selector_Claim Selector_Bytes w
                       value links maskingKey plainTextSelectorNames
                       selectorOrdinals (Owner_Bytes owner)
                       certificateRecordHash ts with
  | Panic => Panic
  | Return (Err e) => Return (None, Some (RecordError e))
  | Return (Ok (r, wh, wb)) =>
    let '(wk, err) := NewRecordDoWork wh wb workAlgorithm in
    match err with
    | Some e => Return (Some r, Some e)
    | None =>
      let '(r, sh, err) := NewRecordAddWork r wh wk workAlgorithm in
      match err with
      | Some e => Return (Some r, Some e)
      | None => Return (NewRecordComplete r sh owner)
      end
    end
  end.

(** *** Billable bytes, in the words of the code's comments *)

(** The size of the body plus the sizes of the selectors, as a [uint]. *)
Definition billableBytes (r : Rec) : Z :=
  uint w (sizeBytes (body r)
          + fold_right (fun sel acc => len (Selector_Bytes sel) + acc) 0
                       (Selectors r)).

(** The hash that the work is done on: SHA3-256 of the body signing hash
    followed by the bytes of the selectors. *)
Definition workHashOf (r : Rec) : list byte :=
  sha3_256 (signingHash Shandwich256 (body r)
            ++ concat (map Selector_Bytes (Selectors r))).

End Creation.

Arguments NewRecordAddWork sha3_256 {Selector}.
Arguments NewRecordComplete {Selector} Selector_MarshalTo {OwnerT}.
Arguments NewRecord Shandwich256 sha3_256 sha256 aes lzw_Write {Selector}
          Selector_zero Selector_MarshalTo Selector_Claim Selector_Bytes
          {OwnerT}.
Arguments billableBytes {Selector}.
Arguments workHashOf Shandwich256 sha3_256 {Selector}.

(* ================================================================= *)
(** ** Stand-ins for owners, work and sorting *)

Module DemoMore.

Definition bytes_eqb (a b : list byte) : bool := bytes_Compare a b =? 0.

Definition Owner_Bytes (o : Demo.OwnerT) : list byte := o.

(** A stand-in signature: the first four bytes of the hash, then the
    owner bytes. *)
Definition Owner_Sign (o : Demo.OwnerT) (h : list byte)
  : list byte * option Error := (firstn 4 h ++ o, None).

Definition Owner_Verify (o : Demo.OwnerT) (h sig : list byte) : bool :=
  bytes_eqb sig (firstn 4 h ++ o).

(** Stand-in work: as many bytes as the difficulty asked for, and no work
    for a difficulty that is not a [uint32]. *)
Definition Wharrgarbl (h : list byte) (difficulty memory : Z)
  : list byte * Z :=
  if (0 <=? difficulty) && (difficulty <? 2 ^ 32)
  then (repeat x01 (Z.to_nat difficulty), 1)
  else ([], 0).

Definition WharrgarblVerify (work h : list byte) : Z := len work.

Definition newRecord :=
  NewRecord Demo.Shandwich256 Demo.sha3_256 Demo.sha256 Demo.aes
            Demo.rle_Write Demo.Selector_zero Demo.Selector_MarshalTo
            Demo.Selector_Claim Demo.Selector_Bytes
            Owner_Bytes Owner_Sign Wharrgarbl W64.

Definition validate : LFRecord Demo.Selector -> result unit :=
  Validate Demo.Shandwich256 Demo.sha3_256 Demo.Selector_Bytes
           Demo.Selector_VerifyClaim Demo.NewOwnerFromBytes Owner_Verify
           WharrgarblVerify W64.

(** Insertion sort as a stand-in for [sort.Slice]. *)
Fixpoint insert (less : list byte -> list byte -> bool) (x : list byte)
         (l : list (list byte)) : list (list byte) :=
  match l with
  | [] => [x]
  | y :: l' => if less y x then y :: insert less x l' else x :: y :: l'
  end.

Definition sort_Slice (less : list byte -> list byte -> bool)
           (l : list (list byte)) : list (list byte) :=
  fold_right (insert less) [] l.

(** A stand-in selector key: the two bytes the other way round. *)
Definition Selector_Key (s : Demo.Selector) : list byte := [snd s; fst s].

Definition ID : LFRecord Demo.Selector -> list byte * LFRecord Demo.Selector :=
  ID Demo.Shandwich256 Demo.Selector_MarshalTo Selector_Key sort_Slice.

End DemoMore.

(* ================================================================= *)
(** ** What [sort.Slice] leaves behind *)

(** [sort.Slice] has sorted [l] with the [less] function of [ID]: the
    result has the elements of [l], and none of them is less than one
    before it. *)
Definition sorted_by_key
           (sort_Slice : (list byte -> list byte -> bool) ->
                         list (list byte) -> list (list byte))
           (l : list (list byte)) : Prop :=
  Permutation (sort_Slice keyLess l) l
  /\ StronglySorted (fun a b => keyLess b a = false) (sort_Slice keyLess l).

(* ================================================================= *)
(** ** Records within the bounds of the decoder *)

Section Bounds.

Variable Selector : Type.
Variable WharrgarblOutputSize : nat.

(** Every field is within the bound that [UnmarshalFrom] checks for it;
    nothing is asked of the serialized length as a whole. *)
Definition within_decoder_bounds (r : LFRecord Selector) : Prop :=
  body_fits (body r)
  /\ (length (Links (body r)) mod 32 = 0)%nat
  /\ (Certificate (body r) = [] \/ length (Certificate (body r)) = 32%nat)
  /\ len (Selectors r) <= RecordMaxSize / 64
  /\ work_matches_algorithm WharrgarblOutputSize r
  /\ len (Signature r) <= RecordMaxSize.

(** The fields that are serialized are the same. *)
Definition same_fields (r r' : LFRecord Selector) : Prop :=
  body r' = body r
  /\ Selectors r' = Selectors r
  /\ Work r' = Work r
  /\ WorkAlgorithm r' = WorkAlgorithm r
  /\ Signature r' = Signature r.

End Bounds.

Arguments within_decoder_bounds {Selector}.
Arguments same_fields {Selector}.

(* ================================================================= *)
(** * Proofs *)

(* ----------------------------------------------------------------- *)
(** ** Integer square root *)

Lemma integerSqrtRounded_nearest (x : Z) :
  0 <= x ->
  let r := integerSqrtRounded x in
  0 <= r /\ x <= r * r + r /\ (r * r - r < x \/ x = 0).
Proof.
  intros Hx r. subst r. unfold integerSqrtRounded.
  pose proof (Z.sqrt_spec x Hx) as Hs. pose proof (Z.sqrt_nonneg x) as Hn.
  unfold Z.succ in Hs. cbv zeta.
  destruct (Z.ltb_spec (Z.sqrt x) (x - Z.sqrt x * Z.sqrt x)).
  - repeat split; [ lia | nia | left; nia ].
  - repeat split; [ lia | lia | ].
    destruct (Z.eq_dec (Z.sqrt x) 0) as [E | E].
    + right. rewrite E in Hs. lia.
    + left. nia.
Qed.

Lemma integerSqrtRounded_mono (x y : Z) :
  0 <= x <= y -> integerSqrtRounded x <= integerSqrtRounded y.
Proof.
  intros Hxy. unfold integerSqrtRounded.
  assert (Hle : Z.sqrt x <= Z.sqrt y) by (apply Z.sqrt_le_mono; lia).
  pose proof (Z.sqrt_spec x ltac:(lia)) as Hsx.
  pose proof (Z.sqrt_spec y ltac:(lia)) as Hsy.
  cbv zeta.
  destruct (Z.ltb_spec (Z.sqrt x) (x - Z.sqrt x * Z.sqrt x));
    destruct (Z.ltb_spec (Z.sqrt y) (y - Z.sqrt y * Z.sqrt y)); try lia.
  (* x rounds up, y rounds down: the two floors differ *)
  destruct (Z.eq_dec (Z.sqrt x) (Z.sqrt y)) as [E | E]; [ | lia ].
  rewrite E in *. lia.
Qed.

Lemma integerSqrtRounded_range (b : Z) :
  12 <= b <= 196608 -> 3 <= integerSqrtRounded b <= 443.
Proof.
  intros Hb. split.
  - change 3 with (integerSqrtRounded 12). apply integerSqrtRounded_mono. lia.
  - change 443 with (integerSqrtRounded 196608).
    apply integerSqrtRounded_mono. lia.
Qed.

(* ----------------------------------------------------------------- *)
(** ** The cost curve *)

Lemma uint_small (w : UintWidth) (x : Z) : 0 <= x < 2 ^ 32 -> uint w x = x.
Proof.
  intros Hx. unfold uint. apply Z.mod_small.
  destruct w; cbn [uint_bits]; lia.
Qed.

(** On its non-trivial branch the code computes [(3r - 8) * b] without any
    wrap-around, where [b] is three times the clamped byte count. *)
Lemma RecordWharrgarblCost_large (w : UintWidth) (n : Z) :
  4 <= n ->
  let b := 3 * Z.min n RecordMaxSize in
  RecordWharrgarblCost w n = integerSqrtRounded b * b * 3 - b * 8.
Proof.
  intros Hn b. unfold RecordWharrgarblCost.
  destruct (Z.ltb_spec n 4); [ lia | ].
  assert (Hm : (if RecordMaxSize <? n then RecordMaxSize else n)
               = Z.min n RecordMaxSize).
  { destruct (Z.ltb_spec RecordMaxSize n); lia. }
  rewrite Hm. clear Hm. cbv zeta.
  assert (Hb : 12 <= b <= 196608) by (unfold b, RecordMaxSize; lia).
  replace (Z.min n RecordMaxSize * 3) with b by (unfold b; lia).
  pose proof (integerSqrtRounded_range b Hb) as Hr.
  rewrite (uint_small w b) by lia.
  unfold u64, u32.
  rewrite (Z.mod_small b (2 ^ 64)) by lia.
  rewrite (Z.mod_small b (2 ^ 32)) by lia.
  rewrite (Z.mod_small (integerSqrtRounded b) (2 ^ 64)) by lia.
  rewrite (Z.mod_small (integerSqrtRounded b * b) (2 ^ 64)) by nia.
  rewrite (Z.mod_small (integerSqrtRounded b * b * 3) (2 ^ 64)) by nia.
  rewrite (Z.mod_small (b * 8) (2 ^ 64)) by lia.
  rewrite (Z.mod_small (_ - _) (2 ^ 64)) by nia.
  destruct (Z.ltb_spec 0xffffffff (integerSqrtRounded b * b * 3 - b * 8));
    [ nia | ].
  apply Z.mod_small. nia.
Qed.

(** C3: for every billable byte count [n] that fits Go's [uint] (32 or 64
    bits), [RecordWharrgarblCost] is the cost curve of the specification:
    [n + 1] below 4 and otherwise, with [n] clamped to [RecordMaxSize] and
    [b = 3n], the value [isqrt_round(b) * b * 3 - b * 8] saturated to the
    largest uint32; none of the fixed-width integer operations of the code
    wraps around. *)
Theorem RecordWharrgarblCost_refines_spec (w : UintWidth) (n : Z) :
  0 <= n < 2 ^ uint_bits w ->
  RecordWharrgarblCost w n = cost_spec n
  /\ (n < 4 -> RecordWharrgarblCost w n = n + 1)
  /\ (4 <= n ->
      let b := 3 * Z.min n RecordMaxSize in
      RecordWharrgarblCost w n
      = Z.min (integerSqrtRounded b * b * 3 - b * 8) (2 ^ 32 - 1)).
Proof.
  intros Hn.
  assert (Hsmall : n < 4 -> RecordWharrgarblCost w n = n + 1).
  { intros H4. unfold RecordWharrgarblCost.
    destruct (Z.ltb_spec n 4); [ | lia ].
    unfold u32. rewrite (Z.mod_small n) by lia. apply Z.mod_small. lia. }
  assert (Hlarge : 4 <= n ->
      let b := 3 * Z.min n RecordMaxSize in
      RecordWharrgarblCost w n
      = Z.min (integerSqrtRounded b * b * 3 - b * 8) (2 ^ 32 - 1)).
  { intros H4 b. rewrite (RecordWharrgarblCost_large w n H4). fold b.
    assert (Hb : 12 <= b <= 196608) by (unfold b, RecordMaxSize; lia).
    pose proof (integerSqrtRounded_range b Hb). nia. }
  split; [ | split; assumption ].
  unfold cost_spec. destruct (Z.ltb_spec n 4).
  - apply Hsmall. assumption.
  - apply Hlarge. assumption.
Qed.

Lemma RecordWharrgarblCost_refines_spec_witness :
  0 <= 1000 < 2 ^ uint_bits W32
  /\ RecordWharrgarblCost W32 1000 = cost_spec 1000.
Proof.
  split; [ cbn; lia | ].
  refine (proj1 (RecordWharrgarblCost_refines_spec W32 1000 _)). cbn. lia.
Defined.

(** C4: the cost is monotone from 4 bytes on: for all byte counts
    [4 <= n1 < n2], [RecordWharrgarblCost(n1) <= RecordWharrgarblCost(n2)],
    on either width of [uint]. *)
Theorem RecordWharrgarblCost_monotone (w : UintWidth) (n1 n2 : Z) :
  4 <= n1 -> n1 < n2 ->
  RecordWharrgarblCost w n1 <= RecordWharrgarblCost w n2.
Proof.
  intros H1 H12.
  rewrite (RecordWharrgarblCost_large w n1) by lia.
  rewrite (RecordWharrgarblCost_large w n2) by lia.
  set (b1 := 3 * Z.min n1 RecordMaxSize).
  set (b2 := 3 * Z.min n2 RecordMaxSize).
  assert (Hb1 : 12 <= b1 <= 196608) by (unfold b1, RecordMaxSize; lia).
  assert (Hb2 : 12 <= b2 <= 196608) by (unfold b2, RecordMaxSize; lia).
  assert (Hb : b1 <= b2) by (unfold b1, b2; lia).
  pose proof (integerSqrtRounded_range b1 Hb1) as Hr1.
  pose proof (integerSqrtRounded_mono b1 b2 ltac:(lia)) as Hr.
  transitivity ((3 * integerSqrtRounded b2 - 8) * b1); nia.
Qed.

Lemma RecordWharrgarblCost_monotone_witness :
  4 <= 4 /\ 4 < 70000
  /\ RecordWharrgarblCost W64 4 <= RecordWharrgarblCost W64 70000.
Proof.
  split; [ lia | ]. split; [ lia | ].
  apply (RecordWharrgarblCost_monotone W64 4 70000); lia.
Defined.

(* ----------------------------------------------------------------- *)
(** ** The score *)

Lemma RecordWharrgarblCost_RecordMaxSize (w : UintWidth) :
  RecordWharrgarblCost w RecordMaxSize = 0x0f7b0000.
Proof. destruct w; vm_compute; reflexivity. Qed.

(** C5: for every uint32 cost [c], the score is the constant [0xFFFFA8DB]
    above [RecordWharrgarblCost(RecordMaxSize)], which is the literal
    [0x0f7b0000] of the code, it is 1 for [c < 1], and otherwise it is
    [c * 16 + (c / 10000) * 5369], which fits a uint32 for every cost that
    is not clamped. *)
Theorem RecordWharrgarblScore_spec (w : UintWidth) (c : Z) :
  0 <= c < 2 ^ 32 ->
  RecordWharrgarblCost w RecordMaxSize = 0x0f7b0000
  /\ RecordWharrgarblScore c
     = (if RecordWharrgarblCost w RecordMaxSize <? c then 0xffffa8db
        else if c <? 1 then 1
        else c * 16 + (c / 10000) * 5369)
  /\ (c <= RecordWharrgarblCost w RecordMaxSize ->
      c * 16 + (c / 10000) * 5369 < 2 ^ 32).
Proof.
  intros Hc. rewrite (RecordWharrgarblCost_RecordMaxSize w).
  assert (Hfit : c <= 0x0f7b0000 -> c * 16 + (c / 10000) * 5369 < 2 ^ 32).
  { intros Hle.
    assert (c / 10000 < 25972) by (apply Z.div_lt_upper_bound; lia).
    lia. }
  split; [ reflexivity | ]. split; [ | exact Hfit ].
  unfold RecordWharrgarblScore.
  destruct (Z.ltb_spec 0x0f7b0000 c); [ reflexivity | ].
  destruct (Z.ltb_spec c 1); [ reflexivity | ].
  assert (0 <= c / 10000) by (apply Z.div_pos; lia).
  specialize (Hfit ltac:(lia)).
  unfold u32.
  rewrite (Z.mod_small (c / 10000)) by lia.
  rewrite (Z.mod_small (c * 16)) by lia.
  rewrite (Z.mod_small (c / 10000 * 5369)) by lia.
  apply Z.mod_small. lia.
Qed.

Lemma RecordWharrgarblScore_spec_witness :
  0 <= 0x0f7b0000 < 2 ^ 32 /\ RecordWharrgarblScore 0x0f7b0000 = 0xffffa8db.
Proof.
  split; [ lia | ].
  destruct (RecordWharrgarblScore_spec W64 0x0f7b0000 ltac:(lia))
    as (_ & Hs & _).
  rewrite Hs. reflexivity.
Defined.

(* ----------------------------------------------------------------- *)
(** ** Bytes and bits *)

Lemma Z_of_byte_range (b : byte) : 0 <= Z_of_byte b < 256.
Proof.
  unfold Z_of_byte. pose proof (Byte.to_N_bounded b). lia.
Qed.

Lemma Z_of_byte_of_Z (z : Z) : Z_of_byte (byte_of_Z z) = z mod 256.
Proof.
  unfold Z_of_byte, byte_of_Z, u8. change (2 ^ 8) with 256.
  pose proof (Z.mod_pos_bound z 256 ltac:(lia)) as Hm.
  destruct (Byte.of_N (Z.to_N (z mod 256))) as [b | ] eqn:E.
  - apply Byte.to_of_N in E. rewrite E. lia.
  - apply Byte.of_N_None_iff in E. lia.
Qed.

Lemma byte_of_Z_of_byte (b : byte) : byte_of_Z (Z_of_byte b) = b.
Proof.
  unfold byte_of_Z, Z_of_byte, u8. change (2 ^ 8) with 256.
  pose proof (Byte.to_N_bounded b).
  rewrite Z.mod_small by lia. rewrite N2Z.id, Byte.of_to_N. reflexivity.
Qed.

Lemma byte_xor_involutive (a k : byte) : byte_xor (byte_xor a k) k = a.
Proof.
  unfold byte_xor. rewrite Z_of_byte_of_Z.
  pose proof (Z_of_byte_range a) as Ha. pose proof (Z_of_byte_range k) as Hk.
  assert (Hx : 0 <= Z.lxor (Z_of_byte a) (Z_of_byte k) < 256).
  { split; [ apply Z.lxor_nonneg; lia | ].
    destruct (Z.eq_dec (Z.lxor (Z_of_byte a) (Z_of_byte k)) 0) as [E | E];
      [ lia | ].
    apply (Z.log2_lt_pow2 _ 8); [ | ].
    - assert (0 <= Z.lxor (Z_of_byte a) (Z_of_byte k))
        by (apply Z.lxor_nonneg; lia). lia.
    - eapply Z.le_lt_trans; [ apply Z.log2_lxor; lia | ].
      apply Z.max_lub_lt.
      + destruct (Z.eq_dec (Z_of_byte a) 0) as [Ea | Ea];
          [ rewrite Ea; cbn; lia | apply Z.log2_lt_pow2; lia ].
      + destruct (Z.eq_dec (Z_of_byte k) 0) as [Ek | Ek];
          [ rewrite Ek; cbn; lia | apply Z.log2_lt_pow2; lia ]. }
  rewrite Z.mod_small by lia.
  rewrite Z.lxor_assoc, Z.lxor_nilpotent, Z.lxor_0_r.
  apply byte_of_Z_of_byte.
Qed.

(** A [lor] of two numbers with no common bit is their sum. *)
Lemma lor_shiftl_add (a b k : Z) :
  0 <= k -> 0 <= a < 2 ^ k -> Z.lor a (Z.shiftl b k) = a + b * 2 ^ k.
Proof.
  intros Hk Ha.
  assert (Hland : Z.land a (Z.shiftl b k) = 0).
  { apply Z.bits_inj'. intros n Hn.
    rewrite Z.land_spec, Z.bits_0.
    destruct (Z.lt_ge_cases n k) as [Hlt | Hge].
    - rewrite (Z.shiftl_spec_low b k n Hlt). apply andb_false_r.
    - rewrite <- (Z.mod_small a (2 ^ k)) by assumption.
      rewrite Z.mod_pow2_bits_high by lia. reflexivity. }
  rewrite <- Z.lxor_lor by assumption.
  rewrite <- Z.add_nocarry_lxor by assumption.
  rewrite Z.shiftl_mul_pow2 by assumption. reflexivity.
Qed.

Lemma lor_mul_pow2_add (a b k : Z) :
  0 <= k -> 0 <= a < 2 ^ k -> Z.lor a (b * 2 ^ k) = a + b * 2 ^ k.
Proof.
  intros Hk Ha. rewrite <- (lor_shiftl_add a b k Hk Ha).
  rewrite Z.shiftl_mul_pow2 by assumption. reflexivity.
Qed.

Lemma lor_shiftl_add_low (a b k : Z) :
  0 <= k -> 0 <= b < 2 ^ k -> Z.lor (Z.shiftl a k) b = a * 2 ^ k + b.
Proof.
  intros Hk Hb. rewrite Z.lor_comm, lor_shiftl_add by assumption. lia.
Qed.

(** The continuation byte of a varint: high bit set, low seven bits kept. *)
Lemma continuation_byte (c : byte) :
  let y := Z_of_byte c in
  128 <= Z.lor y 0x80 < 256 /\ Z.land (Z.lor y 0x80) 0x7f = y mod 128.
Proof. destruct c; vm_compute; intuition discriminate. Qed.

Lemma BigEndian_Uint32_range (b : list byte) :
  0 <= BigEndian_Uint32 b < 2 ^ 32.
Proof.
  unfold BigEndian_Uint32.
  assert (H : forall (l : list byte) (acc k : Z),
             0 <= k -> 0 <= acc < 2 ^ k ->
             0 <= fold_left (fun acc x => Z.lor (Z.shiftl acc 8) (Z_of_byte x))
                            l acc
             < 2 ^ (k + 8 * Z.of_nat (length l))).
  { induction l as [ | x l IH ]; intros acc k Hk Hacc.
    - cbn [fold_left length]. replace (k + 8 * Z.of_nat 0) with k by lia.
      assumption.
    - cbn [fold_left length].
      replace (k + 8 * Z.of_nat (S (length l)))
        with ((k + 8) + 8 * Z.of_nat (length l)) by lia.
      apply IH; [ lia | ].
      pose proof (Z_of_byte_range x).
      rewrite lor_shiftl_add_low by (change (2 ^ 8) with 256; lia).
      rewrite Z.pow_add_r by lia. change (2 ^ 8) with 256. nia. }
  specialize (H (firstn 4 b) 0 0 ltac:(lia) ltac:(cbn; lia)).
  pose proof (length_firstn 4 b) as Hl.
  assert (Hp : 2 ^ (0 + 8 * Z.of_nat (length (firstn 4 b))) <= 2 ^ 32).
  { apply Z.pow_le_mono_r; lia. }
  lia.
Qed.

(* ----------------------------------------------------------------- *)
(** ** Varints *)

Lemma ReadUvarint_loop_final (i : nat) (acc s x : Z) (rest : list byte) :
  (i <= 9)%nat -> s = 7 * Z.of_nat i ->
  0 <= acc < 2 ^ s -> 0 <= x < 128 -> acc + x * 2 ^ s < 2 ^ 64 ->
  ReadUvarint_loop i acc s (byte_of_Z x :: rest)
  = ((acc + x * 2 ^ s, None), rest).
Proof.
  intros Hi Hs Hacc Hx Hfit. cbn [ReadUvarint_loop].
  rewrite Z_of_byte_of_Z, Z.mod_small by lia.
  destruct (Z.ltb_spec x 0x80); [ | lia ].
  assert (Hov : ((9 <? i)%nat || ((i =? 9)%nat && (1 <? x))) = false).
  { destruct (Nat.ltb_spec 9 i); [ lia | ]. cbn [orb].
    destruct (Nat.eqb_spec i 9) as [E | E]; [ | reflexivity ]. cbn [andb].
    destruct (Z.ltb_spec 1 x); [ | reflexivity ].
    subst i s. change (7 * Z.of_nat 9) with 63 in *.
    change (2 ^ 64) with (2 * 2 ^ 63) in Hfit. nia. }
  rewrite Hov. unfold u64.
  assert (0 < 2 ^ s) by (apply Z.pow_pos_nonneg; lia).
  rewrite Z.shiftl_mul_pow2 by lia.
  rewrite Z.mod_small by nia.
  rewrite lor_mul_pow2_add by lia. reflexivity.
Qed.

Lemma ReadUvarint_loop_PutUvarint_loop (fuel : nat) :
  forall (x : Z) (i : nat) (acc s : Z) (rest : list byte),
    (i <= 9)%nat -> s = 7 * Z.of_nat i ->
    0 <= acc < 2 ^ s -> 0 <= x < 2 ^ (7 * Z.of_nat (S fuel)) ->
    acc + x * 2 ^ s < 2 ^ 64 ->
    ReadUvarint_loop i acc s (PutUvarint_loop fuel x ++ rest)
    = ((acc + x * 2 ^ s, None), rest).
Proof.
  induction fuel as [ | fuel IH ]; intros x i acc s rest Hi Hs Hacc Hx Hfit.
  - cbn [PutUvarint_loop app].
    change (2 ^ (7 * Z.of_nat 1)) with 128 in Hx.
    apply ReadUvarint_loop_final; assumption.
  - cbn [PutUvarint_loop].
    destruct (Z.leb_spec 0x80 x) as [Hbig | Hsmall].
    2:{ cbn [app]. apply ReadUvarint_loop_final; try assumption. lia. }
    cbn [app ReadUvarint_loop].
    assert (Hpos : 0 < 2 ^ s) by (apply Z.pow_pos_nonneg; lia).
    assert (Hi8 : (i <= 8)%nat).
    { destruct (Nat.le_gt_cases i 8) as [ | Hgt ]; [ assumption | exfalso ].
      assert (i = 9)%nat by lia. subst i s.
      change (7 * Z.of_nat 9) with 63 in *.
      change (2 ^ 64) with (2 * 2 ^ 63) in Hfit. nia. }
    pose proof (continuation_byte (byte_of_Z x)) as Hc. cbv zeta in Hc.
    rewrite Z_of_byte_of_Z in Hc. destruct Hc as [Hrange Hlow].
    unfold u8. change (2 ^ 8) with 256.
    rewrite Z_of_byte_of_Z. rewrite (Z.mod_small (Z.lor _ _)) by lia.
    destruct (Z.ltb_spec (Z.lor (x mod 256) 0x80) 0x80); [ lia | ].
    rewrite Hlow.
    assert (Hmm : (x mod 256) mod 128 = x mod 128).
    { apply Z.mod_mod_divide. exists 2. reflexivity. }
    rewrite Hmm.
    pose proof (Z.mod_pos_bound x 128 ltac:(lia)) as Hxm.
    pose proof (Z.div_mod x 128 ltac:(lia)) as Hdm.
    assert (Hdiv : 0 <= x / 128) by (apply Z.div_pos; lia).
    assert (Hpow : 2 ^ (s + 7) = 2 ^ s * 128).
    { rewrite Z.pow_add_r by lia. reflexivity. }
    unfold u64. rewrite Z.shiftl_mul_pow2 by lia.
    rewrite (Z.mod_small (x mod 128 * 2 ^ s)) by nia.
    rewrite lor_mul_pow2_add by lia.
    rewrite Z.shiftr_div_pow2 by lia. change (2 ^ 7) with 128.
    rewrite (IH (x / 128) (S i) (acc + x mod 128 * 2 ^ s) (s + 7) rest).
    + rewrite Hpow. f_equal. f_equal. nia.
    + lia.
    + lia.
    + rewrite Hpow. nia.
    + split; [ assumption | ].
      apply Z.div_lt_upper_bound; [ lia | ].
      replace (7 * Z.of_nat (S (S fuel))) with (7 + 7 * Z.of_nat (S fuel))
        in Hx by lia.
      rewrite Z.pow_add_r in Hx by lia. change (2 ^ 7) with 128 in Hx. lia.
    + rewrite Hpow. nia.
Qed.

Lemma ReadUvarint_writeUVarint (v : Z) (rest : list byte) :
  0 <= v < 2 ^ 64 ->
  ReadUvarint (writeUVarint v ++ rest) = ((v, None), rest).
Proof.
  intros Hv. unfold ReadUvarint, writeUVarint, u64.
  rewrite Z.mod_small by assumption.
  rewrite (ReadUvarint_loop_PutUvarint_loop 9 v 0 0 0 rest).
  - f_equal. f_equal. change (2 ^ 0) with 1. lia.
  - lia.
  - reflexivity.
  - change (2 ^ 0) with 1. lia.
  - change (7 * Z.of_nat 10) with 70.
    assert (2 ^ 64 < 2 ^ 70) by (apply Z.pow_lt_mono_r; lia). lia.
  - change (2 ^ 0) with 1. lia.
Qed.

Lemma PutUvarint_loop_length (fuel : nat) (x : Z) :
  (1 <= length (PutUvarint_loop fuel x) <= S fuel)%nat.
Proof.
  revert x. induction fuel as [ | fuel IH ]; intros x; cbn [PutUvarint_loop].
  - cbn. lia.
  - destruct (0x80 <=? x); cbn [length]; [ specialize (IH (Z.shiftr x 7)) | ];
      lia.
Qed.

(* ----------------------------------------------------------------- *)
(** ** Reads *)

Lemma ReadFull_app (bs rest : list byte) :
  ReadFull (length bs) (bs ++ rest) = ((bs, None), rest).
Proof.
  destruct bs as [ | b bs ]; [ reflexivity | ].
  unfold ReadFull. cbn [length]. change ((b :: bs) ++ rest) with (b :: bs ++ rest).
  cbv iota beta.
  destruct (Nat.ltb_spec (length (b :: bs ++ rest)) (S (length bs))) as [H | H].
  - cbn [length] in H. rewrite length_app in H. lia.
  - change (S (length bs)) with (length (b :: bs)).
    change (b :: bs ++ rest) with ((b :: bs) ++ rest).
    rewrite firstn_app, skipn_app, firstn_all, skipn_all, Nat.sub_diag.
    cbn [firstn skipn]. rewrite app_nil_r. reflexivity.
Qed.

(* ----------------------------------------------------------------- *)
(** ** Stepping through the decoder *)

Lemma bind_io {X A B : Type} (f : Read A)
      (k : A * option Error -> M (X * list byte) B)
      (x : X) (rd rd' : list byte) (v : A * option Error) :
  f rd = (v, rd') -> bind (io f) k (x, rd) = k v (x, rd').
Proof. intros H. unfold bind, io. cbn [fst snd]. rewrite H. reflexivity. Qed.

Lemma bind_ReadByte {X B : Type}
      (k : byte * option Error -> M (X * list byte) B)
      (x : X) (b : byte) (rd : list byte) :
  bind (io ReadByte) k (x, b :: rd) = k (b, None) (x, rd).
Proof. reflexivity. Qed.

Lemma bind_ok {S A B : Type} (m : M S A) (k : A -> M S B)
      (st st' : S) (a : A) :
  m st = (Ok a, st') -> bind m k st = k a st'.
Proof. intros H. unfold bind. rewrite H. reflexivity. Qed.

Lemma bind_ret {S A B : Type} (a : A) (k : A -> M S B) (st : S) :
  bind (ret a) k st = k a st.
Proof. reflexivity. Qed.

Lemma bind_check_None {S B : Type} (k : unit -> M S B) (st : S) :
  bind (check None) k st = k tt st.
Proof. reflexivity. Qed.

Lemma bind_throw {S A B : Type} (e : Error) (k : A -> M S B) (st : S) :
  bind (throw e) k st = (Err e, st).
Proof. reflexivity. Qed.

Lemma bind_upd {X B : Type} (f : X -> X) (k : unit -> M (X * list byte) B)
      (x : X) (rd : list byte) :
  bind (upd f) k (x, rd) = k tt (f x, rd).
Proof. reflexivity. Qed.

Lemma bind_receiver {X B : Type} (k : X -> M (X * list byte) B)
      (x : X) (rd : list byte) :
  bind receiver k (x, rd) = k x (x, rd).
Proof. reflexivity. Qed.

Lemma bind_assoc {S A B C : Type} (m : M S A) (k : A -> M S B)
      (h : B -> M S C) (st : S) :
  bind (bind m k) h st = bind m (fun a => bind (k a) h) st.
Proof.
  unfold bind. destruct (m st) as [[a | e] st']; reflexivity.
Qed.

(* ----------------------------------------------------------------- *)
(** ** The body codec *)

(** The two length-prefixed fields of the body are read by the same block
    of code. *)
Lemma read_length_prefixed {B : Type}
      (set : list byte -> recordBody -> recordBody)
      (k : M (recordBody * list byte) B)
      (rb : recordBody) (bs rest : list byte) :
  len bs <= RecordMaxSize ->
  ('(l, err) <- io ReadUvarint ;;
   check err ;;;
   (if 0 <? l then
      (if RecordMaxSize <? l then throw ErrorRecordInvalid else ret tt) ;;;
      '(buf, err) <- io (ReadFull (Z.to_nat l)) ;;
      upd (set buf) ;;;
      check err
    else upd (set [])) ;;;
   k)%go (rb, writeUVarint (len bs) ++ bs ++ rest)
  = k (set bs rb, rest).
Proof.
  intros Hlen. unfold len in *.
  assert (Hpow : RecordMaxSize < 2 ^ 64) by (unfold RecordMaxSize; lia).
  rewrite (bind_io ReadUvarint _ rb _ _ _
             (ReadUvarint_writeUVarint (Z.of_nat (length bs)) (bs ++ rest)
                                       ltac:(lia))).
  cbv beta iota. rewrite bind_check_None.
  destruct bs as [ | b bs ].
  - cbn [length Z.of_nat Z.ltb Z.compare app]. reflexivity.
  - destruct (Z.ltb_spec 0 (Z.of_nat (length (b :: bs))));
      [ | cbn [length] in *; lia ].
    destruct (Z.ltb_spec RecordMaxSize (Z.of_nat (length (b :: bs))));
      [ lia | ].
    rewrite bind_assoc, bind_ret, Nat2Z.id.
    rewrite bind_assoc.
    rewrite (bind_io (ReadFull (length (b :: bs))) _ rb _ _ _
               (ReadFull_app (b :: bs) rest)).
    cbv beta iota. rewrite bind_assoc, bind_upd, bind_check_None.
    reflexivity.
Qed.

Lemma ReadUvarint_zero (rest : list byte) :
  ReadUvarint (x00 :: rest) = ((0, None), rest).
Proof. reflexivity. Qed.

Lemma unmarshalFrom_marshalTo (rb0 rb : recordBody) (rest : list byte) :
  body_fits rb ->
  (length (Links rb) mod 32 = 0)%nat ->
  Certificate rb = [] \/ length (Certificate rb) = 32%nat ->
  unmarshalFrom (rb0, marshalTo rb ++ rest) = (Ok tt, (rb, rest)).
Proof.
  destruct rb as [mv ow ce li ts]. unfold body_fits.
  cbn [MaskedValue Owner Certificate Links Timestamp].
  intros (Hmv & How & Hli & Hts) Hmod Hce.
  unfold marshalTo, unmarshalFrom.
  cbn [MaskedValue Owner Certificate Links Timestamp].
  repeat rewrite <- app_assoc. cbn [app].
  rewrite bind_ReadByte. cbv beta iota.
  rewrite (read_length_prefixed set_MaskedValue) by assumption.
  rewrite (read_length_prefixed set_Owner) by assumption.
  (* certificate *)
  assert (Hcert :
    forall (B : Type) (k : M (recordBody * list byte) B)
           (x : recordBody) (tl : list byte),
      bind (if negb (Z.land (Z_of_byte (byte_of_Z
                       (if (length ce =? 32)%nat
                        then Z.lor 0 recordBodyFlagHasCertificate else 0)))
                     recordBodyFlagHasCertificate =? 0)
            then ('(cert, err) <- io (ReadFull 32) ;;
                  check err ;;; upd (set_Certificate cert))%go
            else upd (set_Certificate []))
           (fun _ => k) (x, (if (length ce =? 32)%nat then ce else []) ++ tl)
      = k (set_Certificate ce x, tl)).
  { intros B k x tl. destruct (Nat.eqb_spec (length ce) 32) as [E | E].
    - change (negb (Z.land (Z_of_byte (byte_of_Z
                (Z.lor 0 recordBodyFlagHasCertificate)))
                recordBodyFlagHasCertificate =? 0)) with true.
      cbv iota. rewrite bind_assoc. rewrite <- E.
      rewrite (bind_io (ReadFull (length ce)) _ x _ _ _ (ReadFull_app ce tl)).
      cbv beta iota. rewrite bind_assoc, bind_check_None. reflexivity.
    - destruct Hce as [-> | Hce]; [ | contradiction ].
      reflexivity. }
  rewrite Hcert. clear Hcert.
  (* links *)
  destruct (Nat.leb_spec 32 (length li)) as [H32 | H32].
  - pose proof (Nat.div_mod_eq (length li) 32) as Hdm. rewrite Hmod in Hdm.
    assert (Hcount : (length li / 32 * 32 = length li)%nat) by lia.
    rewrite Hcount, firstn_all. repeat rewrite <- app_assoc.
    unfold len, RecordMaxSize in *.
    assert (Hc64 : 0 <= Z.of_nat (length li / 32) < 2 ^ 64) by lia.
    rewrite (bind_io ReadUvarint _ _ _ _ _
               (ReadUvarint_writeUVarint _ _ Hc64)).
    cbv beta iota. rewrite bind_check_None.
    destruct (Z.ltb_spec 0 (Z.of_nat (length li / 32))); [ | lia ].
    cbv zeta. unfold u64.
    replace (Z.of_nat (length li / 32) * 32) with (Z.of_nat (length li))
      by lia.
    rewrite Z.mod_small by lia.
    destruct (Z.ltb_spec 65536 (Z.of_nat (length li))); [ lia | ].
    rewrite bind_assoc, bind_ret, Nat2Z.id, bind_assoc.
    rewrite (bind_io (ReadFull (length li)) _ _ _ _ _ (ReadFull_app li _)).
    cbv beta iota. rewrite bind_upd.
    rewrite (bind_io ReadUvarint _ _ _ _ _
               (ReadUvarint_writeUVarint _ _ Hts)).
    cbv beta iota. rewrite bind_upd. reflexivity.
  - assert (Hnil : li = []).
    { destruct li; [ reflexivity | ].
      rewrite Nat.mod_small in Hmod by lia. discriminate. }
    subst li. cbn [app].
    rewrite (bind_io ReadUvarint _ _ _ _ _ (ReadUvarint_zero _)).
    cbv beta iota. rewrite bind_check_None.
    change (0 <? 0) with false. cbv iota. rewrite bind_upd.
    rewrite (bind_io ReadUvarint _ _ _ _ _
               (ReadUvarint_writeUVarint _ _ Hts)).
    cbv beta iota. rewrite bind_upd. reflexivity.
Qed.

Section RecordProofs.

Variable Selector : Type.
Variable Selector_zero : Selector.
Variable Selector_MarshalTo : Selector -> list byte.
Variable Selector_UnmarshalFrom : Selector -> Read Selector.
Variable WharrgarblOutputSize : nat.

Local Abbreviation Rec := (LFRecord Selector).
Local Abbreviation decode :=
  (UnmarshalFrom Selector_zero Selector_UnmarshalFrom WharrgarblOutputSize).
Local Abbreviation encode := (MarshalTo Selector_MarshalTo).

Lemma bind_onBody {A B : Type} (m : M (recordBody * list byte) A)
      (k : A -> M (Rec * list byte) B)
      (r : Rec) (rd rd' : list byte) (a : A) (rb : recordBody) :
  m (body r, rd) = (Ok a, (rb, rd')) ->
  bind (onBody m) k (r, rd) = k a (set_body rb r, rd').
Proof.
  intros H. unfold bind, onBody. cbn [fst snd]. rewrite H. reflexivity.
Qed.

(** C9: on a stream that starts with [0xFF] and a big-endian 32-bit length
    [L >= 5], with at least [L - 5] bytes after these five, [UnmarshalFrom]
    returns [ErrorRecordMarkedIgnore], leaves the record as it was and has
    consumed exactly the first [L] bytes of the stream. *)
Theorem UnmarshalFrom_tombstone
        (r0 : Rec) (input lenb tail : list byte) (L : Z) :
  input = xff :: lenb ++ tail ->
  length lenb = 4%nat ->
  BigEndian_Uint32 lenb = L ->
  5 <= L ->
  L - 5 <= len tail ->
  decode (r0, input)
  = (Err ErrorRecordMarkedIgnore, (r0, skipn (Z.to_nat L) input))
  /\ len input - len (skipn (Z.to_nat L) input) = L.
Proof.
  intros Hin Hlen HL H5 Htail.
  pose proof (BigEndian_Uint32_range lenb) as HR. rewrite HL in HR.
  assert (Hskip : skipn (Z.to_nat L) input = skipn (Z.to_nat (L - 5)) tail).
  { subst input.
    replace (Z.to_nat L) with (S (length lenb + Z.to_nat (L - 5)))%nat by lia.
    cbn [skipn]. rewrite skipn_app, skipn_all2 by lia.
    replace (length lenb + Z.to_nat (L - 5) - length lenb)%nat
      with (Z.to_nat (L - 5)) by lia.
    reflexivity. }
  split.
  - rewrite Hskip. subst input. unfold UnmarshalFrom.
    rewrite bind_ReadByte. cbv beta iota.
    rewrite bind_check_None.
    change (Byte.eqb xff xff) with true. cbv iota.
    rewrite <- Hlen.
    rewrite (bind_io (ReadFull (length lenb)) _ r0 _ _ _ (ReadFull_app lenb tail)).
    cbv beta iota. rewrite bind_check_None. rewrite HL.
    destruct (Z.leb_spec 5 L); [ | lia ].
    unfold u32. rewrite (Z.mod_small (L - 5)) by lia.
    reflexivity.
  - rewrite Hskip. unfold len in *. rewrite length_skipn. subst input.
    cbn [length]. rewrite length_app. lia.
Qed.

(** C10: once the header byte and the body are read, a selector count
    above [RecordMaxSize / 64 = 1024] makes [UnmarshalFrom] return
    [ErrorRecordInvalid] at once: the stream stands right after the count,
    and the selectors of the receiver are untouched, whatever the selector
    decoder is. *)
Theorem UnmarshalFrom_selector_count_bound
        (r0 : Rec) (rd0 rd1 rd2 : list byte) (rb : recordBody) (selCount : Z) :
  unmarshalFrom (body r0, rd0) = (Ok tt, (rb, rd1)) ->
  ReadUvarint rd1 = ((selCount, None), rd2) ->
  1024 < selCount ->
  RecordMaxSize / 64 = 1024
  /\ decode (r0, x00 :: rd0) = (Err ErrorRecordInvalid, (set_body rb r0, rd2))
  /\ Selectors (set_body rb r0) = Selectors r0.
Proof.
  intros Hbody Hcount Hbig.
  split; [ reflexivity | ]. split; [ | reflexivity ].
  unfold UnmarshalFrom.
  rewrite bind_ReadByte. cbv beta iota. rewrite bind_check_None.
  change (Byte.eqb x00 xff) with false.
  change (negb (Byte.eqb x00 x00)) with false. cbv iota.
  rewrite (bind_onBody _ _ _ _ _ _ _ Hbody).
  rewrite (bind_io ReadUvarint _ _ _ _ _ Hcount).
  cbv beta iota. rewrite bind_check_None.
  change (RecordMaxSize / 64) with 1024.
  destruct (Z.ltb_spec 1024 selCount); [ | lia ].
  reflexivity.
Qed.

(* ----------------------------------------------------------------- *)
(** ** The record codec *)

Local Abbreviation codec_ok :=
  (selectors_round_trip Selector_zero Selector_MarshalTo
                        Selector_UnmarshalFrom).

Lemma set_nth_middle (A : Type) (done tl : list A) (a v : A) :
  set_nth (length done) v (done ++ a :: tl) = done ++ v :: tl.
Proof.
  induction done as [ | d done IH ]; cbn [length app set_nth].
  - reflexivity.
  - rewrite IH. reflexivity.
Qed.

Lemma unmarshalSelectors_marshal (todo : list Selector) :
  codec_ok todo ->
  forall (done : list Selector) (r : Rec) (rest : list byte),
    Selectors r = done ++ repeat Selector_zero (length todo) ->
    unmarshalSelectors Selector_zero Selector_UnmarshalFrom
                       (length todo) (length done)
                       (r, concat (map Selector_MarshalTo todo) ++ rest)
    = (Ok tt, (set_Selectors (done ++ todo) r, rest)).
Proof.
  induction todo as [ | s todo IH ]; intros Hcodec done r rest Hsel.
  - cbn [length repeat map concat app unmarshalSelectors] in *.
    rewrite app_nil_r in *. unfold ret. destruct r. cbn in *. subst.
    reflexivity.
  - cbn [length repeat map concat unmarshalSelectors] in *.
    inversion Hcodec as [ | ? ? Hs Htodo ]; subst.
    specialize (IH Htodo).
    rewrite <- app_assoc. rewrite bind_receiver. rewrite Hsel.
    rewrite app_nth2, Nat.sub_diag by lia. cbn [nth].
    rewrite (bind_io _ _ _ _ _ _ (Hs _)).
    cbv beta iota. rewrite bind_upd, bind_check_None.
    rewrite Hsel, set_nth_middle.
    replace (S (length done)) with (length (done ++ [s]))
      by (rewrite length_app; cbn; lia).
    rewrite IH.
    + destruct r. unfold set_Selectors. cbn.
      rewrite <- app_assoc. reflexivity.
    + destruct r. cbn. rewrite <- app_assoc. reflexivity.
Qed.

Lemma marshalTo_length (rb : recordBody) :
  (length (Links rb) mod 32 = 0)%nat ->
  len (MaskedValue rb) <= len (marshalTo rb)
  /\ len (Owner rb) <= len (marshalTo rb)
  /\ len (Links rb) <= len (marshalTo rb).
Proof.
  intros Hmod. unfold marshalTo, len. repeat rewrite length_app.
  assert (Hli : (length (Links rb)
                 <= length (if (32 <=? length (Links rb))%nat
                            then writeUVarint (Z.of_nat (length (Links rb) / 32))
                                 ++ firstn (length (Links rb) / 32 * 32) (Links rb)
                            else [x00]))%nat).
  { destruct (Nat.leb_spec 32 (length (Links rb))) as [H32 | H32].
    - pose proof (Nat.div_mod_eq (length (Links rb)) 32) as Hdm.
      rewrite Hmod in Hdm.
      replace (length (Links rb) / 32 * 32)%nat with (length (Links rb)) by lia.
      rewrite firstn_all, length_app. lia.
    - rewrite Nat.mod_small in Hmod by lia. rewrite Hmod. lia. }
  cbv zeta. lia.
Qed.

Lemma marshalFields_length (r : Rec) :
  len (marshalTo (body r)) <= len (marshalFields Selector_MarshalTo r)
  /\ len (Signature r) <= len (marshalFields Selector_MarshalTo r).
Proof.
  unfold marshalFields, len. repeat rewrite length_app. lia.
Qed.

(** Decoding the serialized fields of [r] into any receiver [r0].  The
    decoder assigns the work only for the Wharrgarbl algorithm, so for
    algorithm 0 the receiver keeps the work it had. *)
Lemma UnmarshalFrom_marshalFields (r0 r : Rec) (rest : list byte) :
  (length (Links (body r)) mod 32 = 0)%nat ->
  Certificate (body r) = [] \/ length (Certificate (body r)) = 32%nat ->
  len (marshalFields Selector_MarshalTo r) <= RecordMaxSize ->
  timestamp_typed r ->
  work_matches_algorithm WharrgarblOutputSize r ->
  len (Selectors r) <= RecordMaxSize / 64 ->
  codec_ok (Selectors r) ->
  decode (r0, marshalFields Selector_MarshalTo r ++ rest)
  = (Ok tt,
     (mkRecord (body r) (Selectors r)
               (if Byte.eqb (WorkAlgorithm r) RecordWorkAlgorithmWharrgarbl_b
                then Work r else Work r0)
               (WorkAlgorithm r) (Signature r) [] None None,
      rest)).
Proof.
  intros Hmod Hce Hsize Hts Hwork Hsel Hcodec.
  pose proof (marshalTo_length (body r) Hmod) as (Hl1 & Hl2 & Hl3).
  pose proof (marshalFields_length r) as (Hl4 & Hl5).
  assert (Hfits : body_fits (body r)).
  { unfold body_fits. unfold timestamp_typed in Hts. repeat split; lia. }
  assert (Hpow : RecordMaxSize < 2 ^ 64) by (unfold RecordMaxSize; lia).
  change (RecordMaxSize / 64) with 1024 in *.
  unfold UnmarshalFrom, marshalFields.
  repeat rewrite <- app_assoc. cbn [app].
  rewrite bind_ReadByte. cbv beta iota. rewrite bind_check_None.
  change (Byte.eqb x00 xff) with false.
  change (negb (Byte.eqb x00 x00)) with false. cbv iota.
  rewrite (bind_onBody _ _ _ _ _ _ _
             (unmarshalFrom_marshalTo (body r0) (body r) _ Hfits Hmod Hce)).
  assert (Hn64 : 0 <= len (Selectors r) < 2 ^ 64) by (unfold len in *; lia).
  rewrite (bind_io ReadUvarint _ _ _ _ _
             (ReadUvarint_writeUVarint _ _ Hn64)).
  cbv beta iota. rewrite bind_check_None.
  change (RecordMaxSize / 64) with 1024.
  destruct (Z.ltb_spec 1024 (len (Selectors r))); [ lia | ].
  rewrite bind_ret, bind_upd, bind_receiver. cbv beta.
  change (Selectors (set_Selectors ?l ?x)) with l.
  rewrite repeat_length.
  replace (Z.to_nat (len (Selectors r))) with (length (Selectors r))
    by (unfold len; lia).
  pose proof (unmarshalSelectors_marshal (Selectors r) Hcodec []
                (set_Selectors (repeat Selector_zero (length (Selectors r)))
                               (set_body (body r) r0))) as Hloop.
  cbn [length app] in Hloop.
  rewrite (bind_ok _ _ _ _ _ (Hloop _ eq_refl)). clear Hloop.
  rewrite bind_ReadByte. cbv beta iota. rewrite bind_check_None.
  assert (Hs64 : 0 <= len (Signature r) < 2 ^ 64) by (unfold len in *; lia).
  destruct Hwork as [[Halg Hw] | [Halg Hw]]; rewrite Halg.
  - change (Byte.eqb RecordWorkAlgorithmNone_b RecordWorkAlgorithmWharrgarbl_b)
      with false.
    change (negb (Byte.eqb RecordWorkAlgorithmNone_b RecordWorkAlgorithmNone_b))
      with false.
    cbv iota. rewrite bind_ret, bind_upd. rewrite Hw. cbn [app].
    rewrite (bind_io ReadUvarint _ _ _ _ _
               (ReadUvarint_writeUVarint _ _ Hs64)).
    cbv beta iota. rewrite bind_check_None.
    destruct (Z.ltb_spec RecordMaxSize (len (Signature r))); [ lia | ].
    rewrite bind_ret. unfold len at 1. rewrite Nat2Z.id.
    rewrite (bind_io (ReadFull (length (Signature r))) _ _ _ _ _
               (ReadFull_app (Signature r) rest)).
    cbv beta iota. rewrite bind_upd, bind_check_None.
    reflexivity.
  - change (Byte.eqb RecordWorkAlgorithmWharrgarbl_b
                     RecordWorkAlgorithmWharrgarbl_b) with true.
    cbv iota. rewrite bind_assoc. rewrite <- Hw.
    rewrite (bind_io (ReadFull (length (Work r))) _ _ _ _ _
               (ReadFull_app (Work r) _)).
    cbv beta iota. rewrite bind_assoc, bind_check_None, bind_upd, bind_upd.
    rewrite (bind_io ReadUvarint _ _ _ _ _
               (ReadUvarint_writeUVarint _ _ Hs64)).
    cbv beta iota. rewrite bind_check_None.
    destruct (Z.ltb_spec RecordMaxSize (len (Signature r))); [ lia | ].
    rewrite bind_ret. unfold len at 1. rewrite Nat2Z.id.
    rewrite (bind_io (ReadFull (length (Signature r))) _ _ _ _ _
               (ReadFull_app (Signature r) rest)).
    cbv beta iota. rewrite bind_upd, bind_check_None.
    reflexivity.
Qed.

(** C1, as amended: a record round-trips when, besides being well formed
    in the sense of the claim (links a multiple of 32 bytes, certificate
    absent or of 32 bytes, at most [RecordMaxSize] serialized bytes), its
    work is as long as its work algorithm says (none for algorithm 0,
    [WharrgarblOutputSize] bytes for Wharrgarbl), it has at most
    [RecordMaxSize / 64] selectors, each of its own selectors round-trips
    through the selector codec (nothing is asked of other selectors), and
    its cached data, if any, is its serialization.  Decoding its bytes
    into a new record then succeeds, gives back the body, selectors, work,
    work algorithm and signature, and the decoded record encodes to the
    same bytes. *)
Theorem Record_round_trip (r : Rec) :
  well_formed Selector_MarshalTo r ->
  timestamp_typed r ->
  work_matches_algorithm WharrgarblOutputSize r ->
  len (Selectors r) <= RecordMaxSize / 64 ->
  selectors_round_trip Selector_zero Selector_MarshalTo
                       Selector_UnmarshalFrom (Selectors r) ->
  cache_coherent Selector_MarshalTo r ->
  round_trips Selector_zero Selector_MarshalTo Selector_UnmarshalFrom
              WharrgarblOutputSize r.
Proof.
  intros (Hmod & Hce & Hsize) Hts Hwork Hsel Hcodec Hcache.
  assert (Henc : encode r = marshalFields Selector_MarshalTo r).
  { unfold MarshalTo. destruct Hcache as [E | E]; rewrite E.
    - reflexivity.
    - destruct (0 <? length (marshalFields Selector_MarshalTo r))%nat;
        reflexivity. }
  rewrite Henc in Hsize.
  pose proof (UnmarshalFrom_marshalFields Record_zero r [] Hmod Hce
                Hsize Hts Hwork Hsel Hcodec) as Hdec.
  unfold round_trips. rewrite Henc.
  rewrite app_nil_r in Hdec.
  eexists. split; [ exact Hdec | ].
  cbn [body Selectors Work WorkAlgorithm Signature].
  assert (Hw : (if Byte.eqb (WorkAlgorithm r) RecordWorkAlgorithmWharrgarbl_b
                then Work r else Work (@Record_zero Selector)) = Work r).
  { destruct Hwork as [[Halg Hw] | [Halg Hw]]; rewrite Halg.
    - rewrite Hw. reflexivity.
    - reflexivity. }
  repeat split; try reflexivity; try exact Hw.
  unfold MarshalTo, marshalFields.
  cbn [data body Selectors Work WorkAlgorithm Signature length Nat.ltb Nat.leb].
  rewrite Hw. reflexivity.
Qed.

End RecordProofs.

(* ----------------------------------------------------------------- *)
(** ** Concrete runs of the record codec *)

Lemma Demo_Selector_codec (s : Demo.Selector) (rest : list byte) :
  Demo.Selector_UnmarshalFrom Demo.Selector_zero
                              (Demo.Selector_MarshalTo s ++ rest)
  = ((s, None), rest).
Proof. destruct s. reflexivity. Qed.

Lemma UnmarshalFrom_tombstone_witness :
  Demo.decode (Record_zero, [xff; x00; x00; x00; x07; x01; x02; x09])
  = (Err ErrorRecordMarkedIgnore, (Record_zero, [x09]))
  /\ len [xff; x00; x00; x00; x07; x01; x02; x09] - len [x09] = 7.
Proof.
  apply (UnmarshalFrom_tombstone Demo.Selector Demo.Selector_zero
           Demo.Selector_UnmarshalFrom Demo.WharrgarblOutputSize
           Record_zero [xff; x00; x00; x00; x07; x01; x02; x09]
           [x00; x00; x00; x07] [x01; x02; x09] 7);
    try reflexivity; cbn; lia.
Defined.

Lemma UnmarshalFrom_selector_count_bound_witness :
  Demo.decode (Record_zero, [x00; x00; x00; x00; x00; x00; xd0; x0f; x33])
  = (Err ErrorRecordInvalid, (set_body recordBody_zero Record_zero, [x33])).
Proof.
  apply (UnmarshalFrom_selector_count_bound Demo.Selector Demo.Selector_zero
           Demo.Selector_UnmarshalFrom Demo.WharrgarblOutputSize
           Record_zero [x00; x00; x00; x00; x00; xd0; x0f; x33]
           [xd0; x0f; x33] [x33] recordBody_zero 2000);
    try reflexivity; lia.
Defined.

Lemma Record_round_trip_witness :
  round_trips Demo.Selector_zero Demo.Selector_MarshalTo
              Demo.Selector_UnmarshalFrom Demo.WharrgarblOutputSize
              Demo.sample.
Proof.
  apply (Record_round_trip Demo.Selector Demo.Selector_zero
           Demo.Selector_MarshalTo Demo.Selector_UnmarshalFrom
           Demo.WharrgarblOutputSize Demo.sample).
  - split; [ reflexivity | ].
    split; [ right; reflexivity | apply Z.leb_le; reflexivity ].
  - unfold timestamp_typed. cbn. lia.
  - right. split; reflexivity.
  - apply Z.leb_le. reflexivity.
  - repeat constructor.
  - left. reflexivity.
Defined.

(** The round trip fails for a record that is well formed in the words of
    the claim but whose work algorithm byte is neither 0 nor 1: decoding
    its bytes ends in [ErrorRecordUnsupportedAlgorithm]. *)
Lemma Record_round_trip_counterexample :
  well_formed Demo.Selector_MarshalTo Demo.unknown_algorithm
  /\ timestamp_typed Demo.unknown_algorithm
  /\ MarshalTo Demo.Selector_MarshalTo Demo.unknown_algorithm
     = [x00; x00; x00; x00; x00; x00; x00; x02; x00]
  /\ fst (Demo.decode (Record_zero,
                       MarshalTo Demo.Selector_MarshalTo Demo.unknown_algorithm))
     = Err ErrorRecordUnsupportedAlgorithm
  /\ ~ round_trips Demo.Selector_zero Demo.Selector_MarshalTo
                   Demo.Selector_UnmarshalFrom Demo.WharrgarblOutputSize
                   Demo.unknown_algorithm.
Proof.
  split.
  { split; [ reflexivity | ].
    split; [ left; reflexivity | apply Z.leb_le; reflexivity ]. }
  split; [ unfold timestamp_typed; cbn; lia | ].
  split; [ reflexivity | ].
  split; [ reflexivity | ].
  intros (r' & Hdec & _). vm_compute in Hdec. discriminate Hdec.
Qed.

(** Decoding into a record that is not new: the bytes of an empty record
    of algorithm 0 leave the work of the receiver in place. *)
Lemma UnmarshalFrom_keeps_work :
  Demo.decode (Demo.sample,
               [x00; x00; x00; x00; x00; x00; x00; x00; x00])
  = (Ok tt, (mkRecord recordBody_zero [] (repeat x05 20) x00 [] [] None None,
             [])).
Proof. reflexivity. Qed.

(* ----------------------------------------------------------------- *)
(** ** The CFB stream *)

Lemma XORKeyStream_length (decrypt : bool) (b : list byte -> list byte)
      (src : list byte) :
  forall (next out : list byte) (outUsed : nat),
    length (XORKeyStream decrypt b next out outUsed src) = length src.
Proof.
  induction src as [ | s src IH ]; intros next out outUsed.
  - reflexivity.
  - cbn [XORKeyStream length]. rewrite IH. reflexivity.
Qed.

(** Decrypting undoes encrypting, from any common state of the stream. *)
Lemma XORKeyStream_decrypt_encrypt (b : list byte -> list byte)
      (src : list byte) :
  forall (next out : list byte) (outUsed : nat),
    XORKeyStream true b next out outUsed
                 (XORKeyStream false b next out outUsed src)
    = src.
Proof.
  induction src as [ | s src IH ]; intros next out outUsed.
  - reflexivity.
  - cbn [XORKeyStream]. rewrite byte_xor_involutive. f_equal. apply IH.
Qed.

Lemma CFBDecrypt_CFBEncrypt (b : list byte -> list byte) (iv src : list byte) :
  CFBDecrypt b iv (CFBEncrypt b iv src) = src.
Proof. apply XORKeyStream_decrypt_encrypt. Qed.

Lemma CFBEncrypt_length (b : list byte -> list byte) (iv src : list byte) :
  length (CFBEncrypt b iv src) = length src.
Proof. apply XORKeyStream_length. Qed.

(* ----------------------------------------------------------------- *)
(** ** The initialization vector *)

Lemma BigEndian_PutUint64_length (v : Z) :
  length (BigEndian_PutUint64 v) = 8%nat.
Proof. reflexivity. Qed.

Lemma copy_into_tail (a z src : list byte) :
  length src = length z -> copy_into (a ++ z) (length a) src = a ++ src.
Proof.
  intros Hl. unfold copy_into.
  rewrite firstn_app, firstn_all, Nat.sub_diag, length_app.
  replace (length a + length z - length a)%nat with (length src) by lia.
  rewrite firstn_all, skipn_all2 by (rewrite length_app; lia).
  cbn [firstn]. rewrite app_nil_r, app_nil_r. reflexivity.
Qed.

(** The sixteen bytes that both [NewRecordStart] and [GetValue] build. *)
Lemma cfbIv_maskingIV (ts : Z) (owner : list byte) :
  (if (8 <=? length owner)%nat
   then copy_into (copy_into (zeros 16) 0 (BigEndian_PutUint64 ts)) 8
                  (firstn 8 owner)
   else copy_into (zeros 16) 0 (BigEndian_PutUint64 ts))
  = maskingIV ts owner.
Proof.
  unfold maskingIV.
  assert (H0 : copy_into (zeros 16) 0 (BigEndian_PutUint64 ts)
               = BigEndian_PutUint64 ts ++ zeros 8) by reflexivity.
  rewrite H0.
  destruct (Nat.leb_spec 8 (length owner)) as [H8 | H8]; [ | reflexivity ].
  apply (copy_into_tail (BigEndian_PutUint64 ts) (zeros 8) (firstn 8 owner)).
  rewrite length_firstn. change (length (zeros 8)) with 8%nat. lia.
Qed.

Lemma maskingIV_length (ts : Z) (owner : list byte) :
  length (maskingIV ts owner) = 16%nat.
Proof.
  unfold maskingIV. rewrite length_app, BigEndian_PutUint64_length.
  destruct (Nat.leb_spec 8 (length owner)).
  - rewrite length_firstn. lia.
  - reflexivity.
Qed.

(* ----------------------------------------------------------------- *)
(** ** Assembly and validation *)

Section AssemblyProofs.

Variable Shandwich256 : list byte -> list byte.
Variable sha3_256 : list byte -> list byte.
Variable sha256 : list byte -> list byte.
Variable aes : list byte -> list byte -> list byte.
Variable lzw_Write : list byte -> list byte * bool.
Variable lzw_Read : list byte -> list byte * option Error.
Variable Selector : Type.
Variable Selector_zero : Selector.
Variable Selector_Claim : Selector -> list byte -> Z -> list byte -> Selector.
Variable Selector_Bytes : Selector -> list byte.
Variable Selector_VerifyClaim : Selector -> list byte -> bool.
Variable OwnerT : Type.
Variable NewOwnerFromBytes : list byte -> option OwnerT.
Variable Owner_Verify : OwnerT -> list byte -> list byte -> bool.
Variable WharrgarblVerify : list byte -> list byte -> Z.
Variable w : UintWidth.

Local Abbreviation Rec := (LFRecord Selector).
Local Abbreviation start :=
  (NewRecordStart Shandwich256 sha3_256 sha256 aes lzw_Write Selector_zero
                  Selector_Claim Selector_Bytes w).
Local Abbreviation getValue := (GetValue sha256 aes lzw_Read).
Local Abbreviation validate :=
  (Validate Shandwich256 sha3_256 Selector_Bytes Selector_VerifyClaim
            NewOwnerFromBytes Owner_Verify WharrgarblVerify w).
Local Abbreviation chain := (claimChain sha3_256).
Local Abbreviation hashOf := (chainedHash Shandwich256 sha3_256 Selector_Bytes).
Local Abbreviation plain := (storedPlaintext lzw_Write).
Local Abbreviation unmasked := (unmaskedValue sha256 aes).
Local Abbreviation loop := (claimLoop sha3_256 Selector_zero Selector_Claim
                                      Selector_Bytes w).
Local Abbreviation started_body := (started_body sha256 aes lzw_Write).

(** *** The selector loop of [NewRecordStart] *)

Lemma claimLoop_returns (names : list (list byte)) :
  forall (i : nat) (ords : list Z) (st : loop_state Selector),
    (length names + i <= length ords)%nat ->
    exists st', loop names i ords st = Return st'.
Proof.
  induction names as [ | name names IH ]; intros i ords st Hlen.
  - exists st. reflexivity.
  - cbn [claimLoop length] in *. destruct st as [[[r b] h] c].
    destruct (nth_error ords i) as [ord | ] eqn:E.
    + apply IH. lia.
    + apply nth_error_None in E. lia.
Qed.

Lemma claimLoop_spec (names : list (list byte)) :
  forall (i : nat) (ords : list Z) (r r' : Rec) (b b' : Z)
         (h h' c c' : list byte) (done : list Selector),
    loop names i ords (r, b, h, c) = Return (r', b', h', c') ->
    Selectors r = done ++ repeat Selector_zero (length names) ->
    length done = i ->
    exists new : list Selector,
      length new = length names
      /\ Selectors r' = done ++ new
      /\ body r' = body r
      /\ h' = h ++ concat (map Selector_Bytes new)
      /\ forall j : nat,
          (j < length names)%nat ->
          nth j new Selector_zero
          = Selector_Claim Selector_zero (nth j names []) (nth (i + j) ords 0)
                           (nth j (chain c (map Selector_Bytes new)) []).
Proof.
  induction names as [ | name names IH ];
    intros i ords r r' b b' h h' c c' done Hrun Hsel Hdone.
  - cbn [claimLoop] in Hrun. injection Hrun as <- <- <- <-.
    exists []. cbn [length repeat] in *.
    repeat split; try assumption; try (rewrite app_nil_r; reflexivity).
    intros j Hj. lia.
  - cbn [claimLoop length repeat] in *.
    subst i.
    destruct (nth_error ords (length done)) as [ord | ] eqn:E;
      [ | discriminate Hrun ].
    rewrite Hsel in Hrun.
    rewrite app_nth2, Nat.sub_diag in Hrun by lia. cbn [nth] in Hrun.
    rewrite set_nth_middle in Hrun.
    set (sel := Selector_Claim Selector_zero name ord c) in *.
    specialize (IH (S (length done)) ords _ r' _ b' _ h' _ c' (done ++ [sel])
                   Hrun).
    destruct IH as (new & Hlen & Hsel' & Hbody & Hh & Hnth).
    + destruct r. cbn. rewrite <- app_assoc. reflexivity.
    + rewrite length_app. cbn. lia.
    + exists (sel :: new). cbn [length map concat].
      repeat split.
      * lia.
      * rewrite Hsel', <- app_assoc. reflexivity.
      * rewrite Hbody. destruct r. reflexivity.
      * rewrite Hh, <- app_assoc. reflexivity.
      * intros [ | j ] Hj.
        -- cbn [nth claimChain]. rewrite Nat.add_0_r.
           rewrite (nth_error_nth _ _ _ E). reflexivity.
        -- cbn [nth claimChain]. rewrite (Hnth j) by lia.
           replace (S (length done) + j)%nat with (length done + S j)%nat
             by lia.
           reflexivity.
Qed.

(** *** What [NewRecordStart] returns *)

Lemma NewRecordStart_inv (value : list byte) (links : list (list byte))
      (maskingKey : list byte) (names : list (list byte)) (ords : list Z)
      (ownerPublic cert : list byte) (ts : Z)
      (r : Rec) (wh : list byte) (wb : Z) :
  start value links maskingKey names ords ownerPublic cert ts
  = Return (Ok (r, wh, wb)) ->
  len value <= RecordMaxSize
  /\ body r = started_body value links maskingKey ownerPublic cert ts
  /\ length (Selectors r) = length names
  /\ wh = sha3_256 (signingHash Shandwich256 (body r)
                    ++ concat (map Selector_Bytes (Selectors r)))
  /\ forall j : nat,
      (j < length names)%nat ->
      nth j (Selectors r) Selector_zero
      = Selector_Claim Selector_zero (nth j names []) (nth j ords 0)
                       (hashOf r j).
Proof.
  unfold NewRecordStart. intros Hrun.
  destruct (Z.ltb_spec RecordMaxSize (len value)) as [Hbig | Hfit];
    [ discriminate Hrun | ].
  split; [ assumption | ].
  cbv zeta in Hrun. rewrite cfbIv_maskingIV in Hrun.
  match type of Hrun with
  | context [set_body ?rb Record_zero] =>
    assert (Hrb : rb = started_body value links maskingKey ownerPublic cert ts)
  end.
  { unfold started_body, storedPlaintext.
    destruct (lzw_Write value) as [compressed lzwErr].
    destruct (Z.ltb_spec 0 (len value)) as [Hpos | Hzero];
      [ | destruct (length cert =? 32)%nat, (0 <? length links)%nat;
          reflexivity ].
    assert (Hplain :
      (if len (if 16 <=? len value
               then if lzwErr || (len value <? len (x01 :: compressed))
                    then [] else x01 :: compressed
               else []) =? 0
       then x00 :: value
       else if 16 <=? len value
            then if lzwErr || (len value <? len (x01 :: compressed))
                 then [] else x01 :: compressed
            else [])
      = (if (16 <=? len value) && negb lzwErr
            && (len compressed + 1 <=? len value)
         then x01 :: compressed else x00 :: value)).
    { assert (Hc : len (x01 :: compressed) = len compressed + 1)
        by (unfold len; cbn [length]; lia).
      rewrite Hc.
      destruct (Z.leb_spec 16 (len value)); [ | reflexivity ].
      destruct lzwErr; [ reflexivity | ]. cbn [orb negb andb].
      destruct (Z.ltb_spec (len value) (len compressed + 1));
        destruct (Z.leb_spec (len compressed + 1) (len value));
        try lia; reflexivity. }
    rewrite Hplain.
    destruct (length cert =? 32)%nat, (0 <? length links)%nat; reflexivity. }
  rewrite Hrb in Hrun. clear Hrb.
  set (rb := started_body value links maskingKey ownerPublic cert ts) in *.
  destruct names as [ | name names ].
  - cbn [length Nat.ltb Nat.leb] in Hrun. injection Hrun as <- <- <-.
    cbn [body Selectors set_body Record_zero map concat length].
    rewrite app_nil_r.
    repeat split. intros j Hj. lia.
  - change (0 <? length (name :: names))%nat with true in Hrun.
    cbv iota in Hrun.
    destruct (loop (name :: names) 0%nat ords _) as [[[[r1 b1] h1] c1] | ] eqn:E;
      [ | discriminate Hrun ].
    injection Hrun as <- <- <-.
    apply (claimLoop_spec _ _ _ _ _ _ _ _ _ _ _ []) in E;
      [ | reflexivity | reflexivity ].
    destruct E as (new & Hlen & Hsel & Hbody & Hh & Hnth).
    cbn [app] in Hsel. cbn [body set_Selectors set_body] in Hbody.
    rewrite Hbody, Hsel, Hh.
    repeat split; try assumption.
    intros j Hj. unfold chainedHash. rewrite Hsel, Hbody.
    apply (Hnth j Hj).
Qed.

Lemma NewRecordStart_returns (value : list byte) (links : list (list byte))
      (maskingKey : list byte) (names : list (list byte)) (ords : list Z)
      (ownerPublic cert : list byte) (ts : Z) :
  len value <= RecordMaxSize ->
  (length names <= length ords)%nat ->
  exists (r : Rec) (wh : list byte) (wb : Z),
    start value links maskingKey names ords ownerPublic cert ts
    = Return (Ok (r, wh, wb)).
Proof.
  intros Hfit Hlen. unfold NewRecordStart.
  destruct (Z.ltb_spec RecordMaxSize (len value)); [ lia | ].
  cbv zeta.
  destruct (0 <? length names)%nat.
  - match goal with
    | |- context [loop names 0%nat ords ?st] =>
      destruct (claimLoop_returns names 0 ords st ltac:(lia))
        as [[[[r1 b1] h1] c1] E]
    end.
    rewrite E. eauto.
  - eauto.
Qed.

(** *** What [GetValue] computes *)

Lemma GetValue_unwrap (rb : recordBody) (maskingKey : list byte) :
  getValue rb maskingKey
  = if (length (MaskedValue rb) =? 0)%nat then []
    else unwrapValue lzw_Read (unmasked rb maskingKey).
Proof.
  unfold GetValue, unwrapValue, unmaskedValue. cbv zeta.
  rewrite cfbIv_maskingIV. reflexivity.
Qed.

(** *** The selector claim chain *)




Lemma verifyLoop_None_iff (sels : list Selector) :
  forall (b : Z) (h c : list byte),
    verifyLoop sha3_256 Selector_Bytes Selector_VerifyClaim w sels b h c = None
    <-> exists j : nat,
        (j < length sels)%nat
        /\ Selector_VerifyClaim (nth j sels Selector_zero)
             (nth j (chain c (map Selector_Bytes sels)) []) = false.
Proof.
  induction sels as [ | sel sels IH ]; intros b h c; cbn [verifyLoop].
  - split; [ discriminate | ]. intros (j & Hj & _). cbn in Hj. lia.
  - destruct (Selector_VerifyClaim sel c) eqn:Hv; cbn [negb].
    + rewrite IH. split.
      * intros (j & Hj & Hf). exists (S j). cbn [length nth map claimChain].
        split; [ lia | exact Hf ].
      * intros ([ | j ] & Hj & Hf); cbn [length nth map claimChain] in *.
        -- congruence.
        -- exists j. split; [ lia | exact Hf ].
    + split; [ | reflexivity ]. intros _. exists 0%nat.
      cbn [length nth map claimChain]. split; [ lia | exact Hv ].
Qed.


(** *** The stored value *)

(** C6, as amended: a non-empty value is stored LZW-compressed behind the
    flag byte [0x01] exactly when it has at least 16 bytes, the compression
    reported no error, and the compressed bytes plus the flag byte are no
    longer than the value (equal length included); in every other case it
    is stored raw behind [0x00].  The stored bytes are given before and
    after masking.  For an empty value nothing is stored, not even a flag
    byte. *)
Theorem NewRecordStart_compression
        (value : list byte) (links : list (list byte)) (maskingKey : list byte)
        (names : list (list byte)) (ords : list Z)
        (ownerPublic cert : list byte) (ts : Z)
        (r : Rec) (wh : list byte) (wb : Z)
        (compressed : list byte) (lzwErr : bool) :
  start value links maskingKey names ords ownerPublic cert ts
  = Return (Ok (r, wh, wb)) ->
  lzw_Write value = (compressed, lzwErr) ->
  let mask := CFBEncrypt (aes (sha256 maskingKey)) (maskingIV ts ownerPublic) in
  let fits := 16 <= len value /\ lzwErr = false
              /\ len compressed + 1 <= len value in
  (0 < len value -> fits ->
   unmasked (body r) maskingKey = x01 :: compressed
   /\ MaskedValue (body r) = mask (x01 :: compressed))
  /\ (0 < len value -> ~ fits ->
      unmasked (body r) maskingKey = x00 :: value
      /\ MaskedValue (body r) = mask (x00 :: value))
  /\ (len value = 0 -> MaskedValue (body r) = []).
Proof.
  intros Hrun Hlzw mask fits.
  apply NewRecordStart_inv in Hrun. destruct Hrun as (_ & Hbody & _).
  assert (Hstored :
    0 < len value ->
    unmasked (body r) maskingKey = plain value
    /\ MaskedValue (body r) = mask (plain value)).
  { intros Hpos. rewrite Hbody. unfold unmaskedValue, started_body.
    cbn [MaskedValue Owner Timestamp].
    destruct (Z.ltb_spec 0 (len value)); [ | lia ].
    rewrite CFBDecrypt_CFBEncrypt. split; reflexivity. }
  unfold storedPlaintext in Hstored. rewrite Hlzw in Hstored.
  subst fits.
  split; [ | split ].
  - intros Hpos (H16 & He & Hle). specialize (Hstored Hpos). subst lzwErr.
    destruct (Z.leb_spec 16 (len value)); [ | lia ].
    destruct (Z.leb_spec (len compressed + 1) (len value)); [ | lia ].
    exact Hstored.
  - intros Hpos Hn. specialize (Hstored Hpos).
    destruct (Z.leb_spec 16 (len value));
      destruct lzwErr;
      destruct (Z.leb_spec (len compressed + 1) (len value));
      cbn [andb negb] in Hstored; try exact Hstored.
    exfalso. apply Hn. repeat split; assumption.
  - intros Hzero. rewrite Hbody. unfold started_body. cbn [MaskedValue].
    destruct (Z.ltb_spec 0 (len value)); [ lia | reflexivity ].
Qed.

(** C7, as amended: masking in [NewRecordStart] is AES-256-CFB encryption,
    and unmasking in [GetValue] AES-256-CFB decryption, with the key
    [SHA-256(maskingKey)] and a 16-byte IV made of the big-endian 64-bit
    timestamp followed by the first 8 owner bytes when the owner has at
    least 8 bytes, and by 8 zero bytes when it has fewer (the bytes of a
    shorter owner are not used). *)
Theorem masking_key_and_IV
        (value : list byte) (links : list (list byte)) (maskingKey : list byte)
        (names : list (list byte)) (ords : list Z)
        (ownerPublic cert : list byte) (ts : Z)
        (r : Rec) (wh : list byte) (wb : Z)
        (rb : recordBody) (key : list byte) :
  start value links maskingKey names ords ownerPublic cert ts
  = Return (Ok (r, wh, wb)) ->
  0 < len value ->
  MaskedValue rb <> [] ->
  MaskedValue (body r)
  = CFBEncrypt (aes (sha256 maskingKey)) (maskingIV ts ownerPublic)
               (plain value)
  /\ getValue rb key
     = unwrapValue lzw_Read
         (CFBDecrypt (aes (sha256 key))
                     (maskingIV (Timestamp rb) (Owner rb)) (MaskedValue rb))
  /\ (forall (t : Z) (owner : list byte),
         length (maskingIV t owner) = 16%nat
         /\ firstn 8 (maskingIV t owner) = BigEndian_PutUint64 t
         /\ skipn 8 (maskingIV t owner)
            = if (8 <=? length owner)%nat then firstn 8 owner else zeros 8).
Proof.
  intros Hrun Hpos Hmasked.
  apply NewRecordStart_inv in Hrun. destruct Hrun as (_ & Hbody & _).
  split; [ | split ].
  - rewrite Hbody. unfold started_body. cbn [MaskedValue].
    destruct (Z.ltb_spec 0 (len value)); [ reflexivity | lia ].
  - rewrite GetValue_unwrap. unfold unmaskedValue.
    destruct (MaskedValue rb); [ congruence | reflexivity ].
  - intros t owner. split; [ apply maskingIV_length | ].
    unfold maskingIV. split.
    + rewrite firstn_app, BigEndian_PutUint64_length.
      rewrite firstn_all2 by (rewrite BigEndian_PutUint64_length; lia).
      apply app_nil_r.
    + rewrite skipn_app, BigEndian_PutUint64_length.
      rewrite skipn_all2 by (rewrite BigEndian_PutUint64_length; lia).
      reflexivity.
Qed.

(** C8: for every value [v] of at most [RecordMaxSize] bytes that the LZW
    codec restores from its compressed form, every masking key, timestamp
    and owner, [NewRecordStart] returns a record (given an ordinal for every
    selector name), and [GetValue] with the same masking key on the body of
    the record it returns gives back [v], the empty value included. *)
Theorem value_masking_round_trip
        (v : list byte) (links : list (list byte)) (maskingKey : list byte)
        (names : list (list byte)) (ords : list Z)
        (ownerPublic cert : list byte) (ts : Z) :
  len v <= RecordMaxSize ->
  (forall compressed : list byte,
      lzw_Write v = (compressed, false) -> lzw_Read compressed = (v, None)) ->
  ((length names <= length ords)%nat ->
   exists (r : Rec) (wh : list byte) (wb : Z),
     start v links maskingKey names ords ownerPublic cert ts
     = Return (Ok (r, wh, wb)))
  /\ forall (r : Rec) (wh : list byte) (wb : Z),
      start v links maskingKey names ords ownerPublic cert ts
      = Return (Ok (r, wh, wb)) ->
      getValue (body r) maskingKey = v.
Proof.
  intros Hfit Hlzw. split.
  - intros Hlen. apply NewRecordStart_returns; assumption.
  - intros r wh wb Hrun.
    apply NewRecordStart_inv in Hrun. destruct Hrun as (_ & Hbody & _).
    rewrite GetValue_unwrap, Hbody. unfold unmaskedValue, started_body.
    cbn [MaskedValue Owner Timestamp].
    destruct (Z.ltb_spec 0 (len v)) as [Hpos | Hzero].
    + rewrite CFBEncrypt_length, CFBDecrypt_CFBEncrypt.
      assert (Hne : (length (plain v) =? 0)%nat = false).
      { unfold storedPlaintext. destruct (lzw_Write v) as [c e].
        destruct (_ && _); reflexivity. }
      rewrite Hne. unfold storedPlaintext, unwrapValue.
      destruct (lzw_Write v) as [compressed lzwErr] eqn:E.
      destruct ((16 <=? len v) && negb lzwErr
                && (len compressed + 1 <=? len v)) eqn:Hc.
      * apply andb_prop in Hc. destruct Hc as [Hc _].
        apply andb_prop in Hc. destruct Hc as [_ Hc].
        destruct lzwErr; [ discriminate Hc | ].
        cbn [hd tl]. change (negb (Z.land (Z_of_byte x01) 1 =? 0)) with true.
        cbv iota. rewrite (Hlzw compressed eq_refl).
        destruct (Z.leb_spec RecordMaxSize (len v)); [ | reflexivity ].
        apply firstn_all2. unfold len in *. lia.
      * reflexivity.
    + destruct v; [ reflexivity | unfold len in Hzero; cbn in Hzero; lia ].
Qed.

End AssemblyProofs.

(* ----------------------------------------------------------------- *)
(** ** Concrete runs of assembly and validation *)

(** The record that [NewRecordStart] returns for a value of twenty bytes,
    two selectors and an owner of three bytes. *)
Lemma Demo_start_runs :
  Demo.start Demo.runs [] [x6b] [[x66]; [x62]] [0; 7]
             [x01; x02; x03] [] 1000000
  = Return (Ok (Demo.returned
                  (Demo.start Demo.runs [] [x6b] [[x66]; [x62]] [0; 7]
                              [x01; x02; x03] [] 1000000)
                  (Record_zero, [], 0))).
Proof. vm_compute. reflexivity. Qed.



Lemma NewRecordStart_compression_witness :
  let r := fst (fst (Demo.returned
                       (Demo.start Demo.runs [] [x6b] [[x66]; [x62]] [0; 7]
                                   [x01; x02; x03] [] 1000000)
                       (Record_zero, [], 0))) in
  0 < len Demo.runs
  /\ Demo.rle_Write Demo.runs
     = ([x06; x61; x05; x62; x05; x63; x04; x64], false)
  /\ unmaskedValue Demo.sha256 Demo.aes (body r) [x6b]
     = [x01; x06; x61; x05; x62; x05; x63; x04; x64].
Proof.
  intros r. split; [ reflexivity | ]. split; [ reflexivity | ].
  destruct (Demo.returned
              (Demo.start Demo.runs [] [x6b] [[x66]; [x62]] [0; 7]
                          [x01; x02; x03] [] 1000000)
              (Record_zero, [], 0)) as [[r' wh] wb] eqn:E.
  pose proof Demo_start_runs as Hrun. rewrite E in Hrun.
  apply (NewRecordStart_compression Demo.Shandwich256 Demo.sha3_256
           Demo.sha256 Demo.aes Demo.rle_Write Demo.Selector
           Demo.Selector_zero Demo.Selector_Claim Demo.Selector_Bytes W64
           _ _ _ _ _ _ _ _ r' wh wb
           [x06; x61; x05; x62; x05; x63; x04; x64] false Hrun).
  - reflexivity.
  - reflexivity.
  - split; [ apply Z.leb_le; reflexivity | ].
    split; [ reflexivity | apply Z.leb_le; reflexivity ].
Defined.

(** The sixteen bytes "abcdefghabcdefgh" compress to fifteen bytes, so that
    flag and compressed bytes together are as long as the value, not
    shorter: the claim has the value stored raw, [NewRecordStart] stores it
    compressed.  With a writer that sends a clear code first the same
    happens for "abcdefabcdefabcd".  For the empty value the body holds no
    masked value at all, so there is no flag byte either. *)
Lemma NewRecordStart_compression_counterexample :
  let k : list byte := [x6b] in
  let r1 := fst (fst (Demo.returned
                        (Demo.start_lzw false Demo.abcdefgh2 [] k [] []
                                        [x01; x02; x03] [] 1000000)
                        (Record_zero, [], 0))) in
  let r2 := fst (fst (Demo.returned
                        (Demo.start_lzw true Demo.abcdef3 [] k [] []
                                        [x01; x02; x03] [] 1000000)
                        (Record_zero, [], 0))) in
  (len Demo.abcdefgh2 = 16
   /\ Lzw.lzw_Write false Demo.abcdefgh2
      = ([x61; xc4; x8c; x21; x53; xc6; xcc; x19; x34; x02; x09; x1a; x44;
          x18; x10], false)
   /\ (exists (wh : list byte) (wb : Z),
          Demo.start_lzw false Demo.abcdefgh2 [] k [] [] [x01; x02; x03] []
                         1000000
          = Return (Ok (r1, wh, wb)))
   /\ unmaskedValue Demo.sha256 Demo.aes (body r1) k
      = [x01; x61; xc4; x8c; x21; x53; xc6; xcc; x19; x34; x02; x09; x1a;
         x44; x18; x10]
   /\ storedPlaintext_strict (Lzw.lzw_Write false) Demo.abcdefgh2
      = x00 :: Demo.abcdefgh2)
  /\ (len Demo.abcdef3 = 16
      /\ Lzw.lzw_Write true Demo.abcdef3
         = ([x00; xc3; x88; x19; x43; xa6; x8c; x19; x81; x04; x0d; x22;
             x24; x13; x10], false)
      /\ (exists (wh : list byte) (wb : Z),
             Demo.start_lzw true Demo.abcdef3 [] k [] [] [x01; x02; x03] []
                            1000000
             = Return (Ok (r2, wh, wb)))
      /\ unmaskedValue Demo.sha256 Demo.aes (body r2) k
         = [x01; x00; xc3; x88; x19; x43; xa6; x8c; x19; x81; x04; x0d; x22;
            x24; x13; x10]
      /\ storedPlaintext_strict (Lzw.lzw_Write true) Demo.abcdef3
         = x00 :: Demo.abcdef3)
  /\ (exists (wh : list byte) (wb : Z),
         Demo.start_lzw false [] [] k [] [] [x01; x02; x03] [] 1000000
         = Return (Ok (set_body (mkBody [] [x01; x02; x03] [] [] 1000000)
                                Record_zero, wh, wb))).
Proof.
  intros k r1 r2.
  split; [ | split ];
    [ | | vm_compute; eauto ];
    (split; [ reflexivity | ]); (split; [ reflexivity | ]);
    (split; [ vm_compute; eauto | ]); split; reflexivity.
Qed.

Lemma masking_key_and_IV_witness :
  let r := fst (fst (Demo.returned
                       (Demo.start Demo.runs [] [x6b] [[x66]; [x62]] [0; 7]
                                   [x01; x02; x03] [] 1000000)
                       (Record_zero, [], 0))) in
  0 < len Demo.runs
  /\ MaskedValue (body r) <> []
  /\ MaskedValue (body r)
     = CFBEncrypt (Demo.aes (Demo.sha256 [x6b]))
                  (maskingIV 1000000 [x01; x02; x03])
                  (storedPlaintext Demo.rle_Write Demo.runs)
  /\ Demo.getValue (body r) [x6b]
     = unwrapValue Demo.rle_Read
         (CFBDecrypt (Demo.aes (Demo.sha256 [x6b]))
                     (maskingIV (Timestamp (body r)) (Owner (body r)))
                     (MaskedValue (body r))).
Proof.
  intros r. split; [ reflexivity | ].
  assert (Hne : MaskedValue (body r) <> []) by (vm_compute; discriminate).
  split; [ exact Hne | ].
  destruct (Demo.returned
              (Demo.start Demo.runs [] [x6b] [[x66]; [x62]] [0; 7]
                          [x01; x02; x03] [] 1000000)
              (Record_zero, [], 0)) as [[r' wh] wb] eqn:E.
  pose proof Demo_start_runs as Hrun. rewrite E in Hrun.
  destruct (masking_key_and_IV Demo.Shandwich256 Demo.sha3_256
              Demo.sha256 Demo.aes Demo.rle_Write Demo.rle_Read Demo.Selector
              Demo.Selector_zero Demo.Selector_Claim Demo.Selector_Bytes W64
              _ _ _ _ _ _ _ _ r' wh wb (body r) [x6b] Hrun
              ltac:(reflexivity) Hne)
    as (Hm & Hg & _).
  split; [ exact Hm | exact Hg ].
Defined.

(** For an owner of three bytes the code leaves the last eight bytes of the
    IV zero, where the claim has the three owner bytes followed by zeros;
    the masked value is not the encryption under the claimed IV. *)
Lemma masking_key_and_IV_counterexample :
  let r := fst (fst (Demo.returned
                       (Demo.start Demo.runs [] [x6b] [] []
                                   [x01; x02; x03] [] 1000000)
                       (Record_zero, [], 0))) in
  (exists (wh : list byte) (wb : Z),
      Demo.start Demo.runs [] [x6b] [] [] [x01; x02; x03] [] 1000000
      = Return (Ok (r, wh, wb)))
  /\ maskingIV_padded 1000000 [x01; x02; x03]
     = [x00; x00; x00; x00; x00; x0f; x42; x40;
        x01; x02; x03; x00; x00; x00; x00; x00]
  /\ MaskedValue (body r)
     = CFBEncrypt (Demo.aes (Demo.sha256 [x6b]))
                  [x00; x00; x00; x00; x00; x0f; x42; x40;
                   x00; x00; x00; x00; x00; x00; x00; x00]
                  (storedPlaintext Demo.rle_Write Demo.runs)
  /\ MaskedValue (body r)
     <> CFBEncrypt (Demo.aes (Demo.sha256 [x6b]))
                   (maskingIV_padded 1000000 [x01; x02; x03])
                   (storedPlaintext Demo.rle_Write Demo.runs).
Proof.
  intros r. split; [ vm_compute; eauto | ].
  split; [ reflexivity | ].
  split; [ vm_compute; reflexivity | ].
  vm_compute. discriminate.
Qed.

Lemma value_masking_round_trip_witness :
  len Demo.runs <= RecordMaxSize
  /\ (exists (r : LFRecord Demo.Selector) (wh : list byte) (wb : Z),
         Demo.start Demo.runs [] [x6b] [[x66]; [x62]] [0; 7]
                    [x01; x02; x03] [] 1000000
         = Return (Ok (r, wh, wb)))
  /\ Demo.getValue
       (body (fst (fst (Demo.returned
                          (Demo.start Demo.runs [] [x6b] [[x66]; [x62]] [0; 7]
                                      [x01; x02; x03] [] 1000000)
                          (Record_zero, [], 0)))))
       [x6b]
     = Demo.runs.
Proof.
  assert (Hfit : len Demo.runs <= RecordMaxSize)
    by (apply Z.leb_le; reflexivity).
  assert (Hlzw : forall compressed : list byte,
             Demo.rle_Write Demo.runs = (compressed, false) ->
             Demo.rle_Read compressed = (Demo.runs, None)).
  { intros compressed H. injection H as <-. reflexivity. }
  destruct (value_masking_round_trip Demo.Shandwich256 Demo.sha3_256
              Demo.sha256 Demo.aes Demo.rle_Write Demo.rle_Read Demo.Selector
              Demo.Selector_zero Demo.Selector_Claim Demo.Selector_Bytes W64
              Demo.runs [] [x6b] [[x66]; [x62]] [0; 7] [x01; x02; x03] []
              1000000 Hfit Hlzw) as [Hex Hget].
  split; [ exact Hfit | ].
  split; [ apply Hex; cbn; lia | ].
  destruct (Demo.returned
              (Demo.start Demo.runs [] [x6b] [[x66]; [x62]] [0; 7]
                          [x01; x02; x03] [] 1000000)
              (Record_zero, [], 0)) as [[r wh] wb] eqn:E.
  pose proof Demo_start_runs as Hrun. rewrite E in Hrun.
  exact (Hget r wh wb Hrun).
Defined.

(* ================================================================= *)
(** * Further properties of record.go *)

(* ----------------------------------------------------------------- *)
(** ** Cost and score *)

Lemma RecordWharrgarblCost_small (w : UintWidth) (n : Z) :
  0 <= n < 4 -> RecordWharrgarblCost w n = n + 1.
Proof.
  intros Hn. unfold RecordWharrgarblCost.
  destruct (Z.ltb_spec n 4); [ | lia ].
  unfold u32. rewrite (Z.mod_small n) by lia. apply Z.mod_small. lia.
Qed.

(** X1: for every byte count the cost lies between 1 and
    [0x0f7b0000 = RecordWharrgarblCost(RecordMaxSize)], so the branch that
    saturates to [0xffffffff] is never taken, and every count from
    [RecordMaxSize] on costs the same as [RecordMaxSize]. *)
Theorem RecordWharrgarblCost_bounds (w : UintWidth) (n : Z) :
  0 <= n ->
  1 <= RecordWharrgarblCost w n <= 0x0f7b0000
  /\ (RecordMaxSize <= n -> RecordWharrgarblCost w n = 0x0f7b0000).
Proof.
  intros Hn. destruct (Z.lt_ge_cases n 4) as [Hs | Hl].
  - rewrite RecordWharrgarblCost_small by lia.
    split; [ lia | unfold RecordMaxSize; lia ].
  - rewrite (RecordWharrgarblCost_large w n) by lia.
    set (b := 3 * Z.min n RecordMaxSize).
    assert (Hb : 12 <= b <= 196608) by (unfold b, RecordMaxSize; lia).
    pose proof (integerSqrtRounded_range b Hb) as Hr.
    split; [ split; nia | ].
    intros Hmax. unfold b. rewrite Z.min_r by assumption. reflexivity.
Qed.

Lemma RecordWharrgarblCost_bounds_witness :
  0 <= 100000
  /\ 1 <= RecordWharrgarblCost W32 100000 <= 0x0f7b0000.
Proof.
  split; [ lia | ].
  exact (proj1 (RecordWharrgarblCost_bounds W32 100000 ltac:(lia))).
Defined.

(** X2: the cost is monotone over all byte counts, the counts below 4
    included: [RecordWharrgarblCost(n1) <= RecordWharrgarblCost(n2)]
    whenever [0 <= n1 <= n2]. *)
Theorem RecordWharrgarblCost_monotone_all (w : UintWidth) (n1 n2 : Z) :
  0 <= n1 -> n1 <= n2 ->
  RecordWharrgarblCost w n1 <= RecordWharrgarblCost w n2.
Proof.
  intros H0 H12.
  destruct (Z.lt_ge_cases n2 4) as [Hs2 | Hl2].
  - rewrite !RecordWharrgarblCost_small by lia. lia.
  - rewrite (RecordWharrgarblCost_large w n2) by lia.
    set (b2 := 3 * Z.min n2 RecordMaxSize).
    assert (Hb2 : 12 <= b2 <= 196608) by (unfold b2, RecordMaxSize; lia).
    pose proof (integerSqrtRounded_range b2 Hb2) as Hr2.
    destruct (Z.lt_ge_cases n1 4) as [Hs1 | Hl1].
    + rewrite RecordWharrgarblCost_small by lia. nia.
    + rewrite (RecordWharrgarblCost_large w n1) by lia.
      set (b1 := 3 * Z.min n1 RecordMaxSize).
      assert (Hb1 : 12 <= b1 <= 196608) by (unfold b1, RecordMaxSize; lia).
      assert (Hb : b1 <= b2) by (unfold b1, b2; lia).
      pose proof (integerSqrtRounded_range b1 Hb1) as Hr1.
      pose proof (integerSqrtRounded_mono b1 b2 ltac:(lia)) as Hr.
      transitivity ((3 * integerSqrtRounded b2 - 8) * b1); nia.
Qed.

Lemma RecordWharrgarblCost_monotone_all_witness :
  0 <= 3 /\ 3 <= 4
  /\ RecordWharrgarblCost W64 3 <= RecordWharrgarblCost W64 4.
Proof.
  split; [ lia | ]. split; [ lia | ].
  apply (RecordWharrgarblCost_monotone_all W64 3 4); lia.
Defined.

Lemma RecordWharrgarblScore_mid (c : Z) :
  1 <= c <= 0x0f7b0000 ->
  RecordWharrgarblScore c = c * 16 + (c / 10000) * 5369
  /\ c * 16 + (c / 10000) * 5369 <= 0xffffa8db.
Proof.
  intros Hc.
  assert (Hd : 0 <= c / 10000 <= 25971).
  { split; [ apply Z.div_pos; lia | ].
    assert (c / 10000 < 25972) by (apply Z.div_lt_upper_bound; lia). lia. }
  split; [ | lia ].
  unfold RecordWharrgarblScore.
  destruct (Z.ltb_spec 0x0f7b0000 c); [ lia | ].
  destruct (Z.ltb_spec c 1); [ lia | ].
  unfold u32.
  rewrite (Z.mod_small (c / 10000)) by lia.
  rewrite (Z.mod_small (c * 16)) by lia.
  rewrite (Z.mod_small (c / 10000 * 5369)) by lia.
  apply Z.mod_small. lia.
Qed.

Lemma RecordWharrgarblScore_range (c : Z) :
  0 <= c -> 1 <= RecordWharrgarblScore c <= 0xffffa8db.
Proof.
  intros Hc. destruct (Z.lt_ge_cases 0x0f7b0000 c) as [Hhi | Hlo].
  - unfold RecordWharrgarblScore.
    destruct (Z.ltb_spec 0x0f7b0000 c); lia.
  - destruct (Z.eq_dec c 0) as [-> | Hnz]; [ vm_compute; split; discriminate | ].
    destruct (RecordWharrgarblScore_mid c ltac:(lia)) as [-> Hle].
    assert (0 <= c / 10000) by (apply Z.div_pos; lia). lia.
Qed.

(** X3: the score is monotone in the cost and lies between 1 and
    [0xFFFFA8DB] for every uint32 cost: a higher difficulty never scores
    lower, and the value returned above the threshold is the largest
    score. *)
Theorem RecordWharrgarblScore_monotone (c1 c2 : Z) :
  0 <= c1 -> c1 <= c2 ->
  RecordWharrgarblScore c1 <= RecordWharrgarblScore c2
  /\ 1 <= RecordWharrgarblScore c1 <= 0xffffa8db.
Proof.
  intros H0 H12.
  pose proof RecordWharrgarblScore_range as Hrange.
  split; [ | apply Hrange; assumption ].
  destruct (Z.lt_ge_cases 0x0f7b0000 c2) as [Hhi | Hlo].
  - replace (RecordWharrgarblScore c2) with 0xffffa8db.
    + apply Hrange. assumption.
    + unfold RecordWharrgarblScore.
      destruct (Z.ltb_spec 0x0f7b0000 c2); [ reflexivity | lia ].
  - destruct (Z.eq_dec c1 0) as [-> | Hnz].
    + change (RecordWharrgarblScore 0) with 1. apply Hrange. lia.
    + destruct (RecordWharrgarblScore_mid c1 ltac:(lia)) as [-> _].
      destruct (RecordWharrgarblScore_mid c2 ltac:(lia)) as [-> _].
      assert (c1 / 10000 <= c2 / 10000) by (apply Z.div_le_mono; lia).
      lia.
Qed.

Lemma RecordWharrgarblScore_monotone_witness :
  0 <= 9999 /\ 9999 <= 10000
  /\ RecordWharrgarblScore 9999 <= RecordWharrgarblScore 10000.
Proof.
  split; [ lia | ]. split; [ lia | ].
  exact (proj1 (RecordWharrgarblScore_monotone 9999 10000
                  ltac:(lia) ltac:(lia))).
Defined.

Lemma Byte_eqb_neq (a b : byte) : a <> b -> Byte.eqb a b = false.
Proof.
  intros Hne. destruct (Byte.eqb a b) eqn:E; [ | reflexivity ].
  apply Byte.byte_dec_bl in E. contradiction.
Qed.

Lemma Byte_eqb_eq (a b : byte) : Byte.eqb a b = true <-> a = b.
Proof.
  split; [ apply Byte.byte_dec_bl | apply Byte.byte_dec_lb ].
Qed.

(** X4: the score of a record is 0 exactly when its work algorithm is
    neither 0 nor 1; for the two known algorithms it lies between 1 and
    [0xFFFFA8DB], whatever the work and its difficulty are. *)
Theorem Score_zero_iff_unknown_algorithm
        (Selector : Type) (WharrgarblGetDifficulty : list byte -> Z)
        (r : LFRecord Selector) :
  (Score WharrgarblGetDifficulty r = 0
   <-> WorkAlgorithm r <> RecordWorkAlgorithmNone_b
       /\ WorkAlgorithm r <> RecordWorkAlgorithmWharrgarbl_b)
  /\ 0 <= Score WharrgarblGetDifficulty r <= 0xffffa8db.
Proof.
  unfold Score.
  destruct (Byte.eqb (WorkAlgorithm r) RecordWorkAlgorithmNone_b) eqn:E0.
  { apply Byte_eqb_eq in E0. split; [ | lia ].
    split; [ discriminate | intros [H _]; contradiction ]. }
  destruct (Byte.eqb (WorkAlgorithm r) RecordWorkAlgorithmWharrgarbl_b) eqn:E1.
  - apply Byte_eqb_eq in E1.
    pose proof (Z.mod_pos_bound (WharrgarblGetDifficulty (Work r)) (2 ^ 32)
                  ltac:(lia)) as Hd. fold (u32 (WharrgarblGetDifficulty (Work r))) in Hd.
    pose proof (RecordWharrgarblScore_range
                  (u32 (WharrgarblGetDifficulty (Work r))) ltac:(lia)) as Hs.
    split; [ | lia ].
    split; [ intros Hz; lia | intros [_ H]; contradiction ].
  - split; [ | lia ].
    split; [ intros _ | reflexivity ].
    split; intros H; rewrite H in *; discriminate.
Qed.

(* ----------------------------------------------------------------- *)
(** ** What the reads return *)

Lemma ReadFull_length (n : nat) (rd : list byte) :
  length (fst (fst (ReadFull n rd))) = n.
Proof.
  unfold ReadFull. destruct n as [ | n ]; [ reflexivity | ].
  destruct rd as [ | b rd ]; [ apply repeat_length | ].
  destruct (Nat.ltb_spec (length (b :: rd)) (S n)); cbn [fst].
  - rewrite length_app. unfold zeros. rewrite repeat_length. lia.
  - rewrite length_firstn. lia.
Qed.

Lemma lor_range (a b k : Z) :
  0 <= k -> 0 <= a < 2 ^ k -> 0 <= b < 2 ^ k -> 0 <= Z.lor a b < 2 ^ k.
Proof.
  intros Hk Ha Hb.
  assert (Hnn : 0 <= Z.lor a b) by (apply Z.lor_nonneg; lia).
  split; [ assumption | ].
  destruct (Z.eq_dec (Z.lor a b) 0) as [E | E].
  - rewrite E. apply Z.pow_pos_nonneg; lia.
  - assert (Hk0 : 0 < k).
    { destruct (Z.eq_dec k 0) as [-> | ]; [ | lia ].
      change (2 ^ 0) with 1 in *.
      replace a with 0 in E by lia. replace b with 0 in E by lia.
      contradiction. }
    apply Z.log2_lt_pow2; [ lia | ].
    rewrite Z.log2_lor by lia.
    apply Z.max_lub_lt.
    + destruct (Z.eq_dec a 0) as [-> | Ea]; [ cbn; lia | ].
      apply Z.log2_lt_pow2; lia.
    + destruct (Z.eq_dec b 0) as [-> | Eb]; [ cbn; lia | ].
      apply Z.log2_lt_pow2; lia.
Qed.

Lemma u64_range (x : Z) : 0 <= u64 x < 2 ^ 64.
Proof. unfold u64. apply Z.mod_pos_bound. lia. Qed.

Lemma ReadUvarint_loop_range (rd : list byte) :
  forall (i : nat) (x s : Z),
    0 <= x < 2 ^ 64 ->
    0 <= fst (fst (ReadUvarint_loop i x s rd)) < 2 ^ 64.
Proof.
  induction rd as [ | c rd IH ]; intros i x s Hx; cbn [ReadUvarint_loop].
  - exact Hx.
  - cbv zeta. destruct (Z_of_byte c <? 0x80).
    + destruct ((9 <? i)%nat || ((i =? 9)%nat && (1 <? Z_of_byte c)));
        cbn [fst]; [ exact Hx | ].
      apply lor_range; [ lia | exact Hx | apply u64_range ].
    + apply IH. apply lor_range; [ lia | exact Hx | apply u64_range ].
Qed.

(** A varint that is read is a uint64. *)
Lemma ReadUvarint_range (rd : list byte) :
  0 <= fst (fst (ReadUvarint rd)) < 2 ^ 64.
Proof. apply ReadUvarint_loop_range. lia. Qed.

(* ----------------------------------------------------------------- *)
(** ** Going back through the decoder *)

Lemma bind_io_eq {X A B : Type} (f : Read A)
      (k : A * option Error -> M (X * list byte) B)
      (x : X) (rd : list byte) :
  bind (io f) k (x, rd) = k (fst (f rd)) (x, snd (f rd)).
Proof.
  unfold bind, io. cbn [fst snd]. destruct (f rd) as [v rd']. reflexivity.
Qed.

Lemma bind_check_inv {S B : Type} (err : option Error) (k : unit -> M S B)
      (st st' : S) (b : B) :
  bind (check err) k st = (Ok b, st') -> err = None /\ k tt st = (Ok b, st').
Proof.
  destruct err as [e | ]; cbn; [ discriminate | auto ].
Qed.

Lemma bind_guard_inv {S B : Type} (c : bool) (e : Error) (k : unit -> M S B)
      (st st' : S) (b : B) :
  bind (if c then throw e else ret tt) k st = (Ok b, st') ->
  c = false /\ k tt st = (Ok b, st').
Proof.
  destruct c; cbn; [ discriminate | auto ].
Qed.

Lemma bind_Ok_inv {S A B : Type} (m : M S A) (k : A -> M S B)
      (st st' : S) (b : B) :
  bind m k st = (Ok b, st') ->
  exists (a : A) (st1 : S), m st = (Ok a, st1) /\ k a st1 = (Ok b, st').
Proof.
  unfold bind. destruct (m st) as [[a | e] st1]; [ eauto | discriminate ].
Qed.

(* ----------------------------------------------------------------- *)
(** ** What a decoded body looks like *)

Lemma read_length_prefixed_inv {B : Type}
      (set : list byte -> recordBody -> recordBody)
      (k : M (recordBody * list byte) B)
      (rb : recordBody) (rd : list byte) (b : B)
      (st' : recordBody * list byte) :
  ('(l, err) <- io ReadUvarint ;;
   check err ;;;
   (if 0 <? l then
      (if RecordMaxSize <? l then throw ErrorRecordInvalid else ret tt) ;;;
      '(buf, err) <- io (ReadFull (Z.to_nat l)) ;;
      upd (set buf) ;;;
      check err
    else upd (set [])) ;;;
   k)%go (rb, rd) = (Ok b, st') ->
  exists (buf rd1 : list byte),
    len buf <= RecordMaxSize /\ k (set buf rb, rd1) = (Ok b, st').
Proof.
  intros H. rewrite bind_io_eq in H.
  destruct (ReadUvarint rd) as [[l e] rd1]. cbn [fst snd] in H.
  cbv beta iota in H. apply bind_check_inv in H. destruct H as [-> H].
  destruct (Z.ltb_spec 0 l) as [Hpos | Hzero].
  - rewrite bind_assoc in H. apply bind_guard_inv in H. destruct H as [Hg H].
    apply Z.ltb_ge in Hg. cbv beta in H.
    rewrite bind_assoc, bind_io_eq in H.
    pose proof (ReadFull_length (Z.to_nat l) rd1) as Hlen.
    destruct (ReadFull (Z.to_nat l) rd1) as [[buf e2] rd2].
    cbn [fst snd] in H, Hlen. cbv beta iota in H.
    rewrite bind_assoc, bind_upd in H. cbv beta in H.
    apply bind_check_inv in H. destruct H as [_ H].
    exists buf, rd2. split; [ unfold len; lia | exact H ].
  - rewrite bind_upd in H. exists [], rd1.
    split; [ unfold len, RecordMaxSize; cbn; lia | exact H ].
Qed.

(** A body that [unmarshalFrom] decodes without error has a masked value,
    an owner and links of at most [RecordMaxSize] bytes each, links that
    are a whole number of 32-byte hashes, a certificate that is absent or
    has exactly 32 bytes, and a timestamp that is a uint64, whatever the
    input stream and the body decoded into. *)
Lemma unmarshalFrom_decoded_bounds
        (rb0 rb : recordBody) (rd rd' : list byte) :
  unmarshalFrom (rb0, rd) = (Ok tt, (rb, rd')) ->
  body_fits rb
  /\ (length (Links rb) mod 32 = 0)%nat
  /\ (Certificate rb = [] \/ length (Certificate rb) = 32%nat).
Proof.
  unfold unmarshalFrom. intros H.
  rewrite bind_io_eq in H.
  destruct (ReadByte rd) as [[flags e0] rd0]. cbn [fst snd] in H.
  cbv beta iota in H.
  apply read_length_prefixed_inv in H. destruct H as (mv & rd1 & Hmv & H).
  apply read_length_prefixed_inv in H. destruct H as (ow & rd2 & How & H).
  (* certificate *)
  assert (Hcert : exists (ce rd3 : list byte),
             (ce = [] \/ length ce = 32%nat)
             /\ ('(l, err) <- io ReadUvarint ;;
                 check err ;;;
                 (if 0 <? l then
                    let l := u64 (l * 32) in
                    (if RecordMaxSize <? l then throw ErrorRecordInvalid
                     else ret tt) ;;;
                    '(buf, _) <- io (ReadFull (Z.to_nat l)) ;;
                    upd (set_Links buf)
                  else upd (set_Links [])) ;;;
                 '(ts, err) <- io ReadUvarint ;;
                 upd (set_Timestamp ts) ;;;
                 check err)%go
                  (set_Certificate ce (set_Owner ow (set_MaskedValue mv rb0)),
                   rd3)
                = (Ok tt, (rb, rd'))).
  { destruct (negb (Z.land (Z_of_byte flags) recordBodyFlagHasCertificate =? 0)).
    - rewrite bind_assoc, bind_io_eq in H.
      pose proof (ReadFull_length 32 rd2) as Hlen.
      destruct (ReadFull 32 rd2) as [[ce e3] rd3]. cbn [fst snd] in H, Hlen.
      cbv beta iota in H. rewrite bind_assoc in H.
      apply bind_check_inv in H. destruct H as [_ H].
      cbv beta in H. rewrite bind_upd in H.
      exists ce, rd3. split; [ right; exact Hlen | exact H ].
    - rewrite bind_upd in H. exists [], rd2. split; [ left; reflexivity | exact H ]. }
  clear H. destruct Hcert as (ce & rd3 & Hce & H).
  (* links *)
  rewrite bind_io_eq in H.
  destruct (ReadUvarint rd3) as [[l e] rd4]. cbn [fst snd] in H.
  cbv beta iota in H. apply bind_check_inv in H. destruct H as [-> H].
  assert (Hlinks : exists (li rd5 : list byte),
             len li <= RecordMaxSize /\ (length li mod 32 = 0)%nat
             /\ ('(ts, err) <- io ReadUvarint ;;
                 upd (set_Timestamp ts) ;;;
                 check err)%go
                  (set_Links li
                     (set_Certificate ce (set_Owner ow (set_MaskedValue mv rb0))),
                   rd5)
                = (Ok tt, (rb, rd'))).
  { destruct (Z.ltb_spec 0 l) as [Hpos | Hzero].
    - cbv zeta in H. rewrite bind_assoc in H.
      apply bind_guard_inv in H. destruct H as [Hg H].
      apply Z.ltb_ge in Hg. cbv beta in H.
      rewrite bind_assoc, bind_io_eq in H.
      pose proof (ReadFull_length (Z.to_nat (u64 (l * 32))) rd4) as Hlen.
      destruct (ReadFull (Z.to_nat (u64 (l * 32))) rd4) as [[li e5] rd5].
      cbn [fst snd] in H, Hlen. cbv beta iota in H.
      rewrite bind_upd in H.
      exists li, rd5. pose proof (u64_range (l * 32)) as Hr.
      split; [ unfold len; lia | ]. split; [ | exact H ].
      rewrite Hlen.
      assert (Hm : u64 (l * 32) mod 32 = 0).
      { unfold u64. rewrite Z.mod_mod_divide by (exists (2 ^ 59); reflexivity).
        apply Z.mod_mul. lia. }
      apply Nat2Z.inj. rewrite Nat2Z.inj_mod, Z2Nat.id by lia.
      exact Hm.
    - rewrite bind_upd in H. exists [], rd4.
      split; [ unfold len, RecordMaxSize; cbn; lia | ].
      split; [ reflexivity | exact H ]. }
  clear H. destruct Hlinks as (li & rd5 & Hli & Hmod & H).
  (* timestamp *)
  rewrite bind_io_eq in H.
  pose proof (ReadUvarint_range rd5) as Hts.
  destruct (ReadUvarint rd5) as [[ts e] rd6]. cbn [fst snd] in H, Hts.
  cbv beta iota in H. rewrite bind_upd in H.
  unfold check in H. destruct e as [e | ]; [ discriminate H | ].
  injection H as <- _.
  unfold body_fits. cbn [MaskedValue Owner Certificate Links Timestamp
                         set_Timestamp set_Links set_Certificate set_Owner
                         set_MaskedValue].
  repeat split; try assumption; lia.
Qed.

(* ----------------------------------------------------------------- *)
(** ** What a decoded record looks like *)

Lemma set_nth_length (A : Type) (i : nat) (v : A) (l : list A) :
  length (set_nth i v l) = length l.
Proof.
  revert i. induction l as [ | a l IH ]; intros [ | i ]; cbn [set_nth length];
    try reflexivity.
  rewrite IH. reflexivity.
Qed.

Section DecoderProofs.

Variable Selector : Type.
Variable Selector_zero : Selector.
Variable Selector_MarshalTo : Selector -> list byte.
Variable Selector_UnmarshalFrom : Selector -> Read Selector.
Variable WharrgarblOutputSize : nat.

Local Abbreviation Rec := (LFRecord Selector).
Local Abbreviation decode :=
  (UnmarshalFrom Selector_zero Selector_UnmarshalFrom WharrgarblOutputSize).

Lemma bind_onBody_inv {A B : Type} (m : M (recordBody * list byte) A)
      (k : A -> M (Rec * list byte) B)
      (r : Rec) (rd : list byte) (b : B) (st' : Rec * list byte) :
  bind (onBody m) k (r, rd) = (Ok b, st') ->
  exists (a : A) (rb : recordBody) (rd1 : list byte),
    m (body r, rd) = (Ok a, (rb, rd1))
    /\ k a (set_body rb r, rd1) = (Ok b, st').
Proof.
  unfold bind, onBody. cbn [fst snd].
  destruct (m (body r, rd)) as [[a | e] [rb rd1]]; [ eauto | discriminate ].
Qed.

(** The selector loop touches nothing but the elements of [Selectors]. *)
Lemma unmarshalSelectors_Ok (n : nat) :
  forall (i : nat) (r r' : Rec) (rd rd' : list byte),
    unmarshalSelectors Selector_zero Selector_UnmarshalFrom n i (r, rd)
    = (Ok tt, (r', rd')) ->
    length (Selectors r') = length (Selectors r)
    /\ body r' = body r /\ Work r' = Work r.
Proof.
  induction n as [ | n IH ]; intros i r r' rd rd' H; cbn [unmarshalSelectors] in H.
  - injection H as <- _. auto.
  - rewrite bind_receiver in H. cbv beta in H. rewrite bind_io_eq in H.
    destruct (Selector_UnmarshalFrom _ rd) as [[sel e] rd1].
    cbn [fst snd] in H. cbv beta iota in H. rewrite bind_upd in H.
    apply bind_check_inv in H. destruct H as [_ H].
    apply IH in H. destruct H as (Hl & Hb & Hw).
    rewrite Hl, Hb, Hw. destruct r. cbn. rewrite set_nth_length. auto.
Qed.

(** X5: a record that [UnmarshalFrom] decodes without error, from any
    stream and into any receiver, has a body within the decoder's bounds
    (masked value, owner and links of at most [RecordMaxSize] bytes, links
    a multiple of 32 bytes, certificate absent or of 32 bytes), at most
    1024 selectors, work algorithm 0 with the work the receiver had or
    algorithm 1 with [WharrgarblOutputSize] bytes of work, a signature of
    at most [RecordMaxSize] bytes, and empty caches. *)
Theorem UnmarshalFrom_decoded_bounds (r0 r : Rec) (rd rd' : list byte) :
  decode (r0, rd) = (Ok tt, (r, rd')) ->
  body_fits (body r)
  /\ (length (Links (body r)) mod 32 = 0)%nat
  /\ (Certificate (body r) = [] \/ length (Certificate (body r)) = 32%nat)
  /\ len (Selectors r) <= 1024
  /\ ((WorkAlgorithm r = RecordWorkAlgorithmNone_b /\ Work r = Work r0)
      \/ (WorkAlgorithm r = RecordWorkAlgorithmWharrgarbl_b
          /\ length (Work r) = WharrgarblOutputSize))
  /\ len (Signature r) <= RecordMaxSize
  /\ data r = [] /\ hash r = None /\ id r = None.
Proof.
  unfold UnmarshalFrom. intros H.
  rewrite bind_io_eq in H.
  destruct (ReadByte rd) as [[hdrb e0] rd0]. cbn [fst snd] in H.
  cbv beta iota in H. apply bind_check_inv in H. destruct H as [_ H].
  destruct (Byte.eqb hdrb xff).
  { rewrite bind_io_eq in H. destruct (ReadFull 4 rd0) as [[dl e1] rd1].
    cbn [fst snd] in H. cbv beta iota in H.
    apply bind_check_inv in H. destruct H as [_ H]. cbv zeta in H.
    apply bind_Ok_inv in H. destruct H as (a & st1 & _ & H).
    discriminate H. }
  destruct (negb (Byte.eqb hdrb x00)); [ discriminate H | ].
  apply bind_onBody_inv in H. destruct H as ([] & rb & rd1 & Hbody & H).
  apply unmarshalFrom_decoded_bounds in Hbody.
  destruct Hbody as (Hfits & Hmod & Hce).
  rewrite bind_io_eq in H.
  destruct (ReadUvarint rd1) as [[selCount e] rd2]. cbn [fst snd] in H.
  cbv beta iota in H. apply bind_check_inv in H. destruct H as [_ H].
  apply bind_guard_inv in H. destruct H as [Hg H].
  change (RecordMaxSize / 64) with 1024 in Hg. apply Z.ltb_ge in Hg.
  rewrite bind_upd, bind_receiver in H. cbv beta in H.
  apply bind_Ok_inv in H. destruct H as ([] & [r2 rd3] & Hloop & H).
  apply unmarshalSelectors_Ok in Hloop. destruct Hloop as (Hl2 & Hb2 & Hw2).
  cbn [Selectors set_Selectors body set_body Work] in Hl2, Hb2, Hw2.
  rewrite repeat_length in Hl2.
  rewrite bind_io_eq in H.
  destruct (ReadByte rd3) as [[walg e3] rd4]. cbn [fst snd] in H.
  cbv beta iota in H. apply bind_check_inv in H. destruct H as [_ H].
  (* the work *)
  assert (Hwork : exists (r3 : Rec) (rd5 : list byte),
             body r3 = body r2 /\ Selectors r3 = Selectors r2
             /\ ((walg = RecordWorkAlgorithmNone_b /\ Work r3 = Work r2)
                 \/ (walg = RecordWorkAlgorithmWharrgarbl_b
                     /\ length (Work r3) = WharrgarblOutputSize))
             /\ (upd (set_WorkAlgorithm walg) ;;;
                 '(siglen, err) <- io ReadUvarint ;;
                 check err ;;;
                 (if RecordMaxSize <? siglen then throw ErrorRecordInvalid
                  else ret tt) ;;;
                 '(sig, err) <- io (ReadFull (Z.to_nat siglen)) ;;
                 upd (set_Signature sig) ;;;
                 check err ;;;
                 upd clear_caches)%go (r3, rd5)
                = (Ok tt, (r, rd'))).
  { destruct (Byte.eqb walg RecordWorkAlgorithmWharrgarbl_b) eqn:Ew.
    - apply Byte_eqb_eq in Ew.
      rewrite bind_assoc, bind_io_eq in H.
      pose proof (ReadFull_length WharrgarblOutputSize rd4) as Hlen.
      destruct (ReadFull WharrgarblOutputSize rd4) as [[wk e5] rd5].
      cbn [fst snd] in H, Hlen. cbv beta iota in H.
      rewrite bind_assoc in H. apply bind_check_inv in H.
      destruct H as [_ H]. cbv beta in H. rewrite bind_upd in H.
      exists (set_Work wk r2), rd5. destruct r2.
      repeat split; try reflexivity; [ right; split; assumption | exact H ].
    - destruct (Byte.eqb walg RecordWorkAlgorithmNone_b) eqn:En;
        cbn [negb] in H; [ | discriminate H ].
      apply Byte_eqb_eq in En. rewrite bind_ret in H.
      exists r2, rd4.
      repeat split; try reflexivity; [ left; split; [ assumption | reflexivity ]
                                      | exact H ]. }
  clear H. destruct Hwork as (r3 & rd5 & Hb3 & Hs3 & Hw3 & H).
  rewrite bind_upd, bind_io_eq in H.
  destruct (ReadUvarint rd5) as [[siglen e5] rd6]. cbn [fst snd] in H.
  cbv beta iota in H. apply bind_check_inv in H. destruct H as [_ H].
  apply bind_guard_inv in H. destruct H as [Hsg H]. apply Z.ltb_ge in Hsg.
  rewrite bind_io_eq in H.
  pose proof (ReadFull_length (Z.to_nat siglen) rd6) as Hlen.
  destruct (ReadFull (Z.to_nat siglen) rd6) as [[sig e7] rd7].
  cbn [fst snd] in H, Hlen. cbv beta iota in H.
  rewrite bind_upd in H. apply bind_check_inv in H. destruct H as [_ H].
  unfold upd in H. cbn [fst snd] in H. injection H as <- _.
  destruct r3 as [b3 s3 w3 a3 g3 d3 h3 i3].
  cbn [body Selectors Work] in Hb3, Hs3, Hw3.
  cbn [clear_caches set_Signature set_WorkAlgorithm body Selectors Work
       WorkAlgorithm Signature data hash id].
  subst b3 s3. rewrite Hb2.
  split; [ exact Hfits | ]. split; [ exact Hmod | ]. split; [ exact Hce | ].
  split; [ unfold len; rewrite Hl2; lia | ].
  split.
  { destruct Hw3 as [[Ha Hw] | [Ha Hw]]; [ left | right ];
      (split; [ exact Ha | ]); [ rewrite Hw, Hw2; reflexivity | exact Hw ]. }
  split; [ unfold len, RecordMaxSize in *; lia | ].
  auto.
Qed.

End DecoderProofs.

(* ----------------------------------------------------------------- *)
(** ** Header bytes and dead records *)

Section HeaderProofs.

Variable Selector : Type.
Variable Selector_zero : Selector.
Variable Selector_UnmarshalFrom : Selector -> Read Selector.
Variable WharrgarblOutputSize : nat.

Local Abbreviation Rec := (LFRecord Selector).
Local Abbreviation decode :=
  (UnmarshalFrom Selector_zero Selector_UnmarshalFrom WharrgarblOutputSize).

(** X6: on an empty stream [UnmarshalFrom] returns the end-of-file error,
    and a first byte other than [0x00] and [0xFF] makes it return
    [ErrorRecordInvalid] after that one byte; in both cases the receiver
    is left as it was. *)
Theorem UnmarshalFrom_header (r0 : Rec) (hdrb : byte) (rd : list byte) :
  hdrb <> x00 -> hdrb <> xff ->
  decode (r0, []) = (Err EOF, (r0, []))
  /\ decode (r0, hdrb :: rd) = (Err ErrorRecordInvalid, (r0, rd)).
Proof.
  intros H0 Hff. split; [ reflexivity | ].
  unfold UnmarshalFrom. rewrite bind_ReadByte. cbv beta iota.
  rewrite bind_check_None.
  rewrite (Byte_eqb_neq hdrb xff Hff), (Byte_eqb_neq hdrb x00 H0).
  reflexivity.
Qed.

(** X7: after the byte [0xFF] and four length bytes [UnmarshalFrom] always
    returns [ErrorRecordMarkedIgnore] and leaves the receiver alone: for a
    length [L] below 5 it has read just these five bytes, and otherwise it
    has dropped [L - 5] more bytes, or all that were left when the stream
    is shorter.  With fewer than four length bytes it returns an
    end-of-file error instead. *)
Theorem UnmarshalFrom_dead_record (r0 : Rec) (lenb tail : list byte) :
  (length lenb <= 4)%nat ->
  (length lenb = 4%nat ->
   decode (r0, xff :: lenb ++ tail)
   = (Err ErrorRecordMarkedIgnore,
      (r0, skipn (Z.to_nat (BigEndian_Uint32 lenb - 5)) tail)))
  /\ ((length lenb < 4)%nat ->
      decode (r0, xff :: lenb)
      = (Err (if (length lenb =? 0)%nat then EOF else ErrUnexpectedEOF),
         (r0, []))).
Proof.
  intros Hle. split.
  - intros Hlen. unfold UnmarshalFrom.
    rewrite bind_ReadByte. cbv beta iota. rewrite bind_check_None.
    change (Byte.eqb xff xff) with true. cbv iota.
    rewrite <- Hlen.
    rewrite (bind_io (ReadFull (length lenb)) _ r0 _ _ _
               (ReadFull_app lenb tail)).
    cbv beta iota. rewrite bind_check_None. cbv zeta.
    pose proof (BigEndian_Uint32_range lenb) as HR.
    destruct (Z.leb_spec 5 (BigEndian_Uint32 lenb)) as [H5 | H5].
    + unfold u32. rewrite (Z.mod_small (_ - 5)) by lia. reflexivity.
    + replace (Z.to_nat (BigEndian_Uint32 lenb - 5)) with 0%nat by lia.
      reflexivity.
  - intros Hlt. unfold UnmarshalFrom.
    rewrite bind_ReadByte. cbv beta iota. rewrite bind_check_None.
    change (Byte.eqb xff xff) with true. cbv iota.
    destruct lenb as [ | a [ | b [ | c [ | d lenb ] ] ] ];
      cbn [length] in Hlt; try lia; reflexivity.
Qed.

End HeaderProofs.

Lemma UnmarshalFrom_header_witness :
  x07 <> x00 /\ x07 <> xff
  /\ Demo.decode (Demo.sample, [x07; x01; x02])
     = (Err ErrorRecordInvalid, (Demo.sample, [x01; x02])).
Proof.
  split; [ discriminate | ]. split; [ discriminate | ].
  apply (UnmarshalFrom_header Demo.Selector Demo.Selector_zero
           Demo.Selector_UnmarshalFrom Demo.WharrgarblOutputSize
           Demo.sample x07 [x01; x02]); discriminate.
Defined.

Lemma UnmarshalFrom_dead_record_witness :
  (length [x00; x00; x00; x02] <= 4)%nat
  /\ Demo.decode (Demo.sample, [xff; x00; x00; x00; x02; x09; x08])
     = (Err ErrorRecordMarkedIgnore, (Demo.sample, [x09; x08])).
Proof.
  split; [ cbn; lia | ].
  apply (UnmarshalFrom_dead_record Demo.Selector Demo.Selector_zero
           Demo.Selector_UnmarshalFrom Demo.WharrgarblOutputSize
           Demo.sample [x00; x00; x00; x02] [x09; x08]);
    [ cbn; lia | reflexivity ].
Defined.

(* ----------------------------------------------------------------- *)
(** ** Decoding a stream of records *)

Section StreamProofs.

Variable Selector : Type.
Variable Selector_zero : Selector.
Variable Selector_MarshalTo : Selector -> list byte.
Variable Selector_UnmarshalFrom : Selector -> Read Selector.
Variable WharrgarblOutputSize : nat.

Local Abbreviation Rec := (LFRecord Selector).
Local Abbreviation decode :=
  (UnmarshalFrom Selector_zero Selector_UnmarshalFrom WharrgarblOutputSize).
Local Abbreviation fields := (marshalFields Selector_MarshalTo).
Local Abbreviation bounded := (within_decoder_bounds WharrgarblOutputSize).
Local Abbreviation codec_ok :=
  (selectors_round_trip Selector_zero Selector_MarshalTo
                        Selector_UnmarshalFrom).

(** What [UnmarshalFrom] does once the selectors are read. *)
Local Abbreviation afterSelectors :=
  ('(walg, err) <- io ReadByte ;;
   check err ;;;
   (if Byte.eqb walg RecordWorkAlgorithmWharrgarbl_b then
      '(work, err) <- io (ReadFull WharrgarblOutputSize) ;;
      check err ;;;
      upd (set_Work work)
    else if negb (Byte.eqb walg RecordWorkAlgorithmNone_b) then
      throw ErrorRecordUnsupportedAlgorithm
    else ret tt) ;;;
   upd (set_WorkAlgorithm walg) ;;;
   '(siglen, err) <- io ReadUvarint ;;
   check err ;;;
   (if RecordMaxSize <? siglen then throw ErrorRecordInvalid else ret tt) ;;;
   '(sig, err) <- io (ReadFull (Z.to_nat siglen)) ;;
   upd (set_Signature sig) ;;;
   check err ;;;
   upd clear_caches)%go.

(** The header byte, the body and the selectors of a serialized record are
    read back, and decoding goes on with what follows them. *)
Lemma UnmarshalFrom_through_selectors
      (r0 : Rec) (rb : recordBody) (sels : list Selector) (tl : list byte) :
  body_fits rb ->
  (length (Links rb) mod 32 = 0)%nat ->
  Certificate rb = [] \/ length (Certificate rb) = 32%nat ->
  len sels <= RecordMaxSize / 64 ->
  codec_ok sels ->
  decode (r0, [x00] ++ marshalTo rb ++ writeUVarint (len sels)
                ++ concat (map Selector_MarshalTo sels) ++ tl)
  = afterSelectors (set_Selectors sels (set_body rb r0), tl).
Proof.
  intros Hfits Hmod Hce Hsel Hcodec.
  change (RecordMaxSize / 64) with 1024 in *.
  unfold UnmarshalFrom. cbn [app].
  rewrite bind_ReadByte. cbv beta iota. rewrite bind_check_None.
  change (Byte.eqb x00 xff) with false.
  change (negb (Byte.eqb x00 x00)) with false. cbv iota.
  rewrite (bind_onBody _ _ _ _ _ _ _ _
             (unmarshalFrom_marshalTo (body r0) rb _ Hfits Hmod Hce)).
  assert (Hn64 : 0 <= len sels < 2 ^ 64) by (unfold len in *; lia).
  rewrite (bind_io ReadUvarint _ _ _ _ _
             (ReadUvarint_writeUVarint _ _ Hn64)).
  cbv beta iota. rewrite bind_check_None.
  change (RecordMaxSize / 64) with 1024.
  destruct (Z.ltb_spec 1024 (len sels)); [ lia | ].
  rewrite bind_ret, bind_upd, bind_receiver. cbv beta.
  change (Selectors (set_Selectors ?l ?x)) with l.
  rewrite repeat_length.
  replace (Z.to_nat (len sels)) with (length sels) by (unfold len; lia).
  pose proof (unmarshalSelectors_marshal
                Selector Selector_zero Selector_MarshalTo
                Selector_UnmarshalFrom sels Hcodec []
                (set_Selectors (repeat Selector_zero (length sels))
                               (set_body rb r0))) as Hloop.
  cbn [length app] in Hloop.
  rewrite (bind_ok _ _ _ _ _ (Hloop _ eq_refl)). clear Hloop.
  reflexivity.
Qed.

(** Decoding the serialized fields of a record whose fields are within the
    decoder's bounds, into any receiver. *)
Lemma UnmarshalFrom_fields (r0 r : Rec) (rest : list byte) :
  bounded r ->
  codec_ok (Selectors r) ->
  decode (r0, fields r ++ rest)
  = (Ok tt,
     (mkRecord (body r) (Selectors r)
               (if Byte.eqb (WorkAlgorithm r) RecordWorkAlgorithmWharrgarbl_b
                then Work r else Work r0)
               (WorkAlgorithm r) (Signature r) [] None None,
      rest)).
Proof.
  intros (Hfits & Hmod & Hce & Hsel & Hwork & Hsig) Hcodec.
  unfold marshalFields. repeat rewrite <- app_assoc.
  rewrite (UnmarshalFrom_through_selectors r0 _ _ _ Hfits Hmod Hce Hsel
                                           Hcodec).
  cbn [app].
  rewrite bind_ReadByte. cbv beta iota. rewrite bind_check_None.
  assert (Hs64 : 0 <= len (Signature r) < 2 ^ 64)
    by (unfold len, RecordMaxSize in *; lia).
  destruct Hwork as [[Halg Hw] | [Halg Hw]]; rewrite Halg.
  - change (Byte.eqb RecordWorkAlgorithmNone_b RecordWorkAlgorithmWharrgarbl_b)
      with false.
    change (negb (Byte.eqb RecordWorkAlgorithmNone_b RecordWorkAlgorithmNone_b))
      with false.
    cbv iota. rewrite bind_ret, bind_upd. rewrite Hw. cbn [app].
    rewrite (bind_io ReadUvarint _ _ _ _ _
               (ReadUvarint_writeUVarint _ _ Hs64)).
    cbv beta iota. rewrite bind_check_None.
    destruct (Z.ltb_spec RecordMaxSize (len (Signature r))); [ lia | ].
    rewrite bind_ret. unfold len at 1. rewrite Nat2Z.id.
    rewrite (bind_io (ReadFull (length (Signature r))) _ _ _ _ _
               (ReadFull_app (Signature r) rest)).
    cbv beta iota. rewrite bind_upd, bind_check_None.
    reflexivity.
  - change (Byte.eqb RecordWorkAlgorithmWharrgarbl_b
                     RecordWorkAlgorithmWharrgarbl_b) with true.
    cbv iota. rewrite bind_assoc. rewrite <- Hw.
    rewrite (bind_io (ReadFull (length (Work r))) _ _ _ _ _
               (ReadFull_app (Work r) _)).
    cbv beta iota. rewrite bind_assoc, bind_check_None, bind_upd, bind_upd.
    rewrite (bind_io ReadUvarint _ _ _ _ _
               (ReadUvarint_writeUVarint _ _ Hs64)).
    cbv beta iota. rewrite bind_check_None.
    destruct (Z.ltb_spec RecordMaxSize (len (Signature r))); [ lia | ].
    rewrite bind_ret. unfold len at 1. rewrite Nat2Z.id.
    rewrite (bind_io (ReadFull (length (Signature r))) _ _ _ _ _
               (ReadFull_app (Signature r) rest)).
    cbv beta iota. rewrite bind_upd, bind_check_None.
    reflexivity.
Qed.

Lemma decoded_work (r0 r : Rec) :
  Work r0 = [] ->
  work_matches_algorithm WharrgarblOutputSize r ->
  (if Byte.eqb (WorkAlgorithm r) RecordWorkAlgorithmWharrgarbl_b
   then Work r else Work r0) = Work r.
Proof.
  intros H0 [[Halg Hw] | [Halg Hw]]; rewrite Halg.
  - rewrite Hw, H0. reflexivity.
  - reflexivity.
Qed.

(** X8: [UnmarshalFrom] reads exactly one record from a stream.  When
    every field of a record is within the decoder's bound for it and each
    of its own selectors round-trips through the selector codec, decoding
    its serialization followed by any other bytes, into a receiver without
    work, succeeds, gives the same body, selectors, work, work algorithm
    and signature with empty caches, and leaves the stream at the first
    byte after the record.  Nothing is asked of the total serialized
    length, nor of selectors that the record does not have. *)
Theorem UnmarshalFrom_reads_one_record (r0 r : Rec) (rest : list byte) :
  bounded r ->
  codec_ok (Selectors r) ->
  Work r0 = [] ->
  exists r' : Rec,
    decode (r0, fields r ++ rest) = (Ok tt, (r', rest))
    /\ same_fields r r'
    /\ data r' = [] /\ hash r' = None /\ id r' = None.
Proof.
  intros Hb Hcodec H0. eexists.
  split; [ apply UnmarshalFrom_fields; assumption | ].
  destruct Hb as (_ & _ & _ & _ & Hwork & _).
  unfold same_fields. cbn [body Selectors Work WorkAlgorithm Signature
                                data hash id].
  rewrite (decoded_work r0 r H0 Hwork). auto 10.
Qed.

(** X9: the serialization of a record whose work algorithm byte is
    neither 0 nor 1 is not decoded.  When the body and the selectors are
    such that the decoder gets as far as the algorithm byte (masked value,
    owner and links within [RecordMaxSize] bytes, timestamp a [uint64],
    links a multiple of 32 bytes, certificate absent or of 32 bytes, at
    most [RecordMaxSize / 64] selectors, each of which round-trips through
    the selector codec), [UnmarshalFrom] returns
    [ErrorRecordUnsupportedAlgorithm] right after the algorithm byte, with
    the body and the selectors already stored in the receiver and its
    work, algorithm, signature and caches as they were. *)
Theorem UnmarshalFrom_unsupported_algorithm (r0 r : Rec) (rest : list byte) :
  body_fits (body r) ->
  (length (Links (body r)) mod 32 = 0)%nat ->
  Certificate (body r) = [] \/ length (Certificate (body r)) = 32%nat ->
  len (Selectors r) <= RecordMaxSize / 64 ->
  codec_ok (Selectors r) ->
  WorkAlgorithm r <> RecordWorkAlgorithmNone_b ->
  WorkAlgorithm r <> RecordWorkAlgorithmWharrgarbl_b ->
  decode (r0, fields r ++ rest)
  = (Err ErrorRecordUnsupportedAlgorithm,
     (set_Selectors (Selectors r) (set_body (body r) r0),
      Work r ++ writeUVarint (len (Signature r)) ++ Signature r ++ rest)).
Proof.
  intros Hfits Hmod Hce Hsel Hcodec Hn Hw.
  unfold marshalFields. repeat rewrite <- app_assoc.
  rewrite (UnmarshalFrom_through_selectors r0 _ _ _ Hfits Hmod Hce Hsel
                                           Hcodec).
  cbn [app].
  rewrite bind_ReadByte. cbv beta iota. rewrite bind_check_None.
  rewrite (Byte_eqb_neq _ _ Hw), (Byte_eqb_neq _ _ Hn).
  reflexivity.
Qed.

(** X10: the serialization is injective on records that are within the
    decoder's bounds and whose own selectors round-trip through the
    selector codec: two such records with the same serialized fields have
    the same body, selectors, work, work algorithm and signature. *)
Theorem marshalFields_injective (r1 r2 : Rec) :
  bounded r1 -> bounded r2 ->
  codec_ok (Selectors r1) -> codec_ok (Selectors r2) ->
  fields r1 = fields r2 ->
  same_fields r1 r2.
Proof.
  intros H1 H2 C1 C2 E.
  pose proof (UnmarshalFrom_fields Record_zero r1 [] H1 C1) as D1.
  pose proof (UnmarshalFrom_fields Record_zero r2 [] H2 C2) as D2.
  rewrite E, D2 in D1.
  destruct H1 as (_ & _ & _ & _ & Hw1 & _).
  destruct H2 as (_ & _ & _ & _ & Hw2 & _).
  rewrite (decoded_work Record_zero r1 eq_refl Hw1) in D1.
  rewrite (decoded_work Record_zero r2 eq_refl Hw2) in D1.
  injection D1 as Eb Es Ew Ea Eg.
  unfold same_fields. auto.
Qed.

End StreamProofs.

Lemma Demo_sample_bounded :
  within_decoder_bounds Demo.WharrgarblOutputSize Demo.sample.
Proof.
  unfold within_decoder_bounds, body_fits.
  repeat split; try (vm_compute; congruence).
  - right. reflexivity.
  - right. split; reflexivity.
Defined.

Lemma Demo_sample_selectors :
  selectors_round_trip Demo.Selector_zero Demo.Selector_MarshalTo
                       Demo.Selector_UnmarshalFrom (Selectors Demo.sample).
Proof. repeat constructor. Defined.

Lemma UnmarshalFrom_decoded_bounds_witness :
  Demo.decode (Record_zero, marshalFields Demo.Selector_MarshalTo Demo.sample)
  = (Ok tt, (Demo.sample, []))
  /\ body_fits (body Demo.sample)
  /\ len (Selectors Demo.sample) <= 1024
  /\ len (Signature Demo.sample) <= RecordMaxSize.
Proof.
  assert (H : Demo.decode (Record_zero,
                           marshalFields Demo.Selector_MarshalTo Demo.sample)
              = (Ok tt, (Demo.sample, []))) by (vm_compute; reflexivity).
  split; [ exact H | ].
  destruct (UnmarshalFrom_decoded_bounds
              Demo.Selector Demo.Selector_zero Demo.Selector_UnmarshalFrom
              Demo.WharrgarblOutputSize Record_zero Demo.sample _ _ H)
    as (Hb & _ & _ & Hs & _ & Hg & _).
  split; [ exact Hb | ]. split; [ exact Hs | exact Hg ].
Defined.

Lemma UnmarshalFrom_reads_one_record_witness :
  within_decoder_bounds Demo.WharrgarblOutputSize Demo.sample
  /\ exists r' : LFRecord Demo.Selector,
       Demo.decode (Record_zero,
                    marshalFields Demo.Selector_MarshalTo Demo.sample
                    ++ [x00; x01])
       = (Ok tt, (r', [x00; x01]))
       /\ same_fields Demo.sample r'
       /\ data r' = [] /\ hash r' = None /\ id r' = None.
Proof.
  split; [ exact Demo_sample_bounded | ].
  exact (UnmarshalFrom_reads_one_record
           Demo.Selector Demo.Selector_zero Demo.Selector_MarshalTo
           Demo.Selector_UnmarshalFrom Demo.WharrgarblOutputSize
           Record_zero Demo.sample [x00; x01]
           Demo_sample_bounded Demo_sample_selectors eq_refl).
Defined.

Lemma UnmarshalFrom_unsupported_algorithm_witness :
  WorkAlgorithm Demo.unknown_algorithm <> RecordWorkAlgorithmNone_b
  /\ WorkAlgorithm Demo.unknown_algorithm <> RecordWorkAlgorithmWharrgarbl_b
  /\ Demo.decode (Demo.sample,
                  marshalFields Demo.Selector_MarshalTo Demo.unknown_algorithm
                  ++ [x07])
     = (Err ErrorRecordUnsupportedAlgorithm,
        (set_Selectors [] (set_body recordBody_zero Demo.sample),
         [x00; x07])).
Proof.
  split; [ discriminate | ]. split; [ discriminate | ].
  apply (UnmarshalFrom_unsupported_algorithm
           Demo.Selector Demo.Selector_zero Demo.Selector_MarshalTo
           Demo.Selector_UnmarshalFrom Demo.WharrgarblOutputSize
           Demo.sample Demo.unknown_algorithm [x07]).
  - unfold body_fits. repeat split; vm_compute; congruence.
  - reflexivity.
  - left. reflexivity.
  - vm_compute. congruence.
  - constructor.
  - discriminate.
  - discriminate.
Defined.

Lemma marshalFields_injective_witness :
  within_decoder_bounds Demo.WharrgarblOutputSize Demo.sample
  /\ selectors_round_trip Demo.Selector_zero Demo.Selector_MarshalTo
                          Demo.Selector_UnmarshalFrom (Selectors Demo.sample)
  /\ same_fields Demo.sample (set_hash (Some [x01]) Demo.sample).
Proof.
  split; [ exact Demo_sample_bounded | ].
  split; [ exact Demo_sample_selectors | ].
  apply (marshalFields_injective
           Demo.Selector Demo.Selector_zero Demo.Selector_MarshalTo
           Demo.Selector_UnmarshalFrom Demo.WharrgarblOutputSize
           Demo.sample (set_hash (Some [x01]) Demo.sample)
           Demo_sample_bounded Demo_sample_bounded
           Demo_sample_selectors Demo_sample_selectors eq_refl).
Defined.

(* ----------------------------------------------------------------- *)
(** ** What the body encoder drops *)

Lemma on_the_wire_links (li : list byte) :
  length (firstn (length li / 32 * 32) li) = (length li / 32 * 32)%nat.
Proof.
  rewrite length_firstn.
  pose proof (Nat.div_mod_eq (length li) 32).
  pose proof (Nat.mod_upper_bound (length li) 32). lia.
Qed.

Lemma marshalTo_on_the_wire (rb : recordBody) :
  marshalTo (on_the_wire rb) = marshalTo rb.
Proof.
  destruct rb as [mv ow ce li ts]. unfold marshalTo, on_the_wire.
  cbn [MaskedValue Owner Certificate Links Timestamp].
  rewrite on_the_wire_links.
  rewrite Nat.div_mul by discriminate.
  rewrite firstn_firstn, Nat.min_id.
  assert (Hce : (length (if (length ce =? 32)%nat then ce else []) =? 32)%nat
                = (length ce =? 32)%nat).
  { destruct (Nat.eqb_spec (length ce) 32) as [E | E].
    - rewrite E. reflexivity.
    - reflexivity. }
  rewrite Hce.
  assert (Hli : (32 <=? length li / 32 * 32)%nat = (32 <=? length li)%nat).
  { pose proof (Nat.div_mod_eq (length li) 32).
    pose proof (Nat.mod_upper_bound (length li) 32).
    destruct (Nat.leb_spec 32 (length li)) as [H32 | H32].
    - apply Nat.leb_le.
      assert (1 <= length li / 32)%nat
        by (apply Nat.div_le_lower_bound; lia).
      lia.
    - rewrite Nat.div_small by lia. reflexivity. }
  rewrite Hli.
  destruct (length ce =? 32)%nat; reflexivity.
Qed.

Lemma on_the_wire_fixed (rb : recordBody) :
  on_the_wire rb = rb
  <-> (length (Links rb) mod 32 = 0)%nat
      /\ (Certificate rb = [] \/ length (Certificate rb) = 32%nat).
Proof.
  pose proof (on_the_wire_links (Links rb)) as Hlen.
  pose proof (Nat.div_mod_eq (length (Links rb)) 32) as Hdm.
  destruct rb as [mv ow ce li ts]. unfold on_the_wire.
  cbn [MaskedValue Owner Certificate Links Timestamp] in *.
  split.
  - intros E. pose proof (f_equal Links E) as Eli.
    pose proof (f_equal Certificate E) as Ece.
    cbn [Links Certificate] in Eli, Ece. split.
    + apply (f_equal (@length byte)) in Eli. rewrite Hlen in Eli.
      rewrite <- Eli. apply Nat.Div0.mod_mul.
    + destruct (Nat.eqb_spec (length ce) 32) as [E32 | E32];
        [ right; exact E32 | left; symmetry; exact Ece ].
  - intros (Hmod & Hce).
    rewrite Hmod in Hdm.
    replace (length li / 32 * 32)%nat with (length li) by lia.
    rewrite firstn_all.
    destruct Hce as [-> | ->]; reflexivity.
Qed.

(** X11: the body encoder writes a certificate only if it has exactly 32
    bytes and writes the links only up to the last whole 32-byte link, so
    decoding the encoded body gives the body without the rest: for every
    body with fields in bounds, [unmarshalFrom] succeeds on its encoding,
    stops at its end, and returns the body as it is on the wire, whose
    encoding is the same bytes. *)
Theorem unmarshalFrom_marshalTo_on_the_wire
        (rb0 rb : recordBody) (rest : list byte) :
  body_fits rb ->
  unmarshalFrom (rb0, marshalTo rb ++ rest) = (Ok tt, (on_the_wire rb, rest))
  /\ marshalTo (on_the_wire rb) = marshalTo rb
  /\ (on_the_wire rb = rb <->
      (length (Links rb) mod 32 = 0)%nat
      /\ (Certificate rb = [] \/ length (Certificate rb) = 32%nat)).
Proof.
  intros Hfits.
  pose proof (on_the_wire_links (Links rb)) as Hlen.
  pose proof (Nat.div_mod_eq (length (Links rb)) 32) as Hdm.
  split; [ | split ].
  - rewrite <- marshalTo_on_the_wire.
    apply unmarshalFrom_marshalTo.
    + destruct Hfits as (H1 & H2 & H3 & H4). unfold body_fits, on_the_wire.
      cbn [MaskedValue Owner Certificate Links Timestamp].
      repeat split; try assumption; try lia.
      unfold len in *. rewrite Hlen. lia.
    + unfold on_the_wire. cbn [Links]. rewrite Hlen.
      apply Nat.Div0.mod_mul.
    + unfold on_the_wire. cbn [Certificate].
      destruct (Nat.eqb_spec (length (Certificate rb)) 32) as [E | E];
        [ right; exact E | left; reflexivity ].
  - apply marshalTo_on_the_wire.
  - apply on_the_wire_fixed.
Qed.

Lemma unmarshalFrom_marshalTo_on_the_wire_witness :
  body_fits (mkBody [x01] [x02] [x03; x04] (repeat x09 40) 7)
  /\ unmarshalFrom (recordBody_zero,
                    marshalTo (mkBody [x01] [x02] [x03; x04] (repeat x09 40) 7))
     = (Ok tt, (mkBody [x01] [x02] [] (repeat x09 32) 7, [])).
Proof.
  assert (H : body_fits (mkBody [x01] [x02] [x03; x04] (repeat x09 40) 7))
    by (unfold body_fits; repeat split; vm_compute; congruence).
  split; [ exact H | ].
  destruct (unmarshalFrom_marshalTo_on_the_wire recordBody_zero _ [] H)
    as (E & _).
  rewrite app_nil_r in E. exact E.
Defined.

(* ----------------------------------------------------------------- *)
(** ** Creating and validating records *)

Lemma uint_idem (w : UintWidth) (x : Z) : uint w (uint w x) = uint w x.
Proof. unfold uint. apply Z.mod_mod. destruct w; cbn [uint_bits]; lia. Qed.

Lemma uint_add_uint (w : UintWidth) (a b : Z) :
  uint w (a + uint w b) = uint w (a + b).
Proof. unfold uint. apply Zplus_mod_idemp_r. Qed.

Lemma uint_uint_add (w : UintWidth) (a b : Z) :
  uint w (uint w a + b) = uint w (a + b).
Proof. unfold uint. apply Zplus_mod_idemp_l. Qed.

Lemma firstn_app_exact (A : Type) (a b : list A) :
  firstn (length a) (a ++ b) = a.
Proof.
  rewrite firstn_app, firstn_all, Nat.sub_diag. cbn [firstn].
  apply app_nil_r.
Qed.

Lemma skipn_app_exact (A : Type) (a b : list A) :
  skipn (length a) (a ++ b) = b.
Proof.
  rewrite skipn_app, skipn_all, Nat.sub_diag. reflexivity.
Qed.

Lemma skipn_zeros_app (n : nat) (b : list byte) :
  skipn n (zeros n ++ b) = b.
Proof. induction n as [ | n IH ]; [ reflexivity | exact IH ]. Qed.

(** The buffer that [NewRecordAddWork] hashes is the work hash, the work
    and the algorithm byte, one after the other. *)
Lemma NewRecordAddWork_buffer (workHash work : list byte) (alg : byte) :
  let tmp := zeros (length workHash + length work + 1) in
  let tmp := copy_into tmp 0 workHash in
  let tmp := copy_into tmp (length workHash) work in
  set_nth (length tmp - 1) alg tmp = workHash ++ work ++ [alg].
Proof.
  cbv zeta.
  assert (H1 : copy_into (zeros (length workHash + length work + 1)) 0 workHash
               = workHash ++ zeros (length work + 1)).
  { unfold copy_into, zeros. cbn [firstn app Nat.add].
    rewrite repeat_length, Nat.sub_0_r.
    rewrite firstn_all2 by lia.
    rewrite <- Nat.add_assoc, repeat_app.
    apply f_equal. apply skipn_zeros_app. }
  rewrite H1.
  assert (H2 : copy_into (workHash ++ zeros (length work + 1))
                         (length workHash) work
               = workHash ++ work ++ [x00]).
  { unfold copy_into. rewrite firstn_app_exact.
    rewrite length_app. unfold zeros at 1. rewrite repeat_length.
    rewrite firstn_all2 by lia.
    rewrite skipn_app, skipn_all2 by lia. cbn [app].
    replace (length workHash + length work - length workHash)%nat
      with (length work) by lia.
    unfold zeros. rewrite repeat_app.
    do 2 apply f_equal. apply skipn_zeros_app. }
  rewrite H2.
  replace (length (workHash ++ work ++ [x00]) - 1)%nat
    with (length (workHash ++ work))
    by (repeat rewrite length_app; cbn [length]; lia).
  rewrite (app_assoc workHash work [x00]).
  rewrite set_nth_middle. rewrite <- app_assoc. reflexivity.
Qed.

Section CreationProofs.

Variable Shandwich256 : list byte -> list byte.
Variable sha3_256 : list byte -> list byte.
Variable sha256 : list byte -> list byte.
Variable aes : list byte -> list byte -> list byte.
Variable lzw_Write : list byte -> list byte * bool.
Variable lzw_Read : list byte -> list byte * option Error.
Variable Selector : Type.
Variable Selector_zero : Selector.
Variable Selector_MarshalTo : Selector -> list byte.
Variable Selector_Claim : Selector -> list byte -> Z -> list byte -> Selector.
Variable Selector_Bytes : Selector -> list byte.
Variable Selector_VerifyClaim : Selector -> list byte -> bool.
Variable OwnerT : Type.
Variable NewOwnerFromBytes : list byte -> option OwnerT.
Variable Owner_Verify : OwnerT -> list byte -> list byte -> bool.
Variable Owner_Bytes : OwnerT -> list byte.
Variable Owner_Sign : OwnerT -> list byte -> list byte * option Error.
Variable Wharrgarbl : list byte -> Z -> Z -> list byte * Z.
Variable WharrgarblVerify : list byte -> list byte -> Z.
Variable w : UintWidth.

Local Abbreviation Rec := (LFRecord Selector).
Local Abbreviation start :=
  (NewRecordStart Shandwich256 sha3_256 sha256 aes lzw_Write Selector_zero
                  Selector_Claim Selector_Bytes w).
Local Abbreviation getValue := (GetValue sha256 aes lzw_Read).
Local Abbreviation validate :=
  (Validate Shandwich256 sha3_256 Selector_Bytes Selector_VerifyClaim
            NewOwnerFromBytes Owner_Verify WharrgarblVerify w).
Local Abbreviation newRecord :=
  (NewRecord Shandwich256 sha3_256 sha256 aes lzw_Write Selector_zero
             Selector_MarshalTo Selector_Claim Selector_Bytes
             Owner_Bytes Owner_Sign Wharrgarbl w).
Local Abbreviation hashOf := (chainedHash Shandwich256 sha3_256 Selector_Bytes).
Local Abbreviation loop := (claimLoop sha3_256 Selector_zero Selector_Claim
                                      Selector_Bytes w).
Local Abbreviation verifyAll := (verifyLoop sha3_256 Selector_Bytes
                                        Selector_VerifyClaim w).
Local Abbreviation billable := (billableBytes Selector_Bytes w).
Local Abbreviation workHash := (workHashOf Shandwich256 sha3_256 Selector_Bytes).
Local Abbreviation sizes :=
  (fold_right (fun (sel : Selector) acc => len (Selector_Bytes sel) + acc) 0).

(** *** The selector loops *)

Lemma claimLoop_panics (names : list (list byte)) :
  forall (i : nat) (ords : list Z) (st : loop_state Selector),
    (i <= length ords)%nat ->
    (length ords < length names + i)%nat ->
    loop names i ords st = Panic.
Proof.
  induction names as [ | name names IH ]; intros i ords st Hi Hlen.
  - cbn [length] in Hlen. lia.
  - cbn [claimLoop length] in *. destruct st as [[[r b] h] c].
    destruct (nth_error ords i) as [ord | ] eqn:E; [ | reflexivity ].
    assert (i < length ords)%nat
      by (apply nth_error_Some; rewrite E; discriminate).
    apply IH; lia.
Qed.

Lemma claimLoop_bytes (names : list (list byte)) :
  forall (i : nat) (ords : list Z) (r r' : Rec) (b b' : Z)
         (h h' c c' : list byte) (done : list Selector),
    loop names i ords (r, b, h, c) = Return (r', b', h', c') ->
    Selectors r = done ++ repeat Selector_zero (length names) ->
    length done = i ->
    uint w b = b ->
    exists new : list Selector,
      r' = set_Selectors (done ++ new) r /\ b' = uint w (b + sizes new).
Proof.
  induction names as [ | name names IH ];
    intros i ords r r' b b' h h' c c' done Hrun Hsel Hdone Hb.
  - cbn [claimLoop] in Hrun. injection Hrun as <- <- <- <-.
    exists []. cbn [length repeat fold_right] in *.
    split; [ | rewrite Z.add_0_r; symmetry; exact Hb ].
    rewrite <- Hsel. destruct r. reflexivity.
  - cbn [claimLoop length repeat] in *. subst i.
    destruct (nth_error ords (length done)) as [ord | ] eqn:E;
      [ | discriminate Hrun ].
    rewrite Hsel in Hrun.
    rewrite app_nth2, Nat.sub_diag in Hrun by lia. cbn [nth] in Hrun.
    rewrite set_nth_middle in Hrun.
    set (sel := Selector_Claim Selector_zero name ord c) in *.
    specialize (IH (S (length done)) ords _ r' _ b' _ h' _ c' (done ++ [sel])
                   Hrun).
    destruct IH as (new & Hsel' & Hb').
    + destruct r. cbn. rewrite <- app_assoc. reflexivity.
    + rewrite length_app. cbn. lia.
    + apply uint_idem.
    + exists (sel :: new). cbn [fold_right]. split.
      * rewrite Hsel', <- app_assoc. destruct r. reflexivity.
      * rewrite Hb'. rewrite uint_uint_add.
        rewrite (Z.add_comm b), <- Z.add_assoc, uint_uint_add.
        f_equal. lia.
Qed.

Lemma verifyLoop_Some (sels : list Selector) :
  forall (b b' : Z) (h h' c c' : list byte),
    verifyAll sels b h c = Some (b', h', c') ->
    uint w b = b ->
    b' = uint w (b + sizes sels)
    /\ h' = h ++ concat (map Selector_Bytes sels).
Proof.
  induction sels as [ | sel sels IH ]; intros b b' h h' c c' Hrun Hb;
    cbn [verifyLoop map concat fold_right] in *.
  - injection Hrun as <- <- <-. rewrite Z.add_0_r, app_nil_r. auto.
  - destruct (Selector_VerifyClaim sel c); cbn [negb] in Hrun;
      [ | discriminate Hrun ].
    apply IH in Hrun; [ | apply uint_idem ].
    destruct Hrun as (-> & ->). split.
    + rewrite uint_uint_add.
      rewrite (Z.add_comm b), <- Z.add_assoc, uint_uint_add.
      f_equal. lia.
    + rewrite <- app_assoc. reflexivity.
Qed.

Lemma verifyLoop_all (sels : list Selector) (b : Z) (h c : list byte) :
  verifyAll sels b h c <> None
  <-> forall j : nat,
      (j < length sels)%nat ->
      Selector_VerifyClaim (nth j sels Selector_zero)
        (nth j (claimChain sha3_256 c (map Selector_Bytes sels)) []) = true.
Proof.
  pose proof (verifyLoop_None_iff sha3_256 Selector Selector_zero
                Selector_Bytes Selector_VerifyClaim w sels b h c) as Hnone.
  split.
  - intros Hsome j Hj.
    destruct (Selector_VerifyClaim _ _) eqn:E; [ reflexivity | ].
    exfalso. apply Hsome, Hnone. exists j. auto.
  - intros Hall Hn. apply Hnone in Hn. destruct Hn as (j & Hj & Hf).
    rewrite (Hall j Hj) in Hf. discriminate.
Qed.

(** X12: [NewRecordStart] returns [ErrorInvalidParameter] exactly when the
    value has more than [RecordMaxSize] bytes; otherwise it panics with an
    index out of range exactly when there are fewer ordinals than selector
    names, and returns a record in every other case.  Nothing else about
    the arguments is checked. *)
Theorem NewRecordStart_outcome
        (value : list byte) (links : list (list byte)) (maskingKey : list byte)
        (names : list (list byte)) (ords : list Z)
        (ownerPublic cert : list byte) (ts : Z) :
  (start value links maskingKey names ords ownerPublic cert ts
   = Return (Err ErrorInvalidParameter)
   <-> RecordMaxSize < len value)
  /\ (start value links maskingKey names ords ownerPublic cert ts = Panic
      <-> len value <= RecordMaxSize /\ (length ords < length names)%nat)
  /\ ((exists (r : Rec) (wh : list byte) (wb : Z),
          start value links maskingKey names ords ownerPublic cert ts
          = Return (Ok (r, wh, wb)))
      <-> len value <= RecordMaxSize /\ (length names <= length ords)%nat).
Proof.
  destruct (Z.ltb_spec RecordMaxSize (len value)) as [Hbig | Hfit].
  - assert (E : start value links maskingKey names ords ownerPublic cert ts
                = Return (Err ErrorInvalidParameter)).
    { unfold NewRecordStart.
      destruct (Z.ltb_spec RecordMaxSize (len value)); [ reflexivity | lia ]. }
    rewrite E. split; [ | split ]; (split; [ intros Hx | intros Hy ]);
      try discriminate Hx; try lia; try reflexivity;
      try (destruct Hx as (r0 & wh0 & wb0 & Hx); discriminate Hx); eauto.
  - destruct (Nat.leb_spec (length names) (length ords)) as [Hlen | Hlen].
    + destruct (NewRecordStart_returns
                  Shandwich256 sha3_256 sha256 aes lzw_Write Selector
                  Selector_zero Selector_Claim Selector_Bytes w
                  value links maskingKey names ords ownerPublic cert ts
                  Hfit Hlen) as (r & wh & wb & E).
      rewrite E. split; [ | split ]; (split; [ intros Hx | intros Hy ]);
        try discriminate Hx; try lia; try reflexivity;
        try (destruct Hx as (r0 & wh0 & wb0 & Hx); discriminate Hx); eauto.
    + assert (E : start value links maskingKey names ords ownerPublic cert ts
                  = Panic).
      { unfold NewRecordStart.
        destruct (Z.ltb_spec RecordMaxSize (len value)); [ lia | ].
        cbv zeta.
        destruct (Nat.ltb_spec 0 (length names)) as [Hn | Hn]; [ | lia ].
        rewrite claimLoop_panics by lia. reflexivity. }
      rewrite E. split; [ | split ]; (split; [ intros Hx | intros Hy ]);
        try discriminate Hx; try lia; try reflexivity;
        try (destruct Hx as (r0 & wh0 & wb0 & Hx); discriminate Hx); eauto.
Qed.

(** *** What [NewRecordStart] hands to the next phases *)

Lemma concat_length_32 (links : list (list byte)) :
  (forall l : list byte, In l links -> length l = 32%nat) ->
  length (concat links) = (length links * 32)%nat.
Proof.
  induction links as [ | l links IH ]; intros H32; cbn [concat length].
  - reflexivity.
  - rewrite length_app.
    rewrite IH by (intros l' Hl'; apply H32; right; exact Hl').
    rewrite (H32 l) by (left; reflexivity). lia.
Qed.

Lemma NewRecordStart_record
      (value : list byte) (links : list (list byte)) (maskingKey : list byte)
      (names : list (list byte)) (ords : list Z)
      (ownerPublic cert : list byte) (ts : Z)
      (r : Rec) (wh : list byte) (wb : Z) :
  start value links maskingKey names ords ownerPublic cert ts
  = Return (Ok (r, wh, wb)) ->
  r = set_Selectors (Selectors r) (set_body (body r) Record_zero)
  /\ wb = billable r.
Proof.
  unfold NewRecordStart. intros Hrun.
  destruct (Z.ltb_spec RecordMaxSize (len value)) as [Hbig | Hfit];
    [ discriminate Hrun | ].
  cbv zeta in Hrun.
  match type of Hrun with
  | context [set_body ?rb Record_zero] => set (rb0 := rb) in *
  end.
  destruct (0 <? length names)%nat.
  - destruct (loop names 0%nat ords _) as [[[[r1 b1] h1] c1] | ] eqn:E;
      [ | discriminate Hrun ].
    injection Hrun as <- <- <-.
    apply (claimLoop_bytes _ _ _ _ _ _ _ _ _ _ _ []) in E;
      [ | reflexivity | reflexivity | apply uint_idem ].
    destruct E as (new & -> & ->). cbn [app].
    split; [ reflexivity | ].
    unfold billableBytes. cbn [body Selectors set_Selectors set_body].
    apply uint_uint_add.
  - injection Hrun as <- <- <-. split; [ reflexivity | ].
    unfold billableBytes. cbn [body Selectors set_body Record_zero fold_right].
    rewrite Z.add_0_r. reflexivity.
Qed.

(** X13: the record that [NewRecordStart] returns has the owner bytes, the
    timestamp and the concatenated links it was given, no work, work
    algorithm 0, no signature and empty caches; the billable bytes
    returned with it are the size of its body plus the sizes of its
    selectors, as a [uint], and the work hash is SHA3-256 of the body
    signing hash followed by the bytes of the selectors.  The links are
    not checked: [LinkCount] is the number of link bytes in all divided by
    32, which is [len(links)] when each link has 32 bytes. *)
Theorem NewRecordStart_work_inputs
        (value : list byte) (links : list (list byte)) (maskingKey : list byte)
        (names : list (list byte)) (ords : list Z)
        (ownerPublic cert : list byte) (ts : Z)
        (r : Rec) (wh : list byte) (wb : Z) :
  start value links maskingKey names ords ownerPublic cert ts
  = Return (Ok (r, wh, wb)) ->
  wb = billable r
  /\ wh = workHash r
  /\ Owner (body r) = ownerPublic
  /\ Timestamp (body r) = ts
  /\ Links (body r) = concat links
  /\ ((forall l : list byte, In l links -> length l = 32%nat) ->
      LinkCount (body r) = len links)
  /\ LinkCount (body r) = len (concat links) / 32
  /\ Work r = [] /\ WorkAlgorithm r = x00 /\ Signature r = []
  /\ data r = [] /\ hash r = None /\ id r = None.
Proof.
  intros Hrun.
  destruct (NewRecordStart_record _ _ _ _ _ _ _ _ _ _ _ Hrun) as (Hr & Hwb).
  apply NewRecordStart_inv in Hrun.
  destruct Hrun as (_ & Hbody & _ & Hwh & _).
  assert (Hlinks : Links (body r) = concat links).
  { rewrite Hbody. unfold started_body. cbn [Links].
    destruct links; reflexivity. }
  split; [ exact Hwb | ]. split; [ exact Hwh | ].
  split; [ rewrite Hbody; reflexivity | ].
  split; [ rewrite Hbody; reflexivity | ].
  split; [ exact Hlinks | ].
  split.
  { intros H32. unfold LinkCount, len. rewrite Hlinks.
    rewrite (concat_length_32 links H32), Nat2Z.inj_mul.
    apply Z.div_mul. discriminate. }
  split; [ unfold LinkCount; rewrite Hlinks; reflexivity | ].
  rewrite Hr. repeat split.
Qed.

(** X14: [NewRecordStart] stores nothing for an empty value, and for a
    value of [n > 0] bytes a masked value of at least one byte (the flag)
    and at most [n + 1] bytes. *)
Theorem NewRecordStart_masked_size
        (value : list byte) (links : list (list byte)) (maskingKey : list byte)
        (names : list (list byte)) (ords : list Z)
        (ownerPublic cert : list byte) (ts : Z)
        (r : Rec) (wh : list byte) (wb : Z) :
  start value links maskingKey names ords ownerPublic cert ts
  = Return (Ok (r, wh, wb)) ->
  (value = [] -> MaskedValue (body r) = [])
  /\ (value <> [] ->
      1 <= len (MaskedValue (body r)) <= len value + 1)
  /\ len (MaskedValue (body r)) <= RecordMaxSize + 1.
Proof.
  intros Hrun. apply NewRecordStart_inv in Hrun.
  destruct Hrun as (Hfit & Hbody & _).
  rewrite Hbody. unfold started_body. cbn [MaskedValue].
  assert (Hplain : 1 <= len (storedPlaintext lzw_Write value) <= len value + 1).
  { unfold storedPlaintext. destruct (lzw_Write value) as [compressed lzwErr].
    destruct (16 <=? len value); cbn [andb];
      [ destruct lzwErr; cbn [negb andb];
        [ | destruct (Z.leb_spec (len compressed + 1) (len value)) ] | ];
      unfold len in *; cbn [length]; lia. }
  split; [ intros ->; reflexivity | ].
  destruct value as [ | v value ].
  - split; [ congruence | ]. cbn. unfold RecordMaxSize. lia.
  - change (0 <? len (v :: value)) with true. cbv iota.
    assert (Hmask : len (CFBEncrypt (aes (sha256 maskingKey))
                                    (maskingIV ts ownerPublic)
                                    (storedPlaintext lzw_Write (v :: value)))
                    = len (storedPlaintext lzw_Write (v :: value)))
      by (unfold len; rewrite CFBEncrypt_length; reflexivity).
    rewrite Hmask. split; [ intros _ | ]; lia.
Qed.

(** X15: [GetValue] returns nothing for an empty masked value, and for a
    masked value of at most [RecordMaxSize + 1] bytes it never returns more
    than [RecordMaxSize] bytes, whatever the decompressor yields. *)
Theorem GetValue_size (rb : recordBody) (maskingKey : list byte) :
  len (MaskedValue rb) <= RecordMaxSize + 1 ->
  len (getValue rb maskingKey) <= RecordMaxSize
  /\ (MaskedValue rb = [] -> getValue rb maskingKey = []).
Proof.
  intros Hfit. split.
  - unfold GetValue. cbv zeta.
    destruct (length (MaskedValue rb) =? 0)%nat;
      [ unfold RecordMaxSize; cbn; lia | ].
    rewrite cfbIv_maskingIV.
    set (unmasked := CFBDecrypt _ _ _).
    assert (Hlen : length unmasked = length (MaskedValue rb))
      by apply XORKeyStream_length.
    destruct (negb _).
    + destruct (lzw_Read (tl unmasked)) as [decoded err].
      destruct (Z.leb_spec RecordMaxSize (len decoded)) as [Hbig | Hsmall].
      * unfold len in *. rewrite length_firstn. unfold RecordMaxSize in *. lia.
      * destruct err; [ unfold RecordMaxSize; cbn; lia | lia ].
    + unfold len, RecordMaxSize in *.
      destruct unmasked; cbn [tl length] in *; lia.
  - intros E. unfold GetValue. rewrite E. reflexivity.
Qed.

(** *** What [Validate] checks *)

Lemma Owner_nonempty (r : Rec) :
  Owner (body r) <> [] -> (length (Owner (body r)) =? 0)%nat = false.
Proof.
  intros H. destruct (Owner (body r)); [ congruence | reflexivity ].
Qed.

(** When a claim does not verify. *)
Lemma Validate_claim_fails (r : Rec) (i : nat) :
  Owner (body r) <> [] ->
  (i < length (Selectors r))%nat ->
  Selector_VerifyClaim (nth i (Selectors r) Selector_zero) (hashOf r i)
  = false ->
  validate r = Err ErrorRecordSelectorClaimCheckFailed.
Proof.
  intros Howner Hi Hf. unfold Validate. rewrite (Owner_nonempty r Howner).
  cbv zeta.
  destruct (verifyAll _ _ _ _) as [[[b1 h1] c1] | ] eqn:E; [ | reflexivity ].
  exfalso.
  assert (Hsome : verifyAll (Selectors r) (uint w (sizeBytes (body r)))
                        (signingHash Shandwich256 (body r))
                        (signingHash Shandwich256 (body r)) <> None)
    by (rewrite E; discriminate).
  rewrite verifyLoop_all in Hsome. specialize (Hsome i Hi).
  unfold chainedHash in Hf. rewrite Hf in Hsome. discriminate.
Qed.

(** When every claim verifies, the work and the signature are what is
    left to check. *)
Lemma Validate_claims_verify (r : Rec) :
  Owner (body r) <> [] ->
  (forall i : nat,
      (i < length (Selectors r))%nat ->
      Selector_VerifyClaim (nth i (Selectors r) Selector_zero) (hashOf r i)
      = true) ->
  validate r
  = if (if Byte.eqb (WorkAlgorithm r) RecordWorkAlgorithmNone_b then false
        else if Byte.eqb (WorkAlgorithm r) RecordWorkAlgorithmWharrgarbl_b
             then u32 (WharrgarblVerify (Work r) (workHash r))
                  <? RecordWharrgarblCost w (billable r)
             else true)
    then Err ErrorRecordInsufficientWork
    else match NewOwnerFromBytes (Owner (body r)) with
         | None => Err ErrorRecordOwnerSignatureCheckFailed
         | Some owner =>
           if negb (Owner_Verify owner
                      (sha3_256 (workHash r ++ Work r ++ [WorkAlgorithm r]))
                      (Signature r))
           then Err ErrorRecordOwnerSignatureCheckFailed
           else Ok tt
         end.
Proof.
  intros Howner Hall. unfold Validate. rewrite (Owner_nonempty r Howner).
  cbv zeta.
  destruct (verifyAll _ _ _ _) as [[[b1 h1] c1] | ] eqn:E.
  - apply verifyLoop_Some in E; [ | apply uint_idem ].
    destruct E as (-> & ->).
    rewrite uint_uint_add. reflexivity.
  - exfalso. revert E. apply verifyLoop_all. exact Hall.
Qed.

Lemma claims_decidable (r : Rec) :
  (forall i : nat,
      (i < length (Selectors r))%nat ->
      Selector_VerifyClaim (nth i (Selectors r) Selector_zero) (hashOf r i)
      = true)
  \/ (exists i : nat,
         (i < length (Selectors r))%nat
         /\ Selector_VerifyClaim (nth i (Selectors r) Selector_zero)
                                 (hashOf r i) = false).
Proof.
  destruct (verifyAll (Selectors r) 0 [] (signingHash Shandwich256 (body r)))
    eqn:E.
  - left. apply (verifyLoop_all (Selectors r) 0 []). rewrite E. discriminate.
  - right.
    apply (verifyLoop_None_iff sha3_256 Selector Selector_zero
             Selector_Bytes Selector_VerifyClaim w) in E.
    exact E.
Qed.

(** X16: [Validate] accepts a record exactly when its owner bytes are not
    empty, every selector's claim verifies against its chained hash, the
    work algorithm is 0 (the work is then not looked at) or it is
    Wharrgarbl with work worth at least the cost of the billable bytes,
    the owner bytes parse to an owner, and the signature verifies for
    SHA3-256 of work hash, work and algorithm byte.  It returns
    [ErrorRecordInsufficientWork] exactly when owner and claims pass and
    the work does not, any other algorithm byte included.  The functions
    that [Validate] calls are taken to return; what its deferred [recover]
    makes of a panic in one of them is not part of the statement. *)
Theorem Validate_accepts_iff (r : Rec) :
  (validate r = Ok tt
   <-> Owner (body r) <> []
       /\ (forall i : nat,
              (i < length (Selectors r))%nat ->
              Selector_VerifyClaim (nth i (Selectors r) Selector_zero)
                                   (hashOf r i) = true)
       /\ (WorkAlgorithm r = RecordWorkAlgorithmNone_b
           \/ (WorkAlgorithm r = RecordWorkAlgorithmWharrgarbl_b
               /\ RecordWharrgarblCost w (billable r)
                  <= u32 (WharrgarblVerify (Work r) (workHash r))))
       /\ exists owner : OwnerT,
           NewOwnerFromBytes (Owner (body r)) = Some owner
           /\ Owner_Verify owner
                (sha3_256 (workHash r ++ Work r ++ [WorkAlgorithm r]))
                (Signature r) = true)
  /\ (validate r = Err ErrorRecordInsufficientWork
      <-> Owner (body r) <> []
          /\ (forall i : nat,
                 (i < length (Selectors r))%nat ->
                 Selector_VerifyClaim (nth i (Selectors r) Selector_zero)
                                      (hashOf r i) = true)
          /\ ~ (WorkAlgorithm r = RecordWorkAlgorithmNone_b
                \/ (WorkAlgorithm r = RecordWorkAlgorithmWharrgarbl_b
                    /\ RecordWharrgarblCost w (billable r)
                       <= u32 (WharrgarblVerify (Work r) (workHash r))))).
Proof.
  destruct (Owner (body r)) as [ | o0 ow ] eqn:Eow.
  { assert (E : validate r = Err ErrorRecordOwnerSignatureCheckFailed)
      by (unfold Validate; rewrite Eow; reflexivity).
    rewrite E. split.
    - split; [ discriminate | intros (H & _); congruence ].
    - split; [ discriminate | intros (H & _); congruence ]. }
  assert (Howner : Owner (body r) <> []) by (rewrite Eow; discriminate).
  destruct (claims_decidable r) as [Hall | (i & Hi & Hf)].
  2: { rewrite (Validate_claim_fails r i Howner Hi Hf).
       assert (Hnot : ~ (forall i : nat,
                  (i < length (Selectors r))%nat ->
                  Selector_VerifyClaim (nth i (Selectors r) Selector_zero)
                                       (hashOf r i) = true)).
       { intros H. rewrite (H i Hi) in Hf. discriminate. }
       split.
       - split; [ discriminate | intros (_ & H & _); contradiction ].
       - split; [ discriminate | intros (_ & H & _); contradiction ]. }
  rewrite (Validate_claims_verify r Howner Hall). rewrite Eow.
  set (wv := u32 (WharrgarblVerify (Work r) (workHash r))).
  set (cost := RecordWharrgarblCost w (billable r)).
  destruct (Byte.eqb (WorkAlgorithm r) RecordWorkAlgorithmNone_b) eqn:En.
  - apply Byte_eqb_eq in En.
    destruct (NewOwnerFromBytes (o0 :: ow)) as [owner | ];
      [ destruct (Owner_Verify owner _ _) eqn:Ev; cbn [negb] | ].
    + split.
      * split; [ intros _ | reflexivity ].
        split; [ discriminate | ]. split; [ exact Hall | ].
        split; [ left; exact En | ]. exists owner. auto.
      * split; [ discriminate | intros (_ & _ & H); elim H; left; exact En ].
    + split.
      * split; [ discriminate | ].
        intros (_ & _ & _ & o & Ho & Hv). injection Ho as <-. congruence.
      * split; [ discriminate | intros (_ & _ & H); elim H; left; exact En ].
    + split.
      * split; [ discriminate | ].
        intros (_ & _ & _ & o & Ho & _). discriminate Ho.
      * split; [ discriminate | intros (_ & _ & H); elim H; left; exact En ].
  - assert (Hn : WorkAlgorithm r <> RecordWorkAlgorithmNone_b).
    { intros H. rewrite H in En. discriminate En. }
    destruct (Byte.eqb (WorkAlgorithm r) RecordWorkAlgorithmWharrgarbl_b)
      eqn:Ew.
    + apply Byte_eqb_eq in Ew.
      destruct (Z.ltb_spec wv cost) as [Hlow | Hok].
      * split.
        -- split; [ discriminate | ].
           intros (_ & _ & [H | (_ & H)] & _); [ contradiction | lia ].
        -- split; [ intros _ | reflexivity ].
           split; [ discriminate | ]. split; [ exact Hall | ].
           intros [H | (_ & H)]; [ contradiction | lia ].
      * destruct (NewOwnerFromBytes (o0 :: ow)) as [owner | ];
          [ destruct (Owner_Verify owner _ _) eqn:Ev; cbn [negb] | ].
        -- split.
           ++ split; [ intros _ | reflexivity ].
              split; [ discriminate | ]. split; [ exact Hall | ].
              split; [ right; split; [ exact Ew | exact Hok ] | ].
              exists owner. auto.
           ++ split; [ discriminate | ].
              intros (_ & _ & H). elim H. right. auto.
        -- split.
           ++ split; [ discriminate | ].
              intros (_ & _ & _ & o & Ho & Hv). injection Ho as <-.
              congruence.
           ++ split; [ discriminate | ].
              intros (_ & _ & H). elim H. right. auto.
        -- split.
           ++ split; [ discriminate | ].
              intros (_ & _ & _ & o & Ho & _). discriminate Ho.
           ++ split; [ discriminate | ].
              intros (_ & _ & H). elim H. right. auto.
    + assert (Hw : WorkAlgorithm r <> RecordWorkAlgorithmWharrgarbl_b).
      { intros H. rewrite H in Ew. discriminate Ew. }
      split.
      * split; [ discriminate | ].
        intros (_ & _ & [H | (H & _)] & _); contradiction.
      * split; [ intros _ | reflexivity ].
        split; [ discriminate | ]. split; [ exact Hall | ].
        intros [H | (H & _)]; contradiction.
Qed.

(** *** All phases in one call *)

(** X17: a record that [NewRecord] returns without an error passes
    [Validate] and has at most [RecordMaxSize] serialized bytes, given
    that the owner's public bytes are not empty, that a selector's claim
    verifies against the hash it was made for, that a signature of the
    owner verifies under the owner parsed from its public bytes, and that
    work found by [Wharrgarbl] is worth the difficulty asked for.  Its
    work algorithm is the one asked for, which is 0 or Wharrgarbl. *)
Theorem NewRecord_validates
        (value : list byte) (links : list (list byte)) (maskingKey : list byte)
        (names : list (list byte)) (ords : list Z) (cert : list byte) (ts : Z)
        (alg : byte) (owner : OwnerT) (r : Rec) :
  (forall (s : Selector) (name : list byte) (ord : Z) (h : list byte),
      Selector_VerifyClaim (Selector_Claim s name ord h) h = true) ->
  Owner_Bytes owner <> [] ->
  (forall h sig : list byte,
      Owner_Sign owner h = (sig, None) ->
      exists o : OwnerT,
        NewOwnerFromBytes (Owner_Bytes owner) = Some o
        /\ Owner_Verify o h sig = true) ->
  (forall (h : list byte) (d : Z) (wk : list byte) (iter : Z),
      Wharrgarbl h d recordWharrgarblMemory = (wk, iter) ->
      iter <> 0 ->
      d <= u32 (WharrgarblVerify wk h)) ->
  newRecord value links maskingKey names ords cert ts alg owner
  = Return (Some r, None) ->
  validate r = Ok tt
  /\ uint w (SizeBytes Selector_MarshalTo r) <= RecordMaxSize
  /\ (alg = RecordWorkAlgorithmNone_b \/ alg = RecordWorkAlgorithmWharrgarbl_b)
  /\ WorkAlgorithm r = alg
  /\ Owner (body r) = Owner_Bytes owner.
Proof.
  intros Hclaim Hbytes Hsign Hwork Hrun.
  unfold NewRecord in Hrun.
  destruct (start value links maskingKey names ords (Owner_Bytes owner)
                  cert ts) as [[[[r0 wh] wb] | e] | ] eqn:Es;
    [ | discriminate Hrun | discriminate Hrun ].
  destruct (NewRecordStart_record _ _ _ _ _ _ _ _ _ _ _ Es) as (_ & Hwb).
  apply NewRecordStart_inv in Es.
  destruct Es as (_ & Hbody & Hlen & Hwh & Hnth).
  (* the work *)
  assert (Hdone : exists wk : list byte,
             NewRecordDoWork Wharrgarbl w wh wb alg = (wk, None)
             /\ (alg = RecordWorkAlgorithmNone_b
                 \/ (alg = RecordWorkAlgorithmWharrgarbl_b
                     /\ RecordWharrgarblCost w wb
                        <= u32 (WharrgarblVerify wk wh)))).
  { unfold NewRecordDoWork in *.
    destruct (Byte.eqb alg RecordWorkAlgorithmNone_b) eqn:En; cbn [negb] in *.
    - apply Byte_eqb_eq in En. eauto.
    - destruct (Byte.eqb alg RecordWorkAlgorithmWharrgarbl_b) eqn:Ew;
        [ | discriminate Hrun ].
      apply Byte_eqb_eq in Ew.
      destruct (Wharrgarbl wh (RecordWharrgarblCost w wb)
                           recordWharrgarblMemory) as [wk iter] eqn:Ework.
      destruct (Z.eqb_spec iter 0) as [Hz | Hnz]; [ discriminate Hrun | ].
      exists wk. split; [ reflexivity | ]. right. split; [ exact Ew | ].
      exact (Hwork _ _ _ _ Ework Hnz). }
  destruct Hdone as (wk & Edo & Halg). rewrite Edo in Hrun.
  unfold NewRecordAddWork in Hrun. cbv zeta in Hrun.
  pose proof (NewRecordAddWork_buffer wh wk alg) as Hbuf. cbv zeta in Hbuf.
  rewrite Hbuf in Hrun. clear Hbuf.
  unfold NewRecordComplete in Hrun.
  destruct (Owner_Sign owner (sha3_256 (wh ++ wk ++ [alg])))
    as [sig err] eqn:Esig.
  destruct (Z.ltb_spec RecordMaxSize
              (uint w (SizeBytes Selector_MarshalTo
                         (set_Signature sig
                            (set_WorkAlgorithm alg (set_Work wk r0))))))
    as [Hbig | Hsize]; [ discriminate Hrun | ].
  destruct err as [e | ]; [ discriminate Hrun | ].
  injection Hrun as <-.
  set (r := set_Signature sig (set_WorkAlgorithm alg (set_Work wk r0))) in *.
  assert (Howner : Owner (body r) = Owner_Bytes owner)
    by (cbn [r body set_Signature set_WorkAlgorithm set_Work];
        rewrite Hbody; reflexivity).
  split; [ | split; [ exact Hsize | ] ].
  2: { split; [ destruct Halg as [H | (H & _)]; auto | ].
       split; [ reflexivity | exact Howner ]. }
  assert (Hne : Owner (body r) <> []) by (rewrite Howner; exact Hbytes).
  rewrite (Validate_claims_verify r Hne).
  2: { intros i Hi.
       change (Selectors r) with (Selectors r0) in *.
       change (hashOf r i) with (hashOf r0 i).
       rewrite Hnth by (rewrite <- Hlen; exact Hi).
       apply Hclaim. }
  change (workHash r) with (workHash r0).
  change (billable r) with (billable r0).
  change (Work r) with wk. change (WorkAlgorithm r) with alg.
  change (Signature r) with sig.
  unfold workHashOf. rewrite <- Hwh, <- Hwb.
  destruct (Hsign _ _ Esig) as (o & Ho & Hv).
  rewrite Howner, Ho, Hv. cbn [negb].
  destruct Halg as [-> | (-> & Hcost)].
  - reflexivity.
  - change (Byte.eqb RecordWorkAlgorithmWharrgarbl_b RecordWorkAlgorithmNone_b)
      with false.
    change (Byte.eqb RecordWorkAlgorithmWharrgarbl_b
                     RecordWorkAlgorithmWharrgarbl_b) with true.
    cbv iota.
    destruct (Z.ltb_spec (u32 (WharrgarblVerify wk wh))
                         (RecordWharrgarblCost w wb)); [ lia | reflexivity ].
Qed.

(** X18: [NewRecord] with a value of more than [RecordMaxSize] bytes
    returns no record and [ErrorInvalidParameter], whatever the work
    algorithm and the other arguments; with a work algorithm other than 0
    and Wharrgarbl, and arguments that the first phase accepts (a value of
    at most [RecordMaxSize] bytes and no fewer ordinals than names), it
    returns [ErrorInvalidParameter] together with the record of the first
    phase, which has no work and no signature. *)
Theorem NewRecord_invalid_parameter
        (value : list byte) (links : list (list byte)) (maskingKey : list byte)
        (names : list (list byte)) (ords : list Z) (cert : list byte) (ts : Z)
        (alg : byte) (owner : OwnerT) :
  (RecordMaxSize < len value ->
   newRecord value links maskingKey names ords cert ts alg owner
   = Return (None, Some (RecordError ErrorInvalidParameter)))
  /\ (alg <> RecordWorkAlgorithmNone_b ->
      alg <> RecordWorkAlgorithmWharrgarbl_b ->
      len value <= RecordMaxSize ->
      (length names <= length ords)%nat ->
      exists r : Rec,
        newRecord value links maskingKey names ords cert ts alg owner
        = Return (Some r, Some (RecordError ErrorInvalidParameter))
        /\ Owner (body r) = Owner_Bytes owner
        /\ length (Selectors r) = length names
        /\ Work r = [] /\ Signature r = []).
Proof.
  split.
  - intros Hbig. unfold NewRecord, NewRecordStart.
    destruct (Z.ltb_spec RecordMaxSize (len value)); [ reflexivity | lia ].
  - intros Hn Hw Hfit Hlen.
    destruct (NewRecordStart_returns
                Shandwich256 sha3_256 sha256 aes lzw_Write Selector
                Selector_zero Selector_Claim Selector_Bytes w
                value links maskingKey names ords (Owner_Bytes owner) cert ts
                Hfit Hlen) as (r & wh & wb & E).
    exists r. unfold NewRecord. rewrite E. unfold NewRecordDoWork.
    rewrite (Byte_eqb_neq _ _ Hn), (Byte_eqb_neq _ _ Hw). cbn [negb].
    split; [ reflexivity | ].
    destruct (NewRecordStart_record _ _ _ _ _ _ _ _ _ _ _ E) as (Hr & _).
    apply NewRecordStart_inv in E. destruct E as (_ & Hbody & Hsel & _).
    split; [ rewrite Hbody; reflexivity | ].
    split; [ exact Hsel | ].
    rewrite Hr. split; reflexivity.
Qed.

End CreationProofs.

Lemma bytes_Compare_refl (a : list byte) : bytes_Compare a a = 0.
Proof.
  induction a as [ | x a IH ]; cbn [bytes_Compare]; [ reflexivity | ].
  rewrite Z.ltb_irrefl. exact IH.
Qed.

Lemma DemoMore_claims (s : Demo.Selector) (name : list byte) (ord : Z)
      (h : list byte) :
  Demo.Selector_VerifyClaim (Demo.Selector_Claim s name ord h) h = true.
Proof.
  unfold Demo.Selector_VerifyClaim, Demo.Selector_Claim. cbn [snd].
  destruct (Byte.eqb (hd x00 h) (hd x00 h)) eqn:E; [ reflexivity | ].
  exfalso. revert E. generalize (hd x00 h). intros b.
  destruct b; discriminate.
Defined.

Lemma DemoMore_signs (owner : Demo.OwnerT) (h sig : list byte) :
  DemoMore.Owner_Sign owner h = (sig, None) ->
  exists o : Demo.OwnerT,
    Demo.NewOwnerFromBytes (DemoMore.Owner_Bytes owner) = Some o
    /\ DemoMore.Owner_Verify o h sig = true.
Proof.
  unfold DemoMore.Owner_Sign. intros E. injection E as <-.
  exists owner. split; [ reflexivity | ].
  unfold DemoMore.Owner_Verify, DemoMore.bytes_eqb.
  rewrite bytes_Compare_refl. reflexivity.
Defined.

Lemma DemoMore_works (h : list byte) (d : Z) (wk : list byte) (iter : Z) :
  DemoMore.Wharrgarbl h d recordWharrgarblMemory = (wk, iter) ->
  iter <> 0 ->
  d <= u32 (DemoMore.WharrgarblVerify wk h).
Proof.
  unfold DemoMore.Wharrgarbl, DemoMore.WharrgarblVerify.
  destruct (Z.leb_spec 0 d); destruct (Z.ltb_spec d (2 ^ 32));
    cbn [andb]; intros E Hi; injection E as <- <-; try congruence.
  unfold len, u32. rewrite repeat_length, Z2Nat.id by lia.
  rewrite Z.mod_small; lia.
Defined.

Lemma NewRecordStart_work_inputs_witness :
  exists (r : LFRecord Demo.Selector) (wh : list byte) (wb : Z),
    Demo.start [x68; x69] [repeat x09 32] [x6b] [[x61]; [x62]] [1; 2]
               [x0a; x0b] [] 5
    = Return (Ok (r, wh, wb))
    /\ wb = billableBytes Demo.Selector_Bytes W64 r
    /\ LinkCount (body r) = 1.
Proof.
  assert (E : exists r wh wb,
             Demo.start [x68; x69] [repeat x09 32] [x6b] [[x61]; [x62]] [1; 2]
                        [x0a; x0b] [] 5
             = Return (Ok (r, wh, wb)))
    by (vm_compute; do 3 eexists; reflexivity).
  destruct E as (r & wh & wb & E). exists r, wh, wb.
  destruct (NewRecordStart_work_inputs
              Demo.Shandwich256 Demo.sha3_256 Demo.sha256 Demo.aes
              Demo.rle_Write Demo.Selector Demo.Selector_zero
              Demo.Selector_Claim Demo.Selector_Bytes W64
              _ _ _ _ _ _ _ _ _ _ _ E)
    as (Hwb & _ & _ & _ & _ & Hlinks & _).
  split; [ exact E | ]. split; [ exact Hwb | ].
  apply Hlinks. intros l [<- | []]. reflexivity.
Defined.

Lemma NewRecordStart_masked_size_witness :
  exists (r : LFRecord Demo.Selector) (wh : list byte) (wb : Z),
    Demo.start Demo.runs [] [x6b] [] [] [x0a; x0b] [] 5
    = Return (Ok (r, wh, wb))
    /\ 1 <= len (MaskedValue (body r)) <= len Demo.runs + 1.
Proof.
  assert (E : exists r wh wb,
             Demo.start Demo.runs [] [x6b] [] [] [x0a; x0b] [] 5
             = Return (Ok (r, wh, wb)))
    by (vm_compute; do 3 eexists; reflexivity).
  destruct E as (r & wh & wb & E). exists r, wh, wb.
  destruct (NewRecordStart_masked_size
              Demo.Shandwich256 Demo.sha3_256 Demo.sha256 Demo.aes
              Demo.rle_Write Demo.Selector Demo.Selector_zero
              Demo.Selector_Claim Demo.Selector_Bytes W64
              _ _ _ _ _ _ _ _ _ _ _ E)
    as (_ & Hsize & _).
  split; [ exact E | ]. apply Hsize. discriminate.
Defined.

Lemma GetValue_size_witness :
  len (MaskedValue (body Demo.sample)) <= RecordMaxSize + 1
  /\ len (Demo.getValue (body Demo.sample) [x6b]) <= RecordMaxSize.
Proof.
  assert (H : len (MaskedValue (body Demo.sample)) <= RecordMaxSize + 1)
    by (vm_compute; congruence).
  split; [ exact H | ].
  exact (proj1 (GetValue_size Demo.sha256 Demo.aes Demo.rle_Read
                              (body Demo.sample) [x6b] H)).
Defined.

Lemma NewRecord_validates_witness :
  exists r : LFRecord Demo.Selector,
    DemoMore.newRecord Demo.runs [repeat x09 32] [x6b] [[x61]; [x62]] [1; 2]
                       [] 5 x01 [x0a; x0b]
    = Return (Some r, None)
    /\ DemoMore.validate r = Ok tt
    /\ WorkAlgorithm r = x01.
Proof.
  assert (E : exists r,
             DemoMore.newRecord Demo.runs [repeat x09 32] [x6b]
                                [[x61]; [x62]] [1; 2] [] 5 x01 [x0a; x0b]
             = Return (Some r, None))
    by (vm_compute; eexists; reflexivity).
  destruct E as (r & E). exists r.
  destruct (NewRecord_validates
              Demo.Shandwich256 Demo.sha3_256 Demo.sha256 Demo.aes
              Demo.rle_Write Demo.Selector Demo.Selector_zero
              Demo.Selector_MarshalTo Demo.Selector_Claim Demo.Selector_Bytes
              Demo.Selector_VerifyClaim Demo.OwnerT Demo.NewOwnerFromBytes
              DemoMore.Owner_Verify DemoMore.Owner_Bytes DemoMore.Owner_Sign
              DemoMore.Wharrgarbl DemoMore.WharrgarblVerify W64
              _ _ _ _ _ _ _ x01 [x0a; x0b] r
              DemoMore_claims ltac:(discriminate)
              (DemoMore_signs [x0a; x0b]) DemoMore_works E)
    as (Hv & _ & _ & Ha & _).
  split; [ exact E | ]. split; [ exact Hv | exact Ha ].
Defined.

Lemma NewRecord_invalid_parameter_witness :
  x02 <> RecordWorkAlgorithmNone_b
  /\ x02 <> RecordWorkAlgorithmWharrgarbl_b
  /\ exists r : LFRecord Demo.Selector,
      DemoMore.newRecord [x68; x69] [] [x6b] [[x61]] [1] [] 5 x02 [x0a; x0b]
      = Return (Some r, Some (RecordError ErrorInvalidParameter))
      /\ Work r = [] /\ Signature r = [].
Proof.
  split; [ discriminate | ]. split; [ discriminate | ].
  destruct (proj2 (NewRecord_invalid_parameter
              Demo.Shandwich256 Demo.sha3_256 Demo.sha256 Demo.aes
              Demo.rle_Write Demo.Selector Demo.Selector_zero
              Demo.Selector_MarshalTo Demo.Selector_Claim Demo.Selector_Bytes
              Demo.OwnerT DemoMore.Owner_Bytes DemoMore.Owner_Sign
              DemoMore.Wharrgarbl W64
              [x68; x69] [] [x6b] [[x61]] [1] [] 5 x02 [x0a; x0b])
            ltac:(discriminate) ltac:(discriminate)
            ltac:(vm_compute; congruence) ltac:(cbn; lia))
    as (r & E & _ & _ & Hw & Hs).
  exists r. split; [ exact E | ]. split; [ exact Hw | exact Hs ].
Defined.

(* ----------------------------------------------------------------- *)
(** ** Received records *)

Lemma Validate_fields
      (Shandwich256 sha3_256 : list byte -> list byte) (Selector : Type)
      (Selector_Bytes : Selector -> list byte)
      (Selector_VerifyClaim : Selector -> list byte -> bool)
      (OwnerT : Type) (NewOwnerFromBytes : list byte -> option OwnerT)
      (Owner_Verify : OwnerT -> list byte -> list byte -> bool)
      (WharrgarblVerify : list byte -> list byte -> Z) (w : UintWidth)
      (r : LFRecord Selector) (d : list byte) (h i : option (list byte)) :
  Validate Shandwich256 sha3_256 Selector_Bytes Selector_VerifyClaim
           NewOwnerFromBytes Owner_Verify WharrgarblVerify w
           (mkRecord (body r) (Selectors r) (Work r) (WorkAlgorithm r)
                     (Signature r) d h i)
  = Validate Shandwich256 sha3_256 Selector_Bytes Selector_VerifyClaim
             NewOwnerFromBytes Owner_Verify WharrgarblVerify w r.
Proof. destruct r. reflexivity. Qed.

Section ReceivedProofs.

Variable Shandwich256 : list byte -> list byte.
Variable sha3_256 : list byte -> list byte.
Variable Selector : Type.
Variable Selector_zero : Selector.
Variable Selector_MarshalTo : Selector -> list byte.
Variable Selector_UnmarshalFrom : Selector -> Read Selector.
Variable WharrgarblOutputSize : nat.
Variable Selector_Bytes : Selector -> list byte.
Variable Selector_VerifyClaim : Selector -> list byte -> bool.
Variable OwnerT : Type.
Variable NewOwnerFromBytes : list byte -> option OwnerT.
Variable Owner_Verify : OwnerT -> list byte -> list byte -> bool.
Variable WharrgarblVerify : list byte -> list byte -> Z.
Variable WharrgarblGetDifficulty : list byte -> Z.
Variable w : UintWidth.

Local Abbreviation Rec := (LFRecord Selector).
Local Abbreviation fields := (marshalFields Selector_MarshalTo).
Local Abbreviation validate :=
  (Validate Shandwich256 sha3_256 Selector_Bytes Selector_VerifyClaim
            NewOwnerFromBytes Owner_Verify WharrgarblVerify w).
Local Abbreviation fromBytes :=
  (NewRecordFromBytes Selector_zero Selector_UnmarshalFrom
                      WharrgarblOutputSize).

(** X19: [NewRecordFromBytes] on the serialization of a record that is
    within the decoder's bounds and whose own selectors round-trip through
    the selector codec, followed by any bytes at all, succeeds and ignores
    what follows the record.  The record it returns has the same fields,
    so [Validate] and [Score] give on it what they give on the original;
    its [Bytes] are the serialization without what followed, and its
    [Hash] is Shandwich256 of these bytes. *)
Theorem NewRecordFromBytes_received (r : Rec) (junk : list byte) :
  within_decoder_bounds WharrgarblOutputSize r ->
  selectors_round_trip Selector_zero Selector_MarshalTo
                       Selector_UnmarshalFrom (Selectors r) ->
  exists r' : Rec,
    fromBytes (fields r ++ junk) = (Ok tt, r')
    /\ same_fields r r'
    /\ validate r' = validate r
    /\ Score WharrgarblGetDifficulty r' = Score WharrgarblGetDifficulty r
    /\ fst (Bytes Selector_MarshalTo r') = fields r
    /\ fst (Hash Shandwich256 Selector_MarshalTo r')
       = Shandwich256 (fields r).
Proof.
  intros Hb Hcodec. unfold NewRecordFromBytes.
  rewrite (UnmarshalFrom_fields Selector Selector_zero Selector_MarshalTo
             Selector_UnmarshalFrom WharrgarblOutputSize
             Record_zero r junk Hb Hcodec).
  destruct Hb as (_ & _ & _ & _ & Hwork & _).
  rewrite (decoded_work Selector WharrgarblOutputSize Record_zero r
                        eq_refl Hwork).
  eexists. split; [ reflexivity | ].
  split; [ unfold same_fields; cbn; auto | ].
  split; [ apply Validate_fields | ].
  split; [ reflexivity | ].
  split; reflexivity.
Qed.

End ReceivedProofs.

Lemma NewRecordFromBytes_received_witness :
  within_decoder_bounds Demo.WharrgarblOutputSize Demo.sample
  /\ exists r' : LFRecord Demo.Selector,
      NewRecordFromBytes Demo.Selector_zero Demo.Selector_UnmarshalFrom
                         Demo.WharrgarblOutputSize
                         (marshalFields Demo.Selector_MarshalTo Demo.sample
                          ++ [xff; xfe])
      = (Ok tt, r')
      /\ fst (Bytes Demo.Selector_MarshalTo r')
         = marshalFields Demo.Selector_MarshalTo Demo.sample.
Proof.
  split; [ exact Demo_sample_bounded | ].
  destruct (NewRecordFromBytes_received
              Demo.Shandwich256 Demo.sha3_256 Demo.Selector Demo.Selector_zero
              Demo.Selector_MarshalTo Demo.Selector_UnmarshalFrom
              Demo.WharrgarblOutputSize Demo.Selector_Bytes
              Demo.Selector_VerifyClaim Demo.OwnerT Demo.NewOwnerFromBytes
              Demo.Owner_Verify Demo.WharrgarblVerify (fun _ => 0) W64
              Demo.sample [xff; xfe] Demo_sample_bounded
              Demo_sample_selectors)
    as (r' & E & _ & _ & _ & Hbytes & _).
  exists r'. split; [ exact E | exact Hbytes ].
Defined.

(* ----------------------------------------------------------------- *)
(** ** Cached bytes and hashes *)

Section CacheProofs.

Variable Shandwich256 : list byte -> list byte.
Variable Selector : Type.
Variable Selector_MarshalTo : Selector -> list byte.

Local Abbreviation Rec := (LFRecord Selector).
Local Abbreviation bytes := (Bytes Selector_MarshalTo).
Local Abbreviation encode := (MarshalTo Selector_MarshalTo).
Local Abbreviation size := (SizeBytes Selector_MarshalTo).
Local Abbreviation hashed := (Hash Shandwich256 Selector_MarshalTo).

Lemma MarshalTo_nonempty (r : Rec) : (0 < length (encode r))%nat.
Proof.
  unfold MarshalTo.
  destruct (Nat.ltb_spec 0 (length (data r))); [ assumption | ].
  unfold marshalFields. cbn [app length]. lia.
Qed.

(** X20: [Bytes], [SizeBytes], [MarshalTo] and [Hash] agree, before and
    after [Bytes] and [Hash] have filled their caches: [Bytes] returns
    what [MarshalTo] writes, which is never empty, [SizeBytes] is its
    length, a hash that is not yet cached is Shandwich256 of it, and a
    second call of [Bytes] or [Hash] returns what the first returned and
    changes nothing; none of them changes a field of the record. *)
Theorem Bytes_cached (r : Rec) :
  fst (bytes r) = encode r
  /\ encode r <> []
  /\ size r = len (encode r)
  /\ bytes (snd (bytes r)) = (fst (bytes r), snd (bytes r))
  /\ encode (snd (bytes r)) = encode r
  /\ size (snd (bytes r)) = size r
  /\ same_fields r (snd (bytes r))
  /\ (hash r = None -> fst (hashed r) = Shandwich256 (fst (bytes r)))
  /\ hashed (snd (hashed r)) = (fst (hashed r), snd (hashed r))
  /\ same_fields r (snd (hashed r)).
Proof.
  pose proof (MarshalTo_nonempty r) as Hne.
  assert (Hbytes : fst (bytes r) = encode r).
  { unfold Bytes, MarshalTo.
    destruct (data r) as [ | d0 d ] eqn:Ed; reflexivity. }
  assert (Hsize : size r = len (encode r)).
  { unfold SizeBytes, MarshalTo.
    destruct (data r) as [ | d0 d ] eqn:Ed; reflexivity. }
  assert (Hdata : data (snd (bytes r)) = encode r).
  { unfold Bytes, MarshalTo.
    destruct (data r) as [ | d0 d ] eqn:Ed; cbn [length Nat.eqb Nat.ltb
      Nat.leb snd data]; [ reflexivity | exact Ed ]. }
  assert (Henc : encode (snd (bytes r)) = encode r).
  { unfold MarshalTo at 1. rewrite Hdata.
    destruct (Nat.ltb_spec 0 (length (encode r))); [ reflexivity | lia ]. }
  split; [ exact Hbytes | ].
  split; [ intros E; rewrite E in Hne; cbn in Hne; lia | ].
  split; [ exact Hsize | ].
  split.
  { unfold Bytes at 1. rewrite Hdata.
    destruct (Nat.eqb_spec (length (encode r)) 0) as [E | E]; [ lia | ].
    rewrite Hbytes. reflexivity. }
  split; [ exact Henc | ].
  split.
  { rewrite Hsize. unfold SizeBytes. rewrite Hdata.
    destruct (Nat.eqb_spec (length (encode r)) 0) as [E | E]; [ lia | ].
    reflexivity. }
  split.
  { unfold Bytes, same_fields.
    destruct (length (data r) =? 0)%nat; cbn; auto. }
  split.
  { intros Hh. unfold Hash. rewrite Hh, Hbytes. reflexivity. }
  split.
  { unfold Hash. destruct (hash r) as [h | ] eqn:Eh; cbn [fst snd].
    - rewrite Eh. reflexivity.
    - reflexivity. }
  unfold Hash, same_fields. destruct (hash r); cbn; auto.
Qed.

End CacheProofs.

(* ----------------------------------------------------------------- *)
(** ** The record ID *)

Lemma Z_of_byte_inj (x y : byte) : Z_of_byte x = Z_of_byte y -> x = y.
Proof.
  intros E. rewrite <- (byte_of_Z_of_byte x), <- (byte_of_Z_of_byte y), E.
  reflexivity.
Qed.

Lemma bytes_Compare_antisym (a : list byte) :
  forall b : list byte,
    0 <= bytes_Compare a b -> 0 <= bytes_Compare b a -> a = b.
Proof.
  induction a as [ | x a IH ]; intros [ | y b ]; cbn [bytes_Compare];
    try reflexivity; try lia.
  destruct (Z.ltb_spec (Z_of_byte x) (Z_of_byte y)) as [Hxy | Hxy];
    [ lia | ].
  destruct (Z.ltb_spec (Z_of_byte y) (Z_of_byte x)) as [Hyx | Hyx];
    [ lia | ].
  intros H1 H2. rewrite (Z_of_byte_inj x y) by lia.
  rewrite (IH b H1 H2). reflexivity.
Qed.

Lemma keyLess_antisym (a b : list byte) :
  keyLess b a = false -> keyLess a b = false -> a = b.
Proof.
  unfold keyLess. intros H1 H2.
  apply Z.ltb_ge in H1. apply Z.ltb_ge in H2.
  apply bytes_Compare_antisym; assumption.
Qed.

(** Two sorted lists with the same elements are the same list. *)
Lemma sorted_keys_unique (l1 : list (list byte)) :
  forall l2 : list (list byte),
    StronglySorted (fun a b => keyLess b a = false) l1 ->
    StronglySorted (fun a b => keyLess b a = false) l2 ->
    Permutation l1 l2 ->
    l1 = l2.
Proof.
  induction l1 as [ | h1 t1 IH ]; intros l2 S1 S2 P.
  - apply Permutation_nil in P. symmetry. exact P.
  - destruct l2 as [ | h2 t2 ].
    + symmetry in P. apply Permutation_nil in P. discriminate P.
    + inversion S1 as [ | ? ? S1' F1 ]; subst.
      inversion S2 as [ | ? ? S2' F2 ]; subst.
      assert (E : h1 = h2).
      { assert (In1 : In h1 (h2 :: t2))
          by (apply (Permutation_in _ P); left; reflexivity).
        assert (In2 : In h2 (h1 :: t1))
          by (apply (Permutation_in _ (Permutation_sym P)); left;
              reflexivity).
        destruct In1 as [E | In1]; [ symmetry; exact E | ].
        destruct In2 as [E | In2]; [ exact E | ].
        rewrite Forall_forall in F1, F2.
        apply keyLess_antisym; [ apply F1 | apply F2 ]; assumption. }
      subst h2. f_equal.
      apply IH; try assumption.
      apply (Permutation_cons_inv P).
Qed.

Section IdentityProofs.

Variable Shandwich256 : list byte -> list byte.
Variable Selector : Type.
Variable Selector_MarshalTo : Selector -> list byte.
Variable Selector_Key : Selector -> list byte.
Variable sort_Slice :
  (list byte -> list byte -> bool) -> list (list byte) -> list (list byte).

Local Abbreviation Rec := (LFRecord Selector).
Local Abbreviation identify :=
  (ID Shandwich256 Selector_MarshalTo Selector_Key sort_Slice).
Local Abbreviation keys r := (map Selector_Key (Selectors r)).

(** X21: the ID of a record with selectors depends on nothing but the
    keys of its selectors, and not on their order: two records without a
    cached ID whose selector keys are the same up to order have the same
    ID, whatever their bodies, work and signatures, once [sort.Slice] has
    sorted the keys.  The ID is cached; a record without selectors has
    its hash for ID, and then only the hash is cached. *)
Theorem ID_selector_order (r1 r2 : Rec) :
  id r1 = None -> id r2 = None ->
  Selectors r1 <> [] ->
  Permutation (keys r1) (keys r2) ->
  sorted_by_key sort_Slice (keys r1) ->
  sorted_by_key sort_Slice (keys r2) ->
  fst (identify r1) = fst (identify r2)
  /\ id (snd (identify r1)) = Some (fst (identify r1))
  /\ identify (snd (identify r1)) = (fst (identify r1), snd (identify r1))
  /\ forall r0 : Rec,
      id r0 = None -> Selectors r0 = [] ->
      identify r0 = Hash Shandwich256 Selector_MarshalTo r0
      /\ id (snd (identify r0)) = None.
Proof.
  intros Hid1 Hid2 Hsel P (P1 & S1) (P2 & S2).
  assert (Hsel2 : Selectors r2 <> []).
  { intros E. rewrite E in P. cbn [map] in P.
    apply Permutation_sym, Permutation_nil in P.
    destruct (Selectors r1); [ congruence | discriminate P ]. }
  assert (Hn1 : (length (Selectors r1) =? 0)%nat = false)
    by (destruct (Selectors r1); [ congruence | reflexivity ]).
  assert (Hn2 : (length (Selectors r2) =? 0)%nat = false)
    by (destruct (Selectors r2); [ congruence | reflexivity ]).
  assert (Hsorted : sort_Slice keyLess (keys r1) = sort_Slice keyLess (keys r2)).
  { apply sorted_keys_unique; try assumption.
    eapply Permutation_trans; [ exact P1 | ].
    eapply Permutation_trans; [ exact P | ].
    apply Permutation_sym. exact P2. }
  assert (E1 : identify r1
               = (Shandwich256 (concat (sort_Slice keyLess (keys r1))),
                  set_id (Some (Shandwich256
                                  (concat (sort_Slice keyLess (keys r1)))))
                         r1))
    by (unfold ID; rewrite Hid1, Hn1; reflexivity).
  assert (E2 : fst (identify r2)
               = Shandwich256 (concat (sort_Slice keyLess (keys r2))))
    by (unfold ID; rewrite Hid2, Hn2; reflexivity).
  split; [ rewrite E1, E2, Hsorted; reflexivity | ].
  split; [ rewrite E1; reflexivity | ].
  split; [ rewrite E1; reflexivity | ].
  intros r0 Hid0 Hsel0. unfold ID. rewrite Hid0, Hsel0. cbn [length Nat.eqb].
  split; [ reflexivity | ].
  unfold Hash. destruct (hash r0); cbn [snd id set_hash]; exact Hid0.
Qed.

End IdentityProofs.

Lemma ID_selector_order_witness :
  let r1 := Demo.sample in
  let r2 := mkRecord recordBody_zero [(x21, x22); (x11, x12)] [] x00 []
                     [] None None in
  Permutation (map DemoMore.Selector_Key (Selectors r1))
              (map DemoMore.Selector_Key (Selectors r2))
  /\ fst (DemoMore.ID r1) = fst (DemoMore.ID r2).
Proof.
  cbv zeta.
  assert (P : Permutation
                (map DemoMore.Selector_Key (Selectors Demo.sample))
                (map DemoMore.Selector_Key
                     [(x21, x22); (x11, x12)]))
    by apply perm_swap.
  split; [ exact P | ].
  refine (proj1 (ID_selector_order
                   Demo.Shandwich256 Demo.Selector Demo.Selector_MarshalTo
                   DemoMore.Selector_Key DemoMore.sort_Slice
                   Demo.sample
                   (mkRecord recordBody_zero [(x21, x22); (x11, x12)] [] x00 []
                             [] None None)
                   eq_refl eq_refl _ P _ _)).
  - discriminate.
  - split; [ apply Permutation_refl | ].
    repeat constructor.
  - split; [ apply perm_swap | ].
    repeat constructor.
Defined.

(* ----------------------------------------------------------------- *)
(** ** The link count on the wire *)

(** X22: the decoder multiplies the link count by 32 in a [uint64] and
    checks the product, not the count: after a flag byte without
    certificate, a masked value and an owner, a count [c > 0] makes
    [unmarshalFrom] read [(c * 32) mod 2^64] bytes of links when this is
    at most [RecordMaxSize], and return [ErrorRecordInvalid] before
    reading any of them when it is more.  A count such as [2^59], whose
    product wraps to 0, is read as no links at all. *)
Theorem unmarshalFrom_link_count
        (rb0 : recordBody) (mv ow links rest : list byte) (c ts : Z) :
  len mv <= RecordMaxSize ->
  len ow <= RecordMaxSize ->
  0 < c < 2 ^ 64 ->
  0 <= ts < 2 ^ 64 ->
  (u64 (c * 32) <= RecordMaxSize ->
   len links = u64 (c * 32) ->
   unmarshalFrom (rb0, [x00] ++ writeUVarint (len mv) ++ mv
                       ++ writeUVarint (len ow) ++ ow
                       ++ writeUVarint c ++ links
                       ++ writeUVarint ts ++ rest)
   = (Ok tt, (mkBody mv ow [] links ts, rest)))
  /\ (RecordMaxSize < u64 (c * 32) ->
      unmarshalFrom (rb0, [x00] ++ writeUVarint (len mv) ++ mv
                          ++ writeUVarint (len ow) ++ ow
                          ++ writeUVarint c ++ links
                          ++ writeUVarint ts ++ rest)
      = (Err ErrorRecordInvalid,
         (mkBody mv ow [] (Links rb0) (Timestamp rb0),
          links ++ writeUVarint ts ++ rest))).
Proof.
  intros Hmv How Hc Hts.
  assert (Hc0 : 0 <= c < 2 ^ 64) by lia.
  split; [ intros Hfit Hlen | intros Hbig ];
    unfold unmarshalFrom; cbn [app];
    rewrite bind_ReadByte; cbv beta iota;
    rewrite (read_length_prefixed set_MaskedValue) by assumption;
    rewrite (read_length_prefixed set_Owner) by assumption;
    change (negb (Z.land (Z_of_byte x00) recordBodyFlagHasCertificate =? 0))
      with false;
    cbv iota; rewrite bind_upd;
    rewrite (bind_io ReadUvarint _ _ _ _ _
               (ReadUvarint_writeUVarint c _ Hc0));
    cbv beta iota; rewrite bind_check_None;
    (destruct (Z.ltb_spec 0 c); [ | lia ]); cbv zeta.
  - destruct (Z.ltb_spec RecordMaxSize (u64 (c * 32))); [ lia | ].
    rewrite bind_assoc, bind_ret, bind_assoc.
    rewrite <- Hlen. unfold len at 1. rewrite Nat2Z.id.
    rewrite (bind_io (ReadFull (length links)) _ _ _ _ _
               (ReadFull_app links _)).
    cbv beta iota. rewrite bind_upd.
    rewrite (bind_io ReadUvarint _ _ _ _ _
               (ReadUvarint_writeUVarint ts rest Hts)).
    cbv beta iota. rewrite bind_upd. reflexivity.
  - destruct (Z.ltb_spec RecordMaxSize (u64 (c * 32))); [ | lia ].
    reflexivity.
Qed.

Lemma unmarshalFrom_link_count_witness :
  0 < 2 ^ 59 < 2 ^ 64
  /\ unmarshalFrom (recordBody_zero,
                    [x00] ++ writeUVarint 0 ++ writeUVarint 0
                    ++ writeUVarint (2 ^ 59) ++ writeUVarint 7 ++ [xaa])
     = (Ok tt, (mkBody [] [] [] [] 7, [xaa])).
Proof.
  split; [ lia | ].
  apply (proj1 (unmarshalFrom_link_count recordBody_zero [] [] [] [xaa]
                  (2 ^ 59) 7
                  ltac:(vm_compute; congruence) ltac:(vm_compute; congruence)
                  ltac:(lia) ltac:(lia)));
    vm_compute; congruence.
Defined.

(* ----------------------------------------------------------------- *)
(** ** A link read as a certificate *)

Section AmbiguityProofs.

Variable Shandwich256 : list byte -> list byte.
Variable sha3_256 : list byte -> list byte.
Variable Selector : Type.
Variable Selector_Bytes : Selector -> list byte.
Variable Selector_VerifyClaim : Selector -> list byte -> bool.
Variable OwnerT : Type.
Variable NewOwnerFromBytes : list byte -> option OwnerT.
Variable Owner_Verify : OwnerT -> list byte -> list byte -> bool.
Variable WharrgarblVerify : list byte -> list byte -> Z.
Variable w : UintWidth.

Local Abbreviation Rec := (LFRecord Selector).
Local Abbreviation validate :=
  (Validate Shandwich256 sha3_256 Selector_Bytes Selector_VerifyClaim
            NewOwnerFromBytes Owner_Verify WharrgarblVerify w).

(** [Validate] looks at the body through its owner, its signing hash and
    its size only. *)
Lemma Validate_body (r : Rec) (rb : recordBody) :
  Owner rb = Owner (body r) ->
  signingHash Shandwich256 rb = signingHash Shandwich256 (body r) ->
  sizeBytes rb = sizeBytes (body r) ->
  validate (set_body rb r) = validate r.
Proof.
  intros Ho Hs Hz. unfold Validate.
  cbn [body set_body Selectors Work WorkAlgorithm Signature].
  rewrite Ho, Hs, Hz. reflexivity.
Qed.

(** X23: the signing hash separates the fields of the body by zero bytes
    without their lengths, so it does not tell a link from a certificate:
    a body without certificate whose only link ends in a zero byte, and
    the body with the same value, owner and timestamp, no link, and for
    certificate a zero byte followed by the first 31 bytes of that link,
    have the same signing hash and the same size.  [Validate] therefore
    returns the same on two records that differ in this way only. *)
Theorem Validate_link_as_certificate (r : Rec) (c : list byte) :
  length c = 31%nat ->
  Certificate (body r) = [] ->
  Links (body r) = c ++ [x00] ->
  let rb := mkBody (MaskedValue (body r)) (Owner (body r))
                   (x00 :: c) [] (Timestamp (body r)) in
  rb <> body r
  /\ signingHash Shandwich256 rb = signingHash Shandwich256 (body r)
  /\ sizeBytes rb = sizeBytes (body r)
  /\ validate (set_body rb r) = validate r.
Proof.
  intros Hlen Hce Hli rb.
  assert (Hne : rb <> body r).
  { intros E. apply (f_equal Certificate) in E. cbn [rb Certificate] in E.
    rewrite Hce in E. discriminate E. }
  assert (Hs : signingHash Shandwich256 rb
               = signingHash Shandwich256 (body r)).
  { unfold signingHash. cbn [rb MaskedValue Owner Certificate Links Timestamp].
    rewrite Hce, Hli. cbn [app]. rewrite <- app_assoc. reflexivity. }
  assert (Hz : sizeBytes rb = sizeBytes (body r)).
  { unfold sizeBytes, marshalTo, len.
    cbn [rb MaskedValue Owner Certificate Links Timestamp].
    rewrite Hce, Hli.
    assert (H32 : length (c ++ [x00]) = 32%nat)
      by (rewrite length_app; cbn [length]; lia).
    rewrite H32. cbn [length]. rewrite Hlen.
    change (32 =? 32)%nat with true. change (0 =? 32)%nat with false.
    change (32 <=? 0)%nat with false. change (32 <=? 32)%nat with true.
    cbv iota zeta. change (32 / 32 * 32)%nat with 32%nat.
    rewrite (firstn_all2 (n := 32) (c ++ [x00])) by lia.
    change (length (writeUVarint (Z.of_nat (32 / 32)))) with 1%nat in *.
    repeat rewrite length_app. cbn [length].
    change (length (writeUVarint (Z.of_nat (32 / 32)))) with 1%nat.
    rewrite Hlen. lia. }
  split; [ exact Hne | ]. split; [ exact Hs | ]. split; [ exact Hz | ].
  apply Validate_body; [ reflexivity | exact Hs | exact Hz ].
Qed.

End AmbiguityProofs.

Lemma Validate_link_as_certificate_witness :
  let r := mkRecord (mkBody [x01] [x0a; x0b] [] (repeat x09 31 ++ [x00]) 5)
                    [(x11, x12)] [] x00 [xaa] [] None None in
  Links (body r) = repeat x09 31 ++ [x00]
  /\ Demo.validate
       (set_body (mkBody [x01] [x0a; x0b] (x00 :: repeat x09 31) [] 5) r)
     = Demo.validate r.
Proof.
  cbv zeta. split; [ reflexivity | ].
  refine (proj2 (proj2 (proj2
    (Validate_link_as_certificate
       Demo.Shandwich256 Demo.sha3_256 Demo.Selector Demo.Selector_Bytes
       Demo.Selector_VerifyClaim Demo.OwnerT Demo.NewOwnerFromBytes
       Demo.Owner_Verify Demo.WharrgarblVerify W64
       (mkRecord (mkBody [x01] [x0a; x0b] [] (repeat x09 31 ++ [x00]) 5)
                 [(x11, x12)] [] x00 [xaa] [] None None)
       (repeat x09 31) _ _ _))));
    reflexivity.
Defined.

(* ----------------------------------------------------------------- *)
(** ** Arguments that [NewRecordStart] does not check *)

Section UncheckedProofs.

Variable Shandwich256 : list byte -> list byte.
Variable sha3_256 : list byte -> list byte.
Variable sha256 : list byte -> list byte.
Variable aes : list byte -> list byte -> list byte.
Variable lzw_Write : list byte -> list byte * bool.
Variable Selector : Type.
Variable Selector_zero : Selector.
Variable Selector_Claim : Selector -> list byte -> Z -> list byte -> Selector.
Variable Selector_Bytes : Selector -> list byte.
Variable w : UintWidth.

Local Abbreviation Rec := (LFRecord Selector).
Local Abbreviation start :=
  (NewRecordStart Shandwich256 sha3_256 sha256 aes lzw_Write Selector_zero
                  Selector_Claim Selector_Bytes w).

(** X24: [NewRecordStart] takes a certificate hash of 32 bytes as it is
    and drops one of any other length without an error; it stores the
    links whatever their lengths, so the body of the record it returns is
    the body that [marshalTo] puts on the wire exactly when the links have
    a multiple of 32 bytes in all. *)
Theorem NewRecordStart_unchecked
        (value : list byte) (links : list (list byte)) (maskingKey : list byte)
        (names : list (list byte)) (ords : list Z)
        (ownerPublic cert : list byte) (ts : Z)
        (r : Rec) (wh : list byte) (wb : Z) :
  start value links maskingKey names ords ownerPublic cert ts
  = Return (Ok (r, wh, wb)) ->
  Certificate (body r) = (if (length cert =? 32)%nat then cert else [])
  /\ (on_the_wire (body r) = body r
      <-> (length (concat links) mod 32 = 0)%nat).
Proof.
  intros Hrun. apply NewRecordStart_inv in Hrun.
  destruct Hrun as (_ & Hbody & _).
  assert (Hce : Certificate (body r)
                = (if (length cert =? 32)%nat then cert else [])).
  { rewrite Hbody. unfold started_body. cbn [Certificate].
    destruct (Nat.eqb_spec (length cert) 32) as [E | E]; [ | reflexivity ].
    apply (copy_into_tail [] (zeros 32) cert). rewrite E. reflexivity. }
  assert (Hli : Links (body r) = concat links).
  { rewrite Hbody. unfold started_body. cbn [Links].
    destruct links; reflexivity. }
  split; [ exact Hce | ].
  rewrite on_the_wire_fixed, Hli, Hce.
  split; [ intros (H & _); exact H | ].
  intros H. split; [ exact H | ].
  destruct (Nat.eqb_spec (length cert) 32) as [E | E]; auto.
Qed.

End UncheckedProofs.

Lemma NewRecordStart_unchecked_witness :
  exists (r : LFRecord Demo.Selector) (wh : list byte) (wb : Z),
    Demo.start [x68; x69] [[x01; x02; x03]] [x6b] [] [] [x0a; x0b]
               [x07; x08] 5
    = Return (Ok (r, wh, wb))
    /\ Certificate (body r) = []
    /\ on_the_wire (body r) <> body r.
Proof.
  assert (E : exists r wh wb,
             Demo.start [x68; x69] [[x01; x02; x03]] [x6b] [] [] [x0a; x0b]
                        [x07; x08] 5
             = Return (Ok (r, wh, wb)))
    by (vm_compute; do 3 eexists; reflexivity).
  destruct E as (r & wh & wb & E). exists r, wh, wb.
  destruct (NewRecordStart_unchecked
              Demo.Shandwich256 Demo.sha3_256 Demo.sha256 Demo.aes
              Demo.rle_Write Demo.Selector Demo.Selector_zero
              Demo.Selector_Claim Demo.Selector_Bytes W64
              _ _ _ _ _ _ _ _ _ _ _ E)
    as (Hce & Hwire).
  split; [ exact E | ]. split; [ exact Hce | ].
  intros H. apply Hwire in H. discriminate H.
Defined.
